(** * Resumable batch execution in the VisualSphinx generator pipeline

    A shallow embedding of the execution substrate shared by the stages
    [step1.2_claude_rewrite.py] (thread pool, closures over [results]),
    [step1.4_claude_verify.py] (thread pool, [LogicPuzzleSolver]),
    [step1.6_claude_rule_abstraction.py] and
    [step1.8_claude_rule_classification.py] (provider batches), and of
    the file-to-file stages between them: [step1.3_merge.py],
    [step1.5_filter_correct.py] (its run with [--no-images]),
    [step1.7_rule_extract.py] and [step1.9_merge.py].

    Modelling conventions.
    - Identifiers are Python [None] or an [int]: [option Z].  Every JSON
      object has an ["id"] entry, possibly [null].
    - A JSON object is its ["id"] plus its other entries, whose values
      are strings or lists of strings.
    - The in-memory [results] dictionary is a [gmap]; every consumer sorts
      its values by identifier before use.
    - An exception is represented by its [str(e)] text, the only thing the
      code ever inspects.
    - [print] calls and remote requests are recorded as events in a log.
    - The file system is a set of directories, a map from checkpoint paths
      to contents, and the set of image paths that exist.
    - A thread pool is run as a sequence of whole tasks in some order of
      completion, given by a [schedule] of the work list; the lock is a
      boolean of the state, and taking it while it is held blocks.
    - The pacing sleeps before a request change no state and are left
      out; the clock only appears in the retry loop.
    - Prompt templates are taken to be well formed in the stage models:
      rendering a prompt does not raise.  The builders of the request
      content are modelled on their own, from the rendered template on.
    - The objects of stages 1.7 and 1.9 are dictionaries in insertion
      order, with values that are [None], an [int], a string or a list.
    - [os.path.basename], [os.path.splitext] and the [str] of a list are
      left abstract. *)

From stdpp Require Import gmap strings list sorting pretty.
From Stdlib Require Import Ascii QArith Qminmax Lqa.

Set Warnings "-clear-no-such-hyp".

Local Open Scope string_scope.
Local Open Scope Z_scope.

(** ** Text helpers *)

Module Text.
Local Open Scope string_scope.

(** [Py_UNICODE_ISSPACE] on code points below 256; used both by
    [str.strip] and by [\s] in [re] patterns over [str]. *)
Definition is_space (c : ascii) : bool :=
  let n := nat_of_ascii c in
  ((9 <=? n)%nat && (n <=? 13)%nat) || ((28 <=? n)%nat && (n <=? 32)%nat)
  || (n =? 133)%nat || (n =? 160)%nat.

Fixpoint lstrip (s : string) : string :=
  match s with
  | String c s' => if is_space c then lstrip s' else s
  | EmptyString => EmptyString
  end.

Fixpoint rstrip (s : string) : string :=
  match s with
  | String c s' =>
      match rstrip s' with
      | EmptyString => if is_space c then EmptyString else String c EmptyString
      | t => String c t
      end
  | EmptyString => EmptyString
  end.

(** [str.strip()] *)
Definition strip (s : string) : string := rstrip (lstrip s).

(** [str.lower()] on the ASCII letters. *)
Definition lower_char (c : ascii) : ascii :=
  let n := nat_of_ascii c in
  if ((65 <=? n)%nat && (n <=? 90)%nat) then ascii_of_nat (n + 32) else c.

Fixpoint lower (s : string) : string :=
  match s with
  | String c s' => String (lower_char c) (lower s')
  | EmptyString => EmptyString
  end.

(** [starts_with p s] is [s.startswith(p)]; on success the remainder
    of [s] after [p] is returned. *)
Fixpoint strip_prefix (p s : string) : option string :=
  match p, s with
  | EmptyString, _ => Some s
  | String a p', String b s' => if Ascii.eqb a b then strip_prefix p' s' else None
  | String _ _, EmptyString => None
  end.

(** [cut sub s]: the text before and after the leftmost occurrence of
    [sub] in [s] ([s.partition(sub)] when [sub] occurs). *)
Fixpoint cut (sub s : string) : option (string * string) :=
  match strip_prefix sub s with
  | Some rest => Some (EmptyString, rest)
  | None =>
      match s with
      | String c s' =>
          match cut sub s' with
          | Some (before, rest) => Some (String c before, rest)
          | None => None
          end
      | EmptyString => None
      end
  end.

(** [sub in s] *)
Definition contains (sub s : string) : bool :=
  match cut sub s with Some _ => true | None => false end.


End Text.

(** ** Data model *)

(** A WorkItem or ResultRecord identifier: [None] or an [int]. *)
Abbreviation ident := (option Z) (only parsing).

(** An exception, represented by [str(e)]. *)
Abbreviation exn := string (only parsing).

(** The values of the entries other than ["id"]. *)
Inductive jval :=
  | JStr (s : string)
  | JList (l : list string).

(** A JSON object: the value under ["id"] ([None] for [null]) and the
    remaining entries. *)
Record jobj := JObj { oid : ident; ofields : list (string * jval) }.

(** [k in o], for a key [k] other than ["id"]. *)
Definition has_key (k : string) (o : jobj) : bool :=
  bool_decide (k ∈ (ofields o).*1).

(** [o.get(k, dflt)] *)
Fixpoint assoc (k : string) (l : list (string * jval)) : option jval :=
  match l with
  | [] => None
  | (k', v) :: l' => if String.eqb k k' then Some v else assoc k l'
  end.

Definition jget (k : string) (dflt : string) (o : jobj) : string :=
  match assoc k (ofields o) with
  | Some (JStr s) => s
  | _ => dflt
  end.

(** A checkpoint path, split the way [pathlib] splits it. *)
Record path := Path { pdir : string; pstem : string; psuffix : string }.

Global Instance path_eq_dec : EqDecision path.
Proof. solve_decision. Defined.

Global Instance path_countable : Countable path :=
  inj_countable' (λ p, (pdir p, pstem p, psuffix p))
                 (λ t, Path t.1.1 t.1.2 t.2) (λ p, match p with Path _ _ _ => eq_refl end).

Inductive content :=
  | JsonArray (l : list jobj)   (* a JSON array of objects *)
  | EmptyFile                   (* size 0 *)
  | Corrupt.                    (* anything [json.load] rejects *)

Record filesys := FS {
  fs_dirs : gset string;          (* existing directories *)
  fs_files : gmap path content;   (* checkpoint and output files *)
  fs_images : gset string         (* image paths for which [os.path.exists] holds *)
}.

(** What the run prints or requests. *)
Inductive event :=
  | EvResumed (n : nat)
  | EvNoCheckpoint
  | EvLoadError
  | EvNothingToDo
  | EvDispatch (id : ident)          (* an item handed to a worker *)
  | EvBatchCreate (ids : list Z)     (* one [batches.create] request *)
  | EvWarnNoTag (id : ident)
  | EvItemError (id : ident) (msg : exn)
  | EvWarnNoId
  | EvSaved (p : path) (n : nat)
  | EvSaveError
  | EvSkipEncode (id : ident)
  | EvNoValidRequests
  | EvEntryFailed (id : Z)
  | EvBatchError (msg : exn)
  | EvFinalized
  | EvFinalizeError.

(** The mutable state shared by a stage's workers. *)
Record world := World {
  w_results : gmap ident jobj;   (* [results] / [self.results] *)
  w_counter : Z;                 (* [processed_since_last_save] *)
  w_lock : bool;                 (* the [threading.Lock] is held *)
  w_fs : filesys;
  w_log : list event
}.

Definition set_results (f : gmap ident jobj → gmap ident jobj) (w : world) : world :=
  World (f (w_results w)) (w_counter w) (w_lock w) (w_fs w) (w_log w).
Definition set_counter (c : Z) (w : world) : world :=
  World (w_results w) c (w_lock w) (w_fs w) (w_log w).
Definition set_lock (b : bool) (w : world) : world :=
  World (w_results w) (w_counter w) b (w_fs w) (w_log w).
Definition set_fs (f : filesys → filesys) (w : world) : world :=
  World (w_results w) (w_counter w) (w_lock w) (f (w_fs w)) (w_log w).
Definition add_event (e : event) (w : world) : world :=
  World (w_results w) (w_counter w) (w_lock w) (w_fs w) (w_log w ++ [e]).

Definition init_world (fs : filesys) : world := World ∅ 0 false fs [].

(** ** A monad for Python statements

    A statement either completes, raises, or blocks for ever on a lock
    that will not be released. *)

Inductive outcome (A : Type) :=
  | Ret (a : A) (w : world)
  | Raise (e : exn) (w : world)
  | Blocked (w : world).
Arguments Ret {A} a w.
Arguments Raise {A} e w.
Arguments Blocked {A} w.

Definition prog (A : Type) : Type := world → outcome A.

Global Instance prog_ret : MRet prog := λ A a w, Ret a w.
Global Instance prog_bind : MBind prog := λ A B f m w,
  match m w with
  | Ret a w' => f a w'
  | Raise e w' => Raise e w'
  | Blocked w' => Blocked w'
  end.

Definition get_world : prog world := λ w, Ret w w.
Definition modify (f : world → world) : prog unit := λ w, Ret tt (f w).
Definition raise {A} (e : exn) : prog A := λ w, Raise e w.
Definition emit (e : event) : prog unit := modify (add_event e).

(** [try: body except Exception as e: handler(e)] *)
Definition try_except {A} (body : prog A) (handler : exn → prog A) : prog A :=
  λ w, match body w with
       | Raise e w' => handler e w'
       | o => o
       end.

(** [with lock: body] for a non-reentrant [threading.Lock]: acquiring a
    held lock blocks; the lock is released however [body] leaves. *)
Definition with_lock {A} (body : prog A) : prog A :=
  λ w, if w_lock w then Blocked w
       else match body (set_lock true w) with
            | Ret a w' => Ret a (set_lock false w')
            | Raise e w' => Raise e (set_lock false w')
            | Blocked w' => Blocked w'
            end.

(** [for x in l: body(x)] *)
Fixpoint for_each {A} (l : list A) (body : A → prog unit) : prog unit :=
  match l with
  | [] => mret tt
  | x :: l' => body x;; for_each l' body
  end.

Definition final_world {A} (o : outcome A) : world :=
  match o with Ret _ w | Raise _ w | Blocked w => w end.

(** ** File system operations *)

(** [open(p, "w")] followed by [json.dump(l, f)]: replaces the whole file;
    fails when the directory is missing. *)
Definition write_json (p : path) (l : list jobj) : prog unit :=
  λ w, if bool_decide (pdir p ∈ fs_dirs (w_fs w))
       then Ret tt (set_fs (λ fs, FS (fs_dirs fs) (<[p := JsonArray l]> (fs_files fs)) (fs_images fs)) w)
       else Raise "[Errno 2] No such file or directory" w.

(** [open(p, "w")] alone: the file is created or truncated. *)
Definition write_empty (p : path) : prog unit :=
  λ w, if bool_decide (pdir p ∈ fs_dirs (w_fs w))
       then Ret tt (set_fs (λ fs, FS (fs_dirs fs) (<[p := EmptyFile]> (fs_files fs)) (fs_images fs)) w)
       else Raise "[Errno 2] No such file or directory" w.

(** [Path(p).parent.mkdir(parents=True, exist_ok=True)] *)
Definition mkdir_parent (p : path) : prog unit :=
  modify (set_fs (λ fs, FS ({[pdir p]} ∪ fs_dirs fs) (fs_files fs) (fs_images fs))).

(** [Path(src).rename(dst)] *)
Definition rename (src dst : path) : prog unit :=
  λ w, match fs_files (w_fs w) !! src with
       | Some c =>
           if bool_decide (pdir dst ∈ fs_dirs (w_fs w))
           then Ret tt (set_fs (λ fs, FS (fs_dirs fs) (<[dst := c]> (delete src (fs_files fs))) (fs_images fs)) w)
           else Raise "[Errno 2] No such file or directory" w
       | None => Raise "[Errno 2] No such file or directory" w
       end.

(** ** Sorting records by identifier *)

(** The sort key [x["id"]] of a record that has an identifier. *)
Definition sort_key (r : jobj) : Z := default 0 (oid r).

Definition id_le (r1 r2 : jobj) : Prop := sort_key r1 ≤ sort_key r2.
Definition id_lt (r1 r2 : jobj) : Prop := sort_key r1 < sort_key r2.

Global Instance id_le_dec : RelDecision id_le.
Proof. intros r1 r2. unfold id_le. apply _. Defined.

(** [sorted(l, key=lambda x: x["id"])] *)
Definition sorted_by_id (l : list jobj) : list jobj := merge_sort id_le l.

(** [[r for r in results.values() if r.get("id") is not None]] *)
Definition valid_results (m : gmap ident jobj) : list jobj :=
  filter (λ r, is_Some (oid r)) (map_to_list m).*2.

(** The list every [save] serialises. *)
Definition snapshot_sorted (m : gmap ident jobj) : list jobj :=
  sorted_by_id (valid_results m).

(** ** Regular-expression matches *)

(** [m.group(1)] for the result [m] of [re.search]: an [AttributeError]
    when nothing matched. *)
Definition group1 (m : option string) : string + exn :=
  match m with
  | Some g => inl g
  | None => inr "'NoneType' object has no attribute 'group'"
  end.

(** [m.group(1).strip() if m else dflt] *)
Definition group1_strip_or (dflt : string) (m : option string) : string + exn :=
  if bool_decide (is_Some m)
  then match group1 m with
       | inl g => inl (Text.strip g)
       | inr e => inr e
       end
  else inl dflt.

(** ** The retry decorator

    [backoff.on_exception(backoff.expo, Exception, max_tries, base,
    max_time, giveup, jitter)] around a callable.  Time is an explicit
    clock: [elapsed] is read at the top of every iteration, each call
    takes its latency, and [time.sleep] advances the clock. *)

Module Backoff.

(** How the environment answers the [k]-th call. *)
Record attempt (A : Type) := Attempt {
  att_result : A + exn;   (* a return value or a raised exception *)
  att_latency : Q;        (* seconds the call takes *)
  att_random : Q          (* the draw of [random.uniform(0, 1)] for the jitter *)
}.
Arguments Attempt {A}.
Arguments att_result {A}.
Arguments att_latency {A}.
Arguments att_random {A}.

Inductive verdict (A : Type) :=
  | Returned (a : A)     (* the call returned *)
  | GaveUp (e : exn)     (* the exception is re-raised to the caller *)
  | OutOfFuel.
Arguments Returned {A}.
Arguments GaveUp {A}.
Arguments OutOfFuel {A}.

Record run (A : Type) := Run {
  r_verdict : verdict A;
  r_starts : list Q;   (* [elapsed] at the start of each attempt *)
  r_sleeps : list Q    (* the sleeps between attempts *)
}.
Arguments Run {A}.
Arguments r_verdict {A}.
Arguments r_starts {A}.
Arguments r_sleeps {A}.

(** The [n]-th value of [backoff.expo(base, factor=1)]. *)
Definition expo (base : Z) (n : nat) : Q := inject_Z (base ^ Z.of_nat n).

(** [backoff.full_jitter], the default. *)
Definition full_jitter (value u : Q) : Q := (value * u)%Q.
(** [jitter=None] *)
Definition no_jitter (value u : Q) : Q := value.

Section Retry.
Context {A : Type}.
Variable max_tries : nat.
Variable base : Z.
Variable max_time : Q.
Variable giveup : exn → bool.
Variable jitter : Q → Q → Q.
Variable target : nat → attempt A.

Fixpoint retry (fuel tries : nat) (elapsed : Q) : run A :=
    match fuel with
    | O => Run OutOfFuel [] []
    | S fuel' =>
        let tries := S tries in
        let a := target tries in
        match att_result a with
        | inl r => Run (Returned r) [elapsed] []
        | inr e =>
            if giveup e || (tries =? max_tries)%nat || Qle_bool max_time elapsed
            then Run (GaveUp e) [elapsed] []
            else
              let value := expo base (tries - 1) in
              let seconds := Qmin (jitter value (att_random a)) (max_time - elapsed)%Q in
              let rest := retry fuel' tries (elapsed + att_latency a + seconds)%Q in
              Run (r_verdict rest) (elapsed :: r_starts rest) (seconds :: r_sleeps rest)
        end
    end.

  (** The decorated callable.  The loop is [while True]; it leaves at
      the latest when [tries == max_tries], so [max_tries] iterations
      are all it can make. *)
Definition on_exception : run A := retry max_tries 0 0%Q.

  (** Number of calls made. *)
Definition tries_of (r : run A) : nat := length (r_starts r).

End Retry.

(** The decorator arguments used by both thread-pool stages. *)
Definition MAX_TRIES : nat := 8.
Definition BASE : Z := 2.
Definition MAX_TIME : Q := 300%Q.

End Backoff.

(** ** Stage 1.2: [step1.2_claude_rewrite.py] *)

Module Rewrite.
Import Backoff.

(** [giveup=lambda e: not ("rate_limit_error" in str(e).lower())] *)
Definition is_rate_limit (e : exn) : bool :=
  Text.contains "rate_limit_error" (Text.lower e).
Definition giveup (e : exn) : bool := negb (is_rate_limit e).

(** [translate_with_retry]: the decorated call of
    [client.messages.create]; the inner [except] prints and re-raises. *)
Definition translate_with_retry (call : nat → attempt string) : run string :=
  on_exception MAX_TRIES BASE MAX_TIME giveup full_jitter call.

(** The group captured by
    [<translated_explanation>\s*(.*?)\s*</translated_explanation>] with
    [re.DOTALL] at the leftmost match: the text between the first
    opening tag and the first closing tag after it, without the
    surrounding whitespace that the two [\s*] consume. *)
Definition re_search_translation (text : string) : option string :=
  match Text.cut "<translated_explanation>" text with
  | Some (_, rest) =>
      match Text.cut "</translated_explanation>" rest with
      | Some (body, _) => Some (Text.strip body)
      | None => None
      end
  | None => None
  end.

(** Lines 249-255: the translation and whether the warning is printed. *)
Definition parse_translation (response_text : string) : (string * bool) + exn :=
  let match_ := re_search_translation response_text in
  match group1_strip_or (Text.strip response_text) match_ with
  | inl translation => inl (translation, negb (bool_decide (is_Some match_)))
  | inr e => inr e
  end.

(** A record counts as done when it has a translation or an error. *)
Definition done (r : jobj) : bool := has_key "translation" r || has_key "error" r.

(** [id in results and ("translation" in results[id] or "error" in results[id])] *)
Definition already_done (results : gmap ident jobj) (id : ident) : bool :=
  match results !! id with
  | Some r => done r
  | None => false
  end.

(** Lines 275-285. *)
Definition items_to_process (data : list jobj) (results : gmap ident jobj) : list jobj :=
  filter (λ item, negb (already_done results (oid item))) data.

Section Stage.
Variable save_interval : Z.                       (* [args.save_interval] *)
Variable output : path.                           (* [args.output] *)
Variable remote : jobj → nat → attempt string.    (* the provider's answers, per item and call *)
Variable schedule : list jobj → list jobj.        (* the order in which the pool completes tasks *)

Definition intermediate_output_file : path :=
    Path (pdir output) (String.append (pstem output) "_intermediate") (psuffix output).

  (** Lines 174-187: a missing or unreadable file leaves [results] empty. *)
Definition load_existing : prog unit :=
    w ← get_world;
    match fs_files (w_fs w) !! intermediate_output_file with
    | None => emit EvNoCheckpoint
    | Some (JsonArray existing_results) =>
        for_each existing_results (λ item,
          match oid item with
          | Some _ => modify (set_results (λ results, <[oid item := item]> results))
          | None => mret tt
          end);;
        w' ← get_world;
        emit (EvResumed (size (w_results w')))
    | Some _ => emit EvLoadError
    end.

  (** Lines 191-212. *)
Definition save_intermediate_results_local : prog unit :=
    try_except
      (sorted ← with_lock (w ← get_world; mret (snapshot_sorted (w_results w)));
       write_json intermediate_output_file sorted;;
       emit (EvSaved intermediate_output_file (length sorted));;
       modify (set_counter 0))
      (λ e, emit EvSaveError).

  (** Lines 258-262 and 268-272: the update of the shared state. *)
Definition record_result (item_id : ident) (result : jobj) : prog unit :=
    with_lock
      (modify (set_results (λ results, <[item_id := result]> results));;
       modify (λ w, set_counter (w_counter w + 1) w);;
       w ← get_world;
       if bool_decide (save_interval ≤ w_counter w)
       then save_intermediate_results_local
       else mret tt).

  (** Lines 214-273. *)
Definition translate_item_process (item_data : jobj) : prog jobj :=
    let item_id := oid item_data in
    w ← get_world;
    if already_done (w_results w) item_id
    then mret (default (JObj item_id []) (w_results w !! item_id))
    else
      try_except
        (message ←
           match r_verdict (translate_with_retry (remote item_data)) with
           | Returned text => mret text
           | GaveUp e => raise e
           | OutOfFuel => raise "unreachable"
           end;
         '(translation, warn) ←
           match parse_translation message with
           | inl p => mret p
           | inr e => raise e
           end;
         (if (warn : bool) then emit (EvWarnNoTag item_id) else mret tt);;
         let result := JObj item_id [("translation", JStr translation)] in
         record_result item_id result;;
         mret result)
        (λ e,
           emit (EvItemError item_id e);;
           let error_result := JObj item_id [("error", JStr e)] in
           record_result item_id error_result;;
           mret error_result).

  (** Lines 331-349: move the intermediate file to the output path. *)
Definition finalize : prog unit :=
    try_except
      (rename intermediate_output_file output;; emit EvFinalized)
      (λ e, emit EvFinalizeError).

  (** [main] from line 166 on, the input file already read into [data]. *)
Definition main (data : list jobj) : prog unit :=
    load_existing;;
    w ← get_world;
    let todo := items_to_process data (w_results w) in
    (match todo with
     | [] => emit EvNothingToDo
     | _ => for_each (schedule todo) (λ item,
              emit (EvDispatch (oid item));;
              translate_item_process item;; mret tt)
     end);;
    save_intermediate_results_local;;
    finalize.

End Stage.
End Rewrite.

(** ** Stage 1.4: [step1.4_claude_verify.py] *)

Module Verify.
Import Backoff.

(** [if "rate_limit_error" in str(e): raise] *)
Definition is_rate_limit (e : exn) : bool := Text.contains "rate_limit_error" e.

(** Group 1 of [<tag>(.*?)</tag>] with [re.DOTALL] at the leftmost
    match: the text between the first opening tag and the first closing
    tag after it. *)
Definition re_search_tag (tag text : string) : option string :=
  match Text.cut (String.append "<" (String.append tag ">")) text with
  | Some (_, rest) =>
      match Text.cut (String.append "</" (String.append tag ">")) rest with
      | Some (body, _) => Some body
      | None => None
      end
  | None => None
  end.

(** [m.group(1).strip() if m else ""] *)
Definition tag_or_empty (tag text : string) : string + exn :=
  group1_strip_or "" (re_search_tag tag text).

(** Lines 190-201: the success record. *)
Definition success_record (item : jobj) (response_text : string) : jobj + exn :=
  match tag_or_empty "reasoning" response_text with
  | inl reasoning =>
      match tag_or_empty "answer" response_text with
      | inl answer =>
          inl (JObj (oid item)
                 [("correct_answer", JStr (jget "correct_answer" "" item));
                  ("reasoning", JStr reasoning);
                  ("answer", JStr answer);
                  ("raw_response", JStr response_text)])
      | inr e => inr e
      end
  | inr e => inr e
  end.

(** Lines 170-201: the [try] block of [analyze_puzzle] for one call,
    given the provider's answer to it.  The prompt template is assumed
    to contain its split marker. *)
Definition try_block (fs : filesys) (item : jobj) (a : attempt string) : jobj + exn :=
  if negb (has_key "image" item) || bool_decide (jget "image" "" item = "")
  then inr (String.append "Missing 'image' field or image path is empty for item ID: "
              (match oid item with Some z => pretty z | None => "None" end))
  else if negb (bool_decide (jget "image" "" item ∈ fs_images fs))
  then inr (String.append "Image not found: " (jget "image" "" item))
  else match att_result a with
       | inl response_text => success_record item response_text
       | inr e => inr e
       end.

(** Lines 169-205: the body of [analyze_puzzle] for one call. *)
Definition analyze_puzzle_body (fs : filesys) (item : jobj) (a : attempt string) : attempt jobj :=
  let result : jobj + exn :=
    match try_block fs item a with
    | inl r => inl r
    | inr e => if is_rate_limit e then inr e else inl (JObj (oid item) [("error", JStr e)])
    end in
  Attempt result (att_latency a) (att_random a).

Section Stage.
Variable save_interval : Z.
Variable outfile : path.
Variable remote : jobj → nat → attempt string.
Variable schedule : list jobj → list jobj.

  (** The decorated [analyze_puzzle] (lines 148-150): no [giveup], no jitter. *)
Definition analyze_puzzle (fs : filesys) (item : jobj) : run jobj :=
    on_exception MAX_TRIES BASE MAX_TIME (λ _, false) no_jitter
      (λ k, analyze_puzzle_body fs item (remote item k)).

  (** Lines 207-217. *)
Definition _load : prog unit :=
    w ← get_world;
    match fs_files (w_fs w) !! outfile with
    | None | Some EmptyFile => mret tt
    | Some (JsonArray recs) =>
        for_each recs (λ rec,
          match oid rec with
          | Some _ => modify (set_results (λ results, <[oid rec := rec]> results))
          | None => mret tt
          end);;
        w' ← get_world;
        emit (EvResumed (size (w_results w')))
    | Some Corrupt => emit EvLoadError
    end.

  (** Lines 272-297. *)
Definition _save : prog unit :=
    sorted_results ← with_lock (w ← get_world; mret (snapshot_sorted (w_results w)));
    try_except
      (mkdir_parent outfile;;
       write_json outfile sorted_results;;
       emit (EvSaved outfile (length sorted_results)))
      (λ e, emit EvSaveError).

  (** Lines 250-252: the critical section of [worker]; its value is
      [need_save]. *)
Definition store_result (current_id : ident) (result : jobj) : prog bool :=
    with_lock
      (modify (set_results (λ results, <[current_id := result]> results));;
       w ← get_world;
       if bool_decide (save_interval = 0)
       then raise "integer modulo by zero"
       else mret (bool_decide (Z.of_nat (size (w_results w)) `mod` save_interval = 0))).

  (** Lines 244-256. *)
Definition worker (puzzle_item_data : jobj) : prog unit :=
    w ← get_world;
    result ←
      match r_verdict (analyze_puzzle (w_fs w) puzzle_item_data) with
      | Returned r => mret r
      | GaveUp e => raise e
      | OutOfFuel => raise "unreachable"
      end;
    need_save ←
      match oid puzzle_item_data with
      | Some _ => store_result (oid puzzle_item_data) result
      | None => emit EvWarnNoId;; mret false
      end;
    if (need_save : bool) then _save else mret tt.

  (** Line 233. *)
Definition items_to_process (data : list jobj) (results : gmap ident jobj) : list jobj :=
    filter (λ d, oid d ∉ dom results) data.

  (** Lines 219-270.  An exception leaving a worker surfaces when the
      results of [executor.map] are consumed and ends [process_batch]. *)
Definition process_batch (data : list jobj) : prog unit :=
    _load;;
    w ← get_world;
    let todo := items_to_process data (w_results w) in
    match todo with
    | [] =>
        emit EvNothingToDo;;
        if bool_decide (w_results w = ∅) then mret tt else _save
    | _ =>
        for_each (schedule todo) (λ item, emit (EvDispatch (oid item));; worker item);;
        _save
    end.

End Stage.
End Verify.

(** ** Stages 1.6 and 1.8: provider batches *)

Module Batch.

(** One line of [batches.results(bid)]. *)
Inductive entry_result :=
  | Succeeded (text : string)   (* [ent.result.message] is present *)
  | Errored (err : string).     (* otherwise; [str(getattr(ent, "error", ...))] *)

Record entry := Entry { custom_id : ident; ent_result : entry_result }.

(** What [create], the polling loop and the iteration over the results
    deliver for one submission: some entries, then possibly an exception. *)
Record batch_reply := Reply { br_entries : list entry; br_failure : option exn }.

(** Successive slices [todo[idx : idx + n]]. *)
Fixpoint chunks_aux {A} (fuel n : nat) (l : list A) : list (list A) :=
  match fuel, l with
  | S fuel', _ :: _ => take n l :: chunks_aux fuel' n (drop n l)
  | _, _ => []
  end.
Definition chunks {A} (n : nat) (l : list A) : list (list A) := chunks_aux (length l) n l.

Section Stage.
Variable batch_size : Z.
Variable save_interval : Z.
Variable out_path : path.
  (** The provider's reply to a submission with the given custom ids. *)
Variable provider : list ident → batch_reply.
  (** The stage's success entries besides ["id"], from the item and the
      response text (1.6: lines 207-217; 1.8: lines 185-189). *)
Variable payload : jobj → string → list (string * jval).

  (** [_load] *)
Definition _load : prog unit :=
    w ← get_world;
    match fs_files (w_fs w) !! out_path with
    | None | Some EmptyFile => mret tt
    | Some (JsonArray recs) =>
        for_each recs (λ rec, modify (set_results (λ results, <[oid rec := rec]> results)));;
        w' ← get_world;
        emit (EvResumed (size (w_results w')))
    | Some Corrupt => emit EvLoadError
    end.

  (** [_save].  Nothing filters the records here: comparing a [None]
      identifier with anything makes [sorted] raise. *)
Definition _save : prog unit :=
    mkdir_parent out_path;;
    w ← get_world;
    let values := (map_to_list (w_results w)).*2 in
    if bool_decide (2 ≤ length values)%nat && negb (forallb (λ r, bool_decide (is_Some (oid r))) values)
    then
      (* [open(path, "w")] has already truncated the file *)
      write_empty out_path;;
      raise "'<' not supported between instances of 'NoneType' and 'int'"
    else
      write_json out_path (sorted_by_id values);;
      emit (EvSaved out_path (size (w_results w))).

  (** [_prepare_batch_requests] / [_prepare_requests]: the custom ids of
      the requests and the map from custom id to item. *)
Fixpoint prepare_requests (items : list jobj) (results : gmap ident jobj) (fs : filesys)
      : list event * list ident * gmap ident jobj :=
    match items with
    | [] => ([], [], ∅)
    | itm :: rest =>
        let '(evs, reqs, id_map) := prepare_requests rest results fs in
        let pid := oid itm in
        if bool_decide (pid ∈ dom results) then (evs, reqs, id_map)
        else if negb (has_key "image" itm && bool_decide (jget "image" "" itm ∈ fs_images fs))
        then (* [itm["image"]] or [_encode_image] raised *)
             (EvSkipEncode pid :: evs, reqs, id_map)
        else (evs, pid :: reqs, if bool_decide (pid ∈ dom id_map) then id_map else <[pid := itm]> id_map)
    end.

  (** The loop over [batches.results(bid)]. *)
Definition handle_entry (id_map : gmap ident jobj) (ent : entry) : prog unit :=
    match custom_id ent with
    | None => raise "invalid literal for int() with base 10: 'None'"
    | Some z =>
        let pid := Some z in
        match ent_result ent with
        | Succeeded txt =>
            match id_map !! pid with
            | Some itm => modify (set_results (λ results, <[pid := JObj pid (payload itm txt)]> results))
            | None => raise (String.append "'" (String.append (pretty z) "'"))
            end
        | Errored err =>
            modify (set_results (λ results, <[pid := JObj pid [("error", JStr err)]]> results));;
            emit (EvEntryFailed z)
        end
    end.

  (** One iteration of the loop over chunks (lines 168-227 of 1.6). *)
Definition process_chunk (i : nat) (chunk : list jobj) : prog unit :=
    w ← get_world;
    let '(evs, reqs, id_map) := prepare_requests chunk (w_results w) (w_fs w) in
    for_each evs emit;;
    match reqs with
    | [] => emit EvNoValidRequests
    | _ =>
        try_except
          (emit (EvBatchCreate (omap id reqs));;
           let reply := provider reqs in
           for_each (br_entries reply) (handle_entry id_map);;
           match br_failure reply with
           | Some e => raise e
           | None => mret tt
           end)
          (λ e, emit (EvBatchError e));;
        if bool_decide (save_interval = 0) then raise "integer modulo by zero"
        else if bool_decide ((Z.of_nat i + 1) `mod` save_interval = 0) then _save
        else mret tt
    end.

Fixpoint process_chunks (i : nat) (cs : list (list jobj)) : prog unit :=
    match cs with
    | [] => mret tt
    | c :: cs' => process_chunk i c;; process_chunks (S i) cs'
    end.

  (** [todo = [x for x in items if x["id"] not in self.results]] *)
Definition todo_of (items : list jobj) (results : gmap ident jobj) : list jobj :=
    filter (λ x, oid x ∉ dom results) items.

  (** [process_batch] (1.6) / [process] (1.8). *)
Definition process_batch (items : list jobj) : prog unit :=
    _load;;
    w ← get_world;
    let todo := todo_of items (w_results w) in
    match todo with
    | [] => emit EvNothingToDo
    | _ =>
        (if bool_decide (batch_size = 0) then raise "range() arg 3 must not be zero"
         else if bool_decide (batch_size < 0) then mret tt
         else process_chunks 0 (chunks (Z.to_nat batch_size) todo));;
        _save
    end.

End Stage.

(** [grab(tag)] of stage 1.8: [m.group(1).strip() if m else ""]. *)
Definition grab (txt tag : string) : string :=
  match Verify.re_search_tag tag txt with
  | Some g => Text.strip g
  | None => ""
  end.

(** The success entries of stage 1.8. *)
Definition classification_payload (itm : jobj) (txt : string) : list (string * jval) :=
  [("correct_answer", JStr (jget "correct_answer" "" itm));
   ("puzzle_breakdown", JStr (grab txt "puzzle_breakdown"));
   ("question_type", JStr (grab txt "question_type"));
   ("knowledge_point", JStr (grab txt "knowledge_point"));
   ("raw_response", JStr txt)].

End Batch.

(** ** Constructors of the batch stages *)

Module Constructors.




Section Config.
(** [Anthropic_API_KEY], imported from [api_config]. *)
Variable Anthropic_API_KEY : option string.
(** The paths for which [Path.is_file] holds, and the images that exist. *)
Variable files : gset string.
Variable images : gset string.



End Config.
End Constructors.

(** ** The planner's contract, in the words of the specification *)

Module Spec.

(** A record is resolved when it carries a success payload (one of the
    stage's success entries) or an explicit failure payload. *)
Definition resolved (success_keys : list string) (r : jobj) : bool :=
  existsb (λ k, has_key k r) success_keys || has_key "error" r.

Definition maps_to_resolved (success_keys : list string)
    (ckpt : gmap ident jobj) (id : ident) : Prop :=
  ∃ r, ckpt !! id = Some r ∧ resolved success_keys r = true.

Global Instance maps_to_resolved_dec success_keys ckpt id :
  Decision (maps_to_resolved success_keys ckpt id).
Proof.
  unfold maps_to_resolved.
  destruct (ckpt !! id) as [r|].
  - destruct (resolved success_keys r) eqn:E.
    + left. exists r. split; [reflexivity | exact E].
    + right. intros (r' & [= <-] & H). congruence.
  - right. intros (r' & H & _). discriminate.
Defined.

(** The ordered subset of the input whose identifier is not already
    present with a resolved record. *)
Definition pending (success_keys : list string)
    (data : list jobj) (ckpt : gmap ident jobj) : list jobj :=
  filter (λ item, ¬ maps_to_resolved success_keys ckpt (oid item)) data.

(** The success entries of each stage. *)
Definition rewrite_keys : list string := ["translation"].
Definition verify_keys : list string :=
  ["correct_answer"; "reasoning"; "answer"; "raw_response"].

(** The save policy of the coordinator's contract: a counter of
    completions since the last save, compared with the interval and
    reset by the save.  The result is whether to save and the counter
    afterwards. *)
Definition counter_policy (save_interval counter : Z) : bool * Z :=
  if bool_decide (save_interval ≤ counter + 1) then (true, 0) else (false, counter + 1).

End Spec.

(** ** Derived notions used in the statements *)

(** What the loading loops leave in [results]: the records in file
    order, later ones replacing earlier ones; the thread-pool stages
    skip records without identifier. *)
Definition load_records (skip_none : bool) (recs : list jobj) (m : gmap ident jobj)
    : gmap ident jobj :=
  foldl (λ m rec, if skip_none && negb (bool_decide (is_Some (oid rec))) then m
                  else <[oid rec := rec]> m) m recs.

(** The unit of work of the rewrite stage as a record and the lines it
    prints: what [translate_item_process] stores for an item that is not
    done yet. *)
Definition rewrite_outcome (remote : jobj → nat → Backoff.attempt string) (item_data : jobj)
    : jobj * list event :=
  let item_id := oid item_data in
  let failure e := (JObj item_id [("error", JStr e)], [EvItemError item_id e]) in
  match Backoff.r_verdict (Rewrite.translate_with_retry (remote item_data)) with
  | Backoff.Returned text =>
      match Rewrite.parse_translation text with
      | inl (translation, warn) =>
          (JObj item_id [("translation", JStr translation)],
           if warn then [EvWarnNoTag item_id] else [])
      | inr e => failure e
      end
  | Backoff.GaveUp e => failure e
  | Backoff.OutOfFuel => failure "unreachable"
  end.

(** An item the batch stages can request: it has an image that exists. *)
Definition encodable (fs : filesys) (itm : jobj) : bool :=
  has_key "image" itm && bool_decide (jget "image" "" itm ∈ fs_images fs).

(** Every record sits under its own identifier; all writes of all
    stages keep this. *)
Definition keyed (m : gmap ident jobj) : Prop :=
  ∀ k r, m !! k = Some r → oid r = k.

(** The world a stage starts its planning from. *)
Definition after_load (skip_none : bool) (silent_when_missing : bool) (p : path) (w : world) : world :=
  match fs_files (w_fs w) !! p with
  | None => if silent_when_missing then w else add_event EvNoCheckpoint w
  | Some EmptyFile => if silent_when_missing then w else add_event EvLoadError w
  | Some (JsonArray recs) =>
      let w1 := set_results (load_records skip_none recs) w in
      add_event (EvResumed (size (w_results w1))) w1
  | Some Corrupt => add_event EvLoadError w
  end.

(** The state after the update of lines 258-260. *)
Definition stored (item_id : ident) (result : jobj) (w : world) : world :=
  set_counter (w_counter w + 1) (set_results (λ results, <[item_id := result]> results) w).

(** A record written by this run: a translation or an error, nothing else. *)
Definition shaped (r : jobj) : Prop :=
  (∃ t, ofields r = [("translation", JStr t)]) ∨ (∃ e, ofields r = [("error", JStr e)]).

(** Every record of [results] was loaded or was written, in shape and
    under its own identifier, by this run. *)
Definition from_run (loaded results : gmap ident jobj) : Prop :=
  ∀ k r, results !! k = Some r → loaded !! k = Some r ∨ (oid r = k ∧ shaped r).

(** One task of the pool. *)
Definition pool_task (save_interval : Z) (output : path)
    (remote : jobj → nat → Backoff.attempt string) (item : jobj) : prog unit :=
  emit (EvDispatch (oid item));;
  Rewrite.translate_item_process save_interval output remote item;; mret tt.

(** The loop of [main] over the pool's completions. *)
Definition dispatch (save_interval : Z) (output : path)
    (remote : jobj → nat → Backoff.attempt string) (schedule : list jobj → list jobj)
    (todo : list jobj) : prog unit :=
  match todo with
  | [] => emit EvNothingToDo
  | _ => for_each (schedule todo) (pool_task save_interval output remote)
  end.

(** A record the batch loop writes under [k]: a failure record or the
    stage's success record. *)
Definition produced (payload : jobj → string → list (string * jval))
    (k : ident) (r : jobj) : Prop :=
  oid r = k
  ∧ ((∃ err, ofields r = [("error", JStr err)]) ∨ (∃ itm txt, ofields r = payload itm txt)).

(** Every record was loaded, or was produced by the loop under an
    allowed identifier; the images do not change. *)
Definition batch_inv (payload : jobj → string → list (string * jval))
    (loaded : gmap ident jobj) (images : gset string) (allowed : ident → Prop)
    (w : world) : Prop :=
  fs_images (w_fs w) = images
  ∧ ∀ k r, w_results w !! k = Some r →
           loaded !! k = Some r ∨ (produced payload k r ∧ allowed k).

(** A record written by a run of the verify stage: an error, or the
    success record of some response. *)
Definition verify_shaped (r : jobj) : Prop :=
  (∃ e, ofields r = [("error", JStr e)])
  ∨ (∃ item text, Verify.success_record item text = inl r).

(** Every record of [results] was loaded or was written, in shape and
    under its own identifier, by this run of the verify stage. *)
Definition verify_from_run (loaded results : gmap ident jobj) : Prop :=
  ∀ k r, results !! k = Some r → loaded !! k = Some r ∨ (oid r = k ∧ verify_shaped r).

(** One task of the verify stage's pool. *)
Definition verify_task (save_interval : Z) (outfile : path)
    (remote : jobj → nat → Backoff.attempt string) (item : jobj) : prog unit :=
  emit (EvDispatch (oid item));; Verify.worker save_interval outfile remote item.

(** A state of a batch stage in which [_save] succeeds: records sit
    under their identifiers and all have one. *)
Definition batch_ok (images : gset string) (w : world) : Prop :=
  keyed (w_results w) ∧ w_results w !! None = None ∧ fs_images (w_fs w) = images.

(** A provider that answers every request of a submission, once and in
    order, and does not fail. *)
Definition answers_all (provider : list ident → Batch.batch_reply) : Prop :=
  ∀ reqs, Batch.br_failure (provider reqs) = None
          ∧ Batch.custom_id <$> Batch.br_entries (provider reqs) = reqs.

(** [m] keeps [I], however it ends. *)
Definition preserves {A} (I : world → Prop) (m : prog A) : Prop :=
  ∀ w, I w → I (final_world (m w)).

(** Invariants that only look at [results] and at the existing images. *)
Definition stable (I : world → Prop) : Prop :=
  ∀ w w', w_results w' = w_results w → fs_images (w_fs w') = fs_images (w_fs w) → I w → I w'.

(** ** Stage 1.3: [step1.3_merge.py] *)

Module Merge.

(** [item[k] = v] for a key that the object has: the entry keeps its
    place. *)
Fixpoint set_field (k : string) (v : jval) (fields : list (string * jval))
    : list (string * jval) :=
  match fields with
  | [] => []
  | (k', v') :: rest =>
      if String.eqb k k' then (k', v) :: rest else (k', v') :: set_field k v rest
  end.

(** [json.load] of a file: a list of objects, or an exception. *)
Definition read_json (fs : filesys) (p : path) : option (list jobj) :=
  match fs_files fs !! p with
  | Some (JsonArray l) => Some l
  | _ => None
  end.

(** Lines 60-63: the map from identifier to translation. *)
Definition translations_map (translations_data : list jobj) : gmap ident jval :=
  foldl (λ m item,
           match assoc "translation" (ofields item) with
           | Some t => <[oid item := t]> m
           | None => m
           end) ∅ translations_data.

(** Lines 78-89, one iteration: the item afterwards.  (The three
    counters of the loop only feed the messages printed after it.) *)
Definition replace_item (translations_map : gmap ident jval) (item : jobj) : jobj :=
  match oid item with
  | Some _ =>
      match translations_map !! oid item with
      | Some t =>
          if has_key "explanation" item
          then JObj (oid item) (set_field "explanation" t (ofields item))
          else item
      | None => item
      end
  | None => item
  end.

(** [replace_explanations]: its result and the file system afterwards. *)
Definition replace_explanations
    (original_json_file translations_json_file output_json_file : path) (fs : filesys)
    : bool * filesys :=
  match read_json fs original_json_file with
  | None => (false, fs)
  | Some original_data =>
      match read_json fs translations_json_file with
      | None => (false, fs)
      | Some translations_data =>
          let result := map (replace_item (translations_map translations_data)) original_data in
          if bool_decide (pdir output_json_file ∈ fs_dirs fs)
          then (true, FS (fs_dirs fs)
                         (<[output_json_file := JsonArray result]> (fs_files fs))
                         (fs_images fs))
          else (false, fs)
      end
  end.

End Merge.

(** ** Stage 1.5: [step1.5_filter_correct.py] *)

Module Filter.

(** [str.upper()] on the ASCII letters. *)
Definition upper_char (c : ascii) : ascii :=
  let n := nat_of_ascii c in
  if ((97 <=? n)%nat && (n <=? 122)%nat) then ascii_of_nat (n - 32) else c.

Fixpoint upper (s : string) : string :=
  match s with
  | String c s' => String (upper_char c) (upper s')
  | EmptyString => EmptyString
  end.

(** [s.replace("\\", "/")] *)
Fixpoint backslash_to_slash (s : string) : string :=
  match s with
  | String c s' =>
      String (if Ascii.eqb c (ascii_of_nat 92) then ascii_of_nat 47 else c)
             (backslash_to_slash s')
  | EmptyString => EmptyString
  end.

(** The outcome of a run: it returns, or leaves through [sys.exit], or
    ends with an uncaught exception. *)
Inductive ending :=
  | Returned
  | Exit (code : Z)
  | Uncaught.

Section Stage.
(** [os.path.basename] and the extension [os.path.splitext(_)[1]]. *)
Variable basename : string → string.
Variable splitext_ext : string → string.
(** [str(l)] for a list [l]. *)
Variable repr_list : list string → string.

(** [str(item.get(k, ""))] *)
Definition str_get (k : string) (item : jobj) : string :=
  match assoc k (ofields item) with
  | Some (JStr s) => s
  | Some (JList l) => repr_list l
  | None => ""
  end.

(** Lines 63-71. *)
Definition correct_ids (puzzle_results : list jobj) : list Z :=
  omap (λ item,
          if has_key "answer" item && has_key "correct_answer" item
          then
            let prediction := upper (Text.strip (str_get "answer" item)) in
            let correct := upper (Text.strip (str_get "correct_answer" item)) in
            if String.eqb prediction correct then oid item else None
          else None) puzzle_results.

(** Line 78: [{original_id: new_id for new_id, original_id in
    enumerate(correct_ids)}], from the index [start] on. *)
Fixpoint id_mapping_from (start : nat) (correct_ids : list Z) (m : gmap Z nat) : gmap Z nat :=
  match correct_ids with
  | [] => m
  | original_id :: rest => id_mapping_from (S start) rest (<[original_id := start]> m)
  end.
Definition id_mapping (correct_ids : list Z) : gmap Z nat := id_mapping_from 0 correct_ids ∅.

(** Line 81: [{item.get("id"): item for item in merged_questions}]. *)
Definition id_to_question_map (merged_questions : list jobj) : gmap ident jobj :=
  foldl (λ m item, <[oid item := item]> m) ∅ merged_questions.

(** Lines 94-99: the new value of ["image"]. *)
Definition new_image (new_id : nat) (original_image_path_in_json : string) : string :=
  let image_filename_original := basename original_image_path_in_json in
  let new_image_filename :=
    String.append "image_"
      (String.append (pretty new_id) (splitext_ext image_filename_original)) in
  backslash_to_slash (String.append "images/" new_image_filename).

(** Lines 85-105, for one question: the item appended, or [None] when
    the image entry is a non-empty list, which [os.path.basename]
    rejects with a [TypeError]. *)
Definition new_question_item (question_item : jobj) (new_id : nat) : option jobj :=
  let renumbered fields := Some (JObj (Some (Z.of_nat new_id)) fields) in
  match assoc "image" (ofields question_item) with
  | Some (JStr s) =>
      if bool_decide (s = "") then renumbered (ofields question_item)
      else renumbered (Merge.set_field "image" (JStr (new_image new_id s))
                         (ofields question_item))
  | Some (JList (_ :: _)) => None
  | Some (JList []) | None => renumbered (ofields question_item)
  end.

(** Lines 83-105: the loop over [correct_ids]. *)
Fixpoint filter_loop (id_mapping : gmap Z nat) (id_to_question_map : gmap ident jobj)
    (rest : list Z) : option (list jobj) :=
  match rest with
  | [] => Some []
  | original_id :: rest' =>
      match id_to_question_map !! Some original_id with
      | Some question_item =>
          match new_question_item question_item (default 0%nat (id_mapping !! original_id)) with
          | Some new_question_item =>
              match filter_loop id_mapping id_to_question_map rest' with
              | Some filtered_questions => Some (new_question_item :: filtered_questions)
              | None => None
              end
          | None => None
          end
      | None => filter_loop id_mapping id_to_question_map rest'
      end
  end.

Definition filtered_questions (correct_ids : list Z) (merged_questions : list jobj)
    : option (list jobj) :=
  filter_loop (id_mapping correct_ids) (id_to_question_map merged_questions) correct_ids.

(** [filter_correct_predictions] with [copy_images=False] (the option
    [--no-images]): how the run ends and the file system afterwards. *)
Definition filter_correct_predictions
    (puzzle_results_path merged_questions_path : path) (output_dir : string) (fs : filesys)
    : ending * filesys :=
  let fs1 := FS ({[output_dir]} ∪ fs_dirs fs) (fs_files fs) (fs_images fs) in
  match Merge.read_json fs1 puzzle_results_path with
  | None => (Exit 1, fs1)
  | Some puzzle_results =>
      match Merge.read_json fs1 merged_questions_path with
      | None => (Exit 1, fs1)
      | Some merged_questions =>
          let ids := correct_ids puzzle_results in
          match ids with
          | [] => (Exit 0, fs1)
          | _ =>
              match filtered_questions ids merged_questions with
              | None => (Uncaught, fs1)
              | Some filtered =>
                  let output_json_path := Path output_dir "1.5_questions" ".json" in
                  (Returned,
                   FS (fs_dirs fs1) (<[output_json_path := JsonArray filtered]> (fs_files fs1))
                      (fs_images fs1))
              end
          end
      end
  end.

End Stage.
End Filter.

(** ** Stages 1.7 and 1.9: [step1.7_rule_extract.py], [step1.9_merge.py]

    These stages handle objects of any shape; an object is the list of
    its entries in insertion order, as a Python [dict] keeps them. *)

Module Seeds.

Inductive pyval :=
  | PyNone
  | PyInt (z : Z)
  | PyStr (s : string)
  | PyList (l : list string).

Global Instance pyval_eq_dec : EqDecision pyval.
Proof. solve_decision. Defined.

Abbreviation pydict := (list (string * pyval)).

(** [d.get(k)] *)
Fixpoint get (k : string) (d : pydict) : option pyval :=
  match d with
  | [] => None
  | (k', v) :: d' => if String.eqb k k' then Some v else get k d'
  end.

(** [d[k] = v]: an existing entry keeps its place, a new one goes last. *)
Fixpoint set (k : string) (v : pyval) (d : pydict) : pydict :=
  match d with
  | [] => [(k, v)]
  | (k', v') :: d' => if String.eqb k k' then (k', v) :: d' else (k', v') :: set k v d'
  end.

(** Stage 1.7, lines 45-48: the new item for one input item. *)
Definition rename_item (field_mapping : list (string * string)) (item : pydict) : pydict :=
  foldl (λ new_item '(old_field, new_field),
           match get old_field item with
           | Some v => set new_field v new_item
           | None => new_item
           end) [] field_mapping.

(** Stage 1.7, lines 42-49: the result for a JSON array. *)
Definition extract_and_rename (field_mapping : list (string * string)) (data : list pydict)
    : list pydict :=
  map (rename_item field_mapping) data.

(** A value that can be a [dict] key. *)
Definition hashable (v : pyval) : bool :=
  match v with PyList _ => false | _ => true end.

(** A [dict] whose keys are values: its entries in insertion order. *)
Abbreviation pymap := (list (pyval * pydict)).

Fixpoint map_get (k : pyval) (m : pymap) : option pydict :=
  match m with
  | [] => None
  | (k', d) :: m' => if decide (k = k') then Some d else map_get k m'
  end.

Fixpoint map_set (k : pyval) (d : pydict) (m : pymap) : pymap :=
  match m with
  | [] => [(k, d)]
  | (k', d') :: m' => if decide (k = k') then (k', d) :: m' else (k', d') :: map_set k d m'
  end.

(** Stage 1.9, line 46: [{item["id"]: item for item in source_data}];
    [None] when an item has no ["id"] ([KeyError]) or an unhashable
    one ([TypeError]). *)
Definition source_id_map (source_data : list pydict) : option pymap :=
  foldl (λ acc item,
           match acc, get "id" item with
           | Some m, Some k => if hashable k then Some (map_set k item m) else None
           | _, _ => None
           end) (Some []) source_data.

(** Stage 1.9, lines 51-62: the merged item for one reference item;
    [None] when its ["seed_id"] is unhashable. *)
Definition merge_item (source_id_map : pymap) (ref_item : pydict) : option pydict :=
  let ref_id := default PyNone (get "seed_id" ref_item) in
  if hashable ref_id then
    match map_get ref_id source_id_map with
    | Some (e :: source_item) =>
        let source_item := e :: source_item in
        Some (set "knowledge_point" (default (PyStr "") (get "knowledge_point" source_item))
                (set "question_type" (default (PyStr "") (get "question_type" source_item))
                   ref_item))
    | Some [] | None =>
        Some (set "knowledge_point" (PyStr "") (set "question_type" (PyStr "") ref_item))
    end
  else None.

(** Stage 1.9, lines 46-62: the merged list, or [None] when an
    exception ends the [try] block (nothing is written then). *)
Definition merge_json_data (reference_data source_data : list pydict) : option (list pydict) :=
  match source_id_map source_data with
  | Some m => mapM (merge_item m) reference_data
  | None => None
  end.

End Seeds.

(** ** Building the request content (stages 1.4, 1.6 and 1.8) *)

Module Content.

(** [s.split(sep)] for a non-empty [sep]: the parts between the
    occurrences of [sep], found from left to right. *)
Fixpoint split_fuel (fuel : nat) (sep s : string) : list string :=
  match fuel with
  | O => [s]
  | S fuel' =>
      match Text.cut sep s with
      | Some (before, rest) => before :: split_fuel fuel' sep rest
      | None => [s]
      end
  end.
Definition split (sep s : string) : list string := split_fuel (String.length s) sep s.

(** [a, b = parts]: a [ValueError] unless there are exactly two parts. *)
Definition unpack2 (parts : list string) : option (string * string) :=
  match parts with
  | [a; b] => Some (a, b)
  | _ => None
  end.

(** One block of the message content. *)
Inductive block :=
  | TextBlock (text : string)
  | ImageBlock (media_type data : string).

(** [LogicPuzzleSolver._build_prompt] (1.4, lines 133-146), from the
    rendered template on. *)
Definition _build_prompt (rendered_template img_b64 mime : string) : option (list block) :=
  match unpack2 (split "<!--SPLIT-->" rendered_template) with
  | Some (prefix, suffix) => Some [TextBlock prefix; ImageBlock mime img_b64; TextBlock suffix]
  | None => None
  end.

(** [BatchRegularityExtractor._build_content] (1.6, lines 103-125), from
    the rendered template on. *)
Definition _build_content_abstraction
    (md example_b64 example_mime puzzle_b64 puzzle_mime : string) : option (list block) :=
  match unpack2 (split "<!--EXAMPLE_SPLIT-->" md) with
  | Some (pre, rest) =>
      match unpack2 (split "<!--PUZZLE_SPLIT-->" rest) with
      | Some (mid, suf) =>
          Some [TextBlock pre; ImageBlock example_mime example_b64; TextBlock mid;
                ImageBlock puzzle_mime puzzle_b64; TextBlock suf]
      | None => None
      end
  | None => None
  end.

(** [PuzzleClassifier._build_content] (1.8, lines 99-107), from the
    rendered template on. *)
Definition _build_content_classification (md img_b64 mime : string) : option (list block) :=
  match unpack2 (split "<!--PUZZLE_SPLIT-->" md) with
  | Some (pre, suf) => Some [TextBlock pre; ImageBlock mime img_b64; TextBlock suf]
  | None => None
  end.

End Content.

(** ** Notions used in the further properties *)

(** The records of a checkpoint file, as far as [json.load] gives any. *)
Definition records_of (fs : filesys) (p : path) : list jobj :=
  match fs_files fs !! p with
  | Some (JsonArray recs) => recs
  | _ => []
  end.

(** The last record of a file that carries the identifier [k]. *)
Definition last_with_id (k : ident) (recs : list jobj) : option jobj :=
  last (filter (λ r, oid r = k) recs).

(** Every record of [loaded] is still in [results], unchanged. *)
Definition keeps (loaded : gmap ident jobj) (w : world) : Prop :=
  ∀ k r, loaded !! k = Some r → w_results w !! k = Some r.

(** Every record of [loaded] that counts as done for the rewrite stage
    is still in [results], unchanged. *)
Definition keeps_done (loaded : gmap ident jobj) (w : world) : Prop :=
  ∀ k r, loaded !! k = Some r → Rewrite.done r = true → w_results w !! k = Some r.

(** An invariant that storing a record under an integer identifier keeps. *)
Definition insert_closed (I : world → Prop) : Prop :=
  ∀ w z r, I w → oid r = Some z → I (set_results (λ results, <[Some z := r]> results) w).

(** The CheckpointSet holds a record without identifier and another one. *)
Definition has_null_record (w : world) : Prop :=
  (∃ r, w_results w !! None = Some r ∧ oid r = None) ∧ ∃ z, is_Some (w_results w !! Some z).

(** The translation that the last record of [translations_data] with the
    identifier [k] and a translation carries. *)
Definition last_translation (k : ident) (translations_data : list jobj) : option jval :=
  last (omap (λ r, if decide (oid r = k) then assoc "translation" (ofields r) else None)
             translations_data).

(** The last object of [source_data] whose ["id"] is [k]. *)
Definition last_source (k : Seeds.pyval) (source_data : list Seeds.pydict)
    : option Seeds.pydict :=
  last (filter (λ item, Seeds.get "id" item = Some k) source_data).

(** The text of the content: its text blocks, with [marker i] in place
    of the [i]-th image. *)
Fixpoint content_text (markers : list string) (blocks : list Content.block) : string :=
  match blocks with
  | [] => ""
  | Content.TextBlock t :: rest => String.append t (content_text markers rest)
  | Content.ImageBlock _ _ :: rest =>
      String.append (default "" (head markers)) (content_text (tail markers) rest)
  end.

(** * Properties *)


(** ** Facts about the text helpers *)

Module TextFacts.
Import Text.
Local Open Scope string_scope.

Lemma append_cons c (a b : string) : String c a ++ b = String c (a ++ b).
Proof. reflexivity. Qed.

Lemma append_nil (b : string) : EmptyString ++ b = b.
Proof. reflexivity. Qed.

Lemma strip_prefix_Some p s rest :
  strip_prefix p s = Some rest <-> s = p ++ rest.
Proof.
  revert s; induction p as [|a p IH]; intros s; simpl.
  - rewrite append_nil. split; [intros [= ->]; reflexivity | intros ->; reflexivity].
  - rewrite append_cons. destruct s as [|b s]; [split; discriminate|].
    destruct (Ascii.eqb_spec a b) as [->|Hne].
    + rewrite IH. split; [intros ->; reflexivity | intros [= ->]; reflexivity].
    + split; [discriminate | intros [= Hab _]; congruence].
Qed.

Lemma cut_Some sub s before rest :
  cut sub s = Some (before, rest) -> s = before ++ sub ++ rest.
Proof.
  revert before; induction s as [|c s IH]; intros before; simpl.
  - destruct (strip_prefix sub EmptyString) eqn:E; [|discriminate].
    intros [= <- <-]. apply strip_prefix_Some in E. exact E.
  - destruct (strip_prefix sub (String c s)) eqn:E.
    + intros [= <- <-]. apply strip_prefix_Some in E. exact E.
    + destruct (cut sub s) as [[b r]|] eqn:E2; [|discriminate].
      intros [= <- <-]. rewrite append_cons. f_equal. apply IH. reflexivity.
Qed.





End TextFacts.

(** ** Running programs *)

Lemma bind_Ret_inv {A B} (m : prog A) (f : A → prog B) w b w2 :
  (m ≫= f) w = Ret b w2 → ∃ a w1, m w = Ret a w1 ∧ f a w1 = Ret b w2.
Proof.
  unfold mbind, prog_bind. destruct (m w) as [a w1|e w1|w1]; try discriminate.
  intros H. exists a, w1. split; [reflexivity | exact H].
Qed.

Lemma bind_Ret {A B} (m : prog A) (f : A → prog B) w a w1 :
  m w = Ret a w1 → (m ≫= f) w = f a w1.
Proof. unfold mbind, prog_bind. intros ->. reflexivity. Qed.

Lemma bind_Raise {A B} (m : prog A) (f : A → prog B) w e w1 :
  m w = Raise e w1 → (m ≫= f) w = Raise e w1.
Proof. unfold mbind, prog_bind. intros ->. reflexivity. Qed.

Lemma bind_Blocked {A B} (m : prog A) (f : A → prog B) w w1 :
  m w = Blocked w1 → (m ≫= f) w = Blocked w1.
Proof. unfold mbind, prog_bind. intros ->. reflexivity. Qed.

Ltac prog_unfold :=
  unfold emit in *;
  unfold mbind, prog_bind, mret, prog_ret, get_world, modify, raise,
    try_except, with_lock in *.

(** A loop whose body always completes with a known state change. *)
Lemma for_each_modify {A} (l : list A) (body : A → prog unit) (f : A → world → world) w :
  (∀ x w', body x w' = Ret tt (f x w')) →
  for_each l body w = Ret tt (foldl (λ w' x, f x w') w l).
Proof.
  intros Hbody. revert w. induction l as [|x l IH]; intros w; simpl.
  - reflexivity.
  - erewrite bind_Ret by apply Hbody. apply IH.
Qed.

(** ** Checkpoint sets and their snapshots *)

Lemma keyed_empty : keyed ∅.
Proof. intros k r. rewrite lookup_empty. discriminate. Qed.

Lemma keyed_insert m r : keyed m → keyed (<[oid r := r]> m).
Proof.
  intros Hm k r'. rewrite lookup_insert. case_decide as E.
  - intros [= <-]. exact E.
  - apply Hm.
Qed.

Lemma keyed_insert_at m k r : keyed m → oid r = k → keyed (<[k := r]> m).
Proof. intros Hm <-. apply keyed_insert. exact Hm. Qed.

Lemma elem_of_values (m : gmap ident jobj) r :
  r ∈ (map_to_list m).*2 ↔ ∃ k, m !! k = Some r.
Proof.
  rewrite list_elem_of_fmap. split.
  - intros ([k r'] & -> & Hin). exists k. apply elem_of_map_to_list. exact Hin.
  - intros [k Hk]. exists (k, r). split; [reflexivity|]. apply elem_of_map_to_list. exact Hk.
Qed.

Lemma elem_of_valid_results m r :
  r ∈ valid_results m ↔ (∃ k, m !! k = Some r) ∧ is_Some (oid r).
Proof.
  unfold valid_results. rewrite list_elem_of_filter, elem_of_values. tauto.
Qed.

Lemma elem_of_snapshot_sorted m r :
  r ∈ snapshot_sorted m ↔ (∃ k, m !! k = Some r) ∧ is_Some (oid r).
Proof.
  unfold snapshot_sorted, sorted_by_id.
  rewrite merge_sort_Permutation. apply elem_of_valid_results.
Qed.

Lemma NoDup_oid_values m : keyed m → NoDup (oid <$> (map_to_list m).*2).
Proof.
  intros Hm.
  assert (E : oid <$> (map_to_list m).*2 = (map_to_list m).*1).
  { rewrite <- list_fmap_compose. apply list_fmap_ext.
    intros i [k r] Hin. simpl. apply Hm.
    apply elem_of_map_to_list. apply list_elem_of_lookup. eauto. }
  rewrite E. apply NoDup_fst_map_to_list.
Qed.

Lemma NoDup_fmap_filter {A B} (f : A → B) (P : A → Prop) `{∀ x, Decision (P x)} l :
  NoDup (f <$> l) → NoDup (f <$> filter P l).
Proof.
  induction l as [|x l IH]; simpl; [intros; constructor|].
  rewrite NoDup_cons. intros [Hx Hl].
  rewrite filter_cons. case_decide.
  - simpl. rewrite NoDup_cons. split; [|auto].
    intros Hin. apply Hx. apply list_elem_of_fmap in Hin as (y & -> & Hy).
    apply list_elem_of_fmap. exists y. split; [reflexivity|].
    apply list_elem_of_filter in Hy. tauto.
  - auto.
Qed.

Global Instance id_le_total : Total id_le.
Proof. intros r1 r2. unfold id_le. lia. Qed.
Global Instance id_le_trans : Transitive id_le.
Proof. intros r1 r2 r3. unfold id_le. lia. Qed.
Global Instance id_lt_trans : Transitive id_lt.
Proof. intros r1 r2 r3. unfold id_lt. lia. Qed.

(** A list sorted by [≤] whose identifiers are pairwise different and
    present is sorted strictly. *)
Lemma StronglySorted_le_lt l :
  StronglySorted id_le l → Forall (λ r, is_Some (oid r)) l → NoDup (oid <$> l) →
  StronglySorted id_lt l.
Proof.
  induction 1 as [|x l Hl IH Hx]; intros Hsome Hnd; [constructor|].
  simpl in Hnd. apply NoDup_cons in Hnd as [Hnotin Hnd].
  apply Forall_cons in Hsome as [[z Hz] Hsome].
  constructor; [auto|].
  rewrite Forall_forall in Hx, Hsome |- *. intros y Hy.
  specialize (Hx y Hy). destruct (Hsome y Hy) as [z' Hz'].
  assert (Hne : z ≠ z').
  { intros ->. apply Hnotin. rewrite Hz, <- Hz'.
    apply list_elem_of_fmap. eauto. }
  unfold id_le, sort_key in Hx. unfold id_lt, sort_key.
  rewrite Hz, Hz' in Hx. rewrite Hz, Hz'. simpl in *. lia.
Qed.


Lemma StronglySorted_lt_NoDup l : StronglySorted id_lt l → NoDup (sort_key <$> l).
Proof.
  induction 1 as [|x l Hl IH Hx]; simpl; constructor; [|assumption].
  intros Hin. apply list_elem_of_fmap in Hin as (y & Hy & Hin).
  rewrite Forall_forall in Hx. specialize (Hx y Hin). unfold id_lt in Hx. lia.
Qed.


Lemma snapshot_sorted_Forall m : Forall (λ r, is_Some (oid r)) (snapshot_sorted m).
Proof.
  rewrite Forall_forall. intros r Hr. apply elem_of_snapshot_sorted in Hr. tauto.
Qed.

(** The snapshot is strictly ascending: one record per identifier. *)
Lemma snapshot_sorted_strict m : keyed m → StronglySorted id_lt (snapshot_sorted m).
Proof.
  intros Hm. apply StronglySorted_le_lt.
  - unfold snapshot_sorted, sorted_by_id. apply StronglySorted_merge_sort; apply _.
  - apply snapshot_sorted_Forall.
  - unfold snapshot_sorted, sorted_by_id.
    rewrite merge_sort_Permutation. unfold valid_results.
    apply NoDup_fmap_filter, NoDup_oid_values, Hm.
Qed.

Lemma filter_Forall_id {A} (P : A → Prop) `{∀ x, Decision (P x)} (l : list A) :
  Forall P l → filter P l = l.
Proof.
  induction 1 as [|x l Hx Hl IH]; [reflexivity|].
  rewrite filter_cons_True by exact Hx. f_equal. exact IH.
Qed.


(** Without a [None] key, nothing is filtered out of the values. *)
Lemma valid_results_all m :
  keyed m → m !! None = None → valid_results m = (map_to_list m).*2.
Proof.
  intros Hm Hnone. unfold valid_results.
  apply filter_Forall_id. rewrite Forall_forall. intros r Hr.
  apply elem_of_values in Hr as [k Hk].
  rewrite (Hm k r Hk). destruct k; [eauto | congruence].
Qed.

(** ** What one save does *)

Lemma verify_save_run outfile w :
  w_lock w = false →
  Verify._save outfile w =
    Ret tt (add_event (EvSaved outfile (length (snapshot_sorted (w_results w))))
             (set_fs (λ fs, FS ({[pdir outfile]} ∪ fs_dirs fs)
                               (<[outfile := JsonArray (snapshot_sorted (w_results w))]> (fs_files fs))
                               (fs_images fs)) w)).
Proof.
  intros Hl. destruct w as [res c lk fs lg]. simpl in Hl. subst lk.
  unfold Verify._save. prog_unfold. unfold mkdir_parent, write_json. prog_unfold. simpl.
  rewrite bool_decide_eq_true_2 by set_solver.
  reflexivity.
Qed.

Lemma rewrite_save_run output w :
  w_lock w = false →
  Rewrite.save_intermediate_results_local output w =
    if bool_decide (pdir output ∈ fs_dirs (w_fs w))
    then Ret tt (set_counter 0
                  (add_event (EvSaved (Rewrite.intermediate_output_file output)
                                      (length (snapshot_sorted (w_results w))))
                    (set_fs (λ fs, FS (fs_dirs fs)
                               (<[Rewrite.intermediate_output_file output :=
                                    JsonArray (snapshot_sorted (w_results w))]> (fs_files fs))
                               (fs_images fs)) w)))
    else Ret tt (add_event EvSaveError w).
Proof.
  intros Hl. destruct w as [res c lk fs lg]. simpl in Hl. subst lk.
  unfold Rewrite.save_intermediate_results_local. prog_unfold.
  unfold write_json. simpl.
  destruct (bool_decide (pdir output ∈ fs_dirs fs)); reflexivity.
Qed.

(** A save requested while the lock is held never gets it. *)
Lemma rewrite_save_blocks output w :
  w_lock w = true →
  Rewrite.save_intermediate_results_local output w = Blocked w.
Proof.
  intros Hl. unfold Rewrite.save_intermediate_results_local. prog_unfold.
  rewrite Hl. reflexivity.
Qed.

Lemma batch_save_run out_path w :
  keyed (w_results w) → w_results w !! None = None →
  Batch._save out_path w =
    Ret tt (add_event (EvSaved out_path (size (w_results w)))
             (set_fs (λ fs, FS ({[pdir out_path]} ∪ fs_dirs fs)
                               (<[out_path := JsonArray (snapshot_sorted (w_results w))]> (fs_files fs))
                               (fs_images fs)) w)).
Proof.
  intros Hk Hnone. destruct w as [res c lk fs lg]. simpl in *.
  unfold Batch._save. prog_unfold. unfold mkdir_parent, write_json. prog_unfold. simpl.
  assert (Hall : forallb (λ r, bool_decide (is_Some (oid r))) (map_to_list res).*2 = true).
  { apply forallb_forall. intros r Hr. apply bool_decide_eq_true_2.
    apply list_elem_of_In, elem_of_values in Hr as [k Hk'].
    rewrite (Hk k r Hk'). destruct k; [eauto | congruence]. }
  rewrite Hall, andb_false_r.
  rewrite bool_decide_eq_true_2 by set_solver.
  unfold snapshot_sorted. rewrite valid_results_all by assumption.
  reflexivity.
Qed.

(** ** The planner (C1) *)

Lemma already_done_resolved ckpt id :
  Rewrite.already_done ckpt id = true ↔ Spec.maps_to_resolved Spec.rewrite_keys ckpt id.
Proof.
  unfold Rewrite.already_done, Spec.maps_to_resolved, Spec.resolved, Rewrite.done,
    Spec.rewrite_keys. simpl.
  destruct (ckpt !! id) as [r|].
  - split.
    + intros H. exists r. split; [reflexivity|].
      destruct (has_key "translation" r); [reflexivity | exact H].
    + intros (r' & Hr & H). injection Hr as <-.
      destruct (has_key "translation" r); [reflexivity | exact H].
  - split; [discriminate | intros (r' & H & _); discriminate].
Qed.

(** C1 fails in the verify stage: a loaded record that carries neither a
    success nor a failure payload keeps its item out of the work list. *)
Lemma C1_counterexample :
  let item := JObj (Some 7) [("image", JStr "img/7.png")] in
  let outfile := Path "out" "1.4_verify" ".json" in
  let fs := FS {["out"]} {[outfile := JsonArray [JObj (Some 7) []]]} ∅ in
  let loaded := w_results (final_world (Verify._load outfile (init_world fs))) in
  Spec.pending Spec.verify_keys [item] loaded = [item]
  ∧ Verify.items_to_process [item] loaded = [].
Proof. vm_compute. split; reflexivity. Qed.

(** C1, amended: the rewrite stage schedules exactly the items, in input
    order, whose identifier does not map to a record with a translation
    or an error; the verify and batch stages schedule exactly the items,
    in input order, whose identifier has no record at all; both agree
    once every loaded record carries a success or failure payload. *)
Theorem C1_pending_subset (data : list jobj) (ckpt : gmap ident jobj) :
  Rewrite.items_to_process data ckpt = Spec.pending Spec.rewrite_keys data ckpt
  ∧ Verify.items_to_process data ckpt = filter (λ d, ckpt !! oid d = None) data
  ∧ Batch.todo_of data ckpt = filter (λ d, ckpt !! oid d = None) data
  ∧ ((∀ k r, ckpt !! k = Some r → Spec.resolved Spec.verify_keys r = true) →
     Verify.items_to_process data ckpt = Spec.pending Spec.verify_keys data ckpt).
Proof.
  repeat split.
  - unfold Rewrite.items_to_process, Spec.pending. apply list_filter_iff.
    intros item. rewrite <- already_done_resolved.
    destruct (Rewrite.already_done ckpt (oid item)); simpl; split; auto; try tauto.
  - unfold Verify.items_to_process. apply list_filter_iff.
    intros d. apply not_elem_of_dom.
  - unfold Batch.todo_of. apply list_filter_iff.
    intros d. apply not_elem_of_dom.
  - intros Hres. unfold Verify.items_to_process, Spec.pending. apply list_filter_iff.
    intros d. rewrite not_elem_of_dom. unfold Spec.maps_to_resolved. split.
    + intros Hnone (r & Hr & _). congruence.
    + intros Hno. destruct (ckpt !! oid d) as [r|] eqn:E; [|reflexivity].
      exfalso. apply Hno. exists r. split; [reflexivity|]. eapply Hres. exact E.
Qed.

Lemma C1_pending_subset_witness :
  let item := JObj (Some 7) [("image", JStr "img/7.png")] in
  let ckpt : gmap ident jobj := {[Some 7 := JObj (Some 7) [("error", JStr "boom")]]} in
  Verify.items_to_process [item; JObj (Some 8) []] ckpt
  = Spec.pending Spec.verify_keys [item; JObj (Some 8) []] ckpt.
Proof.
  intros item ckpt.
  apply (C1_pending_subset [item; JObj (Some 8) []] ckpt).
  intros k r. subst ckpt. rewrite lookup_singleton.
  case_decide; [intros [= <-]; reflexivity | discriminate].
Defined.

(** ** The constructors of the batch stages (C10) *)


(** ** Saving (C8) *)




(** ** Parsing the response (C7) *)







(** ** The retry loop (C5) *)

Section RetryFacts.
Import Backoff.
Context {A : Type}.
Variable max_tries : nat.
Variable base : Z.
Variable max_time : Q.
Variable giveup : exn → bool.
Variable jitter : Q → Q → Q.
Variable target : nat → attempt A.

Local Abbreviation retry := (Backoff.retry max_tries base max_time giveup jitter target).

Lemma retry_S fuel tries elapsed :
  retry (S fuel) tries elapsed =
    match att_result (target (S tries)) with
    | inl r => Run (Returned r) [elapsed] []
    | inr e =>
        if giveup e || (S tries =? max_tries)%nat || Qle_bool max_time elapsed
        then Run (GaveUp e) [elapsed] []
        else
          let seconds := Qmin (jitter (expo base (S tries - 1)) (att_random (target (S tries))))
                              (max_time - elapsed)%Q in
          let rest := retry fuel (S tries) (elapsed + att_latency (target (S tries)) + seconds)%Q in
          Run (r_verdict rest) (elapsed :: r_starts rest) (seconds :: r_sleeps rest)
    end.
Proof. reflexivity. Qed.


(** With fuel for the tries that are left, the loop ends by a return
    or by giving up, and its verdict is that of its last call. *)
Lemma retry_last fuel tries elapsed :
  (tries + fuel = max_tries)%nat → (1 ≤ fuel)%nat →
  let r := retry fuel tries elapsed in
  match att_result (target (tries + length (r_starts r))) with
  | inl a => r_verdict r = Returned a
  | inr e => r_verdict r = GaveUp e
  end.
Proof.
  revert tries elapsed. induction fuel as [|fuel IH]; intros tries elapsed Hsum Hf; [lia|].
  cbv zeta. rewrite retry_S.
  destruct (att_result (target (S tries))) as [a|e] eqn:Ea.
  - cbn [r_starts r_verdict length].
    replace (tries + 1)%nat with (S tries) by lia. rewrite Ea. reflexivity.
  - destruct (giveup e || (S tries =? max_tries)%nat || Qle_bool max_time elapsed) eqn:Eg.
    + cbn [r_starts r_verdict length].
      replace (tries + 1)%nat with (S tries) by lia. rewrite Ea. reflexivity.
    + apply orb_false_elim in Eg as [Eg _]. apply orb_false_elim in Eg as [_ Eg].
      apply Nat.eqb_neq in Eg.
      cbv zeta. cbn [r_starts r_verdict length].
      match goal with |- context [retry fuel ?t ?q] =>
        specialize (IH t q ltac:(lia) ltac:(lia)); cbv zeta in IH;
        replace (tries + S (length (r_starts (retry fuel t q))))%nat
          with (t + length (r_starts (retry fuel t q)))%nat by lia
      end.
      exact IH.
Qed.


Local Abbreviation on_exception :=
  (Backoff.on_exception max_tries base max_time giveup jitter target).


Lemma on_exception_last :
  (1 ≤ max_tries)%nat →
  match att_result (target (tries_of on_exception)) with
  | inl a => r_verdict on_exception = Returned a
  | inr e => r_verdict on_exception = GaveUp e
  end.
Proof.
  intros H. unfold tries_of, Backoff.on_exception.
  exact (retry_last max_tries 0 0%Q eq_refl H).
Qed.



End RetryFacts.





(** ** The rewrite stage, step by step *)

Lemma add_events_foldl (evs : list event) w :
  for_each evs emit w = Ret tt (foldl (λ w' e, add_event e w') w evs).
Proof. apply for_each_modify. reflexivity. Qed.

Lemma foldl_add_event_results evs w :
  w_results (foldl (λ w' e, add_event e w') w evs) = w_results w.
Proof. revert w. induction evs as [|e evs IH]; intros w; simpl; [reflexivity|]. rewrite IH. reflexivity. Qed.

Lemma foldl_add_event_lock evs w :
  w_lock (foldl (λ w' e, add_event e w') w evs) = w_lock w.
Proof. revert w. induction evs as [|e evs IH]; intros w; simpl; [reflexivity|]. rewrite IH. reflexivity. Qed.

Lemma foldl_add_event_fs evs w :
  w_fs (foldl (λ w' e, add_event e w') w evs) = w_fs w.
Proof. revert w. induction evs as [|e evs IH]; intros w; simpl; [reflexivity|]. rewrite IH. reflexivity. Qed.

Lemma foldl_add_event_counter evs w :
  w_counter (foldl (λ w' e, add_event e w') w evs) = w_counter w.
Proof. revert w. induction evs as [|e evs IH]; intros w; simpl; [reflexivity|]. rewrite IH. reflexivity. Qed.

Lemma foldl_add_event_log evs w :
  w_log (foldl (λ w' e, add_event e w') w evs) = (w_log w ++ evs)%list.
Proof.
  revert w. induction evs as [|e evs IH]; intros w; simpl.
  - rewrite app_nil_r. reflexivity.
  - rewrite IH. simpl. rewrite <- app_assoc. reflexivity.
Qed.

Section RewriteFacts.
Variable save_interval : Z.
Variable output : path.
Variable remote : jobj → nat → Backoff.attempt string.
Variable schedule : list jobj → list jobj.

Local Abbreviation record_result := (Rewrite.record_result save_interval output).
Local Abbreviation translate_item_process :=
  (Rewrite.translate_item_process save_interval output remote).
Local Abbreviation pool_task := (pool_task save_interval output remote).

(** Below the threshold the update completes; from the threshold on,
    the save it calls waits for the lock the update itself holds. *)
Lemma record_result_run item_id result w :
  w_lock w = false →
  record_result item_id result w =
    if bool_decide (save_interval ≤ w_counter w + 1)
    then Blocked (set_lock true (stored item_id result w))
    else Ret tt (stored item_id result w).
Proof.
  intros Hl. destruct w as [res c lk fs lg]. simpl in Hl. subst lk.
  unfold Rewrite.record_result. prog_unfold. simpl.
  destruct (bool_decide (save_interval ≤ c + 1)); [|reflexivity].
  rewrite rewrite_save_blocks by reflexivity. reflexivity.
Qed.

Lemma translate_item_process_run item w :
  w_lock w = false →
  translate_item_process item w =
    if Rewrite.already_done (w_results w) (oid item)
    then Ret (default (JObj (oid item) []) (w_results w !! oid item)) w
    else
      let '(result, evs) := rewrite_outcome remote item in
      let w1 := foldl (λ w' e, add_event e w') w evs in
      if bool_decide (save_interval ≤ w_counter w + 1)
      then Blocked (set_lock true (stored (oid item) result w1))
      else Ret result (stored (oid item) result w1).
Proof.
  intros Hl. unfold Rewrite.translate_item_process, rewrite_outcome.
  prog_unfold. cbn beta.
  destruct (Rewrite.already_done (w_results w) (oid item)); [reflexivity|].
  destruct (Backoff.r_verdict (Rewrite.translate_with_retry (remote item))) as [text|e|];
    cbn beta iota.
  - destruct (Rewrite.parse_translation text) as [[translation warn]|e]; cbn beta iota.
    + destruct warn; cbn beta iota;
        rewrite record_result_run by exact Hl; cbn [foldl w_counter add_event];
        destruct (bool_decide (save_interval ≤ w_counter w + 1)); reflexivity.
    + rewrite record_result_run by exact Hl; cbn [foldl w_counter add_event].
      destruct (bool_decide (save_interval ≤ w_counter w + 1)); reflexivity.
  - rewrite record_result_run by exact Hl; cbn [foldl w_counter add_event].
    destruct (bool_decide (save_interval ≤ w_counter w + 1)); reflexivity.
  - rewrite record_result_run by exact Hl; cbn [foldl w_counter add_event].
    destruct (bool_decide (save_interval ≤ w_counter w + 1)); reflexivity.
Qed.

Lemma shaped_done r : shaped r → Rewrite.done r = true.
Proof.
  unfold Rewrite.done, has_key. intros [[t Ht]|[e He]].
  - rewrite Ht. reflexivity.
  - rewrite He. reflexivity.
Qed.

Lemma rewrite_outcome_shaped item :
  oid (rewrite_outcome remote item).1 = oid item ∧ shaped (rewrite_outcome remote item).1.
Proof.
  unfold rewrite_outcome, shaped.
  destruct (Backoff.r_verdict (Rewrite.translate_with_retry (remote item))) as [text|e|];
    simpl; eauto.
  destruct (Rewrite.parse_translation text) as [[translation warn]|e]; simpl; eauto.
Qed.

Lemma pool_task_run item w :
  w_lock w = false →
  pool_task item w =
    let w0 := add_event (EvDispatch (oid item)) w in
    if Rewrite.already_done (w_results w) (oid item) then Ret tt w0
    else
      let w1 := foldl (λ w' e, add_event e w') w0 (rewrite_outcome remote item).2 in
      if bool_decide (save_interval ≤ w_counter w + 1)
      then Blocked (set_lock true (stored (oid item) (rewrite_outcome remote item).1 w1))
      else Ret tt (stored (oid item) (rewrite_outcome remote item).1 w1).
Proof.
  intros Hl. unfold pool_task.
  unfold mbind at 1, prog_bind at 1, emit at 1, modify at 1.
  unfold mbind, prog_bind.
  rewrite translate_item_process_run by exact Hl.
  cbn [w_results add_event w_counter].
  destruct (Rewrite.already_done (w_results w) (oid item)); [reflexivity|].
  destruct (rewrite_outcome remote item) as [result evs]. cbn [fst snd].
  destruct (bool_decide (save_interval ≤ w_counter w + 1)); reflexivity.
Qed.

Lemma already_done_insert results k r k' :
  Rewrite.done r = true →
  Rewrite.already_done results k' = true →
  Rewrite.already_done (<[k := r]> results) k' = true.
Proof.
  intros Hr. unfold Rewrite.already_done. rewrite lookup_insert.
  case_decide; [intros _; exact Hr | auto].
Qed.

Lemma pool_task_post loaded item w w' :
  w_lock w = false → from_run loaded (w_results w) →
  pool_task item w = Ret tt w' →
  w_lock w' = false ∧ from_run loaded (w_results w') ∧ w_fs w' = w_fs w
  ∧ (∀ k, Rewrite.already_done (w_results w) k = true →
          Rewrite.already_done (w_results w') k = true)
  ∧ Rewrite.already_done (w_results w') (oid item) = true.
Proof.
  intros Hl Hfrom. rewrite pool_task_run by exact Hl. cbv zeta.
  generalize (rewrite_outcome_shaped item).
  generalize (rewrite_outcome remote item). intros [result evs] [Hid Hsh].
  cbn [fst snd] in *.
  destruct (Rewrite.already_done (w_results w) (oid item)) eqn:Edone.
  - intros Hw. injection Hw as <-. cbn [w_lock w_results w_fs add_event].
    repeat split; auto.
  - destruct (bool_decide (save_interval ≤ w_counter w + 1)); [discriminate|].
    intros Hw. injection Hw as <-.
    unfold stored. cbn [w_lock w_results w_fs set_counter set_results].
    rewrite foldl_add_event_lock, foldl_add_event_results, foldl_add_event_fs.
    cbn [w_lock w_results w_fs add_event].
    split; [exact Hl|]. split; [|split; [reflexivity|split]].
    + intros k r. rewrite lookup_insert. case_decide as E.
      * intros Hr. injection Hr as <-. right. subst k. split; auto.
      * apply Hfrom.
    + intros k. apply already_done_insert, shaped_done, Hsh.
    + unfold Rewrite.already_done. rewrite lookup_insert_eq. apply shaped_done, Hsh.
Qed.

Lemma pool_post loaded items w w' :
  w_lock w = false → from_run loaded (w_results w) →
  for_each items pool_task w = Ret tt w' →
  w_lock w' = false ∧ from_run loaded (w_results w') ∧ w_fs w' = w_fs w
  ∧ (∀ k, Rewrite.already_done (w_results w) k = true →
          Rewrite.already_done (w_results w') k = true)
  ∧ (∀ item, item ∈ items → Rewrite.already_done (w_results w') (oid item) = true).
Proof.
  revert w. induction items as [|item items IH]; intros w Hl Hfrom; simpl.
  - intros [= <-]. repeat split; auto. intros item Hin. inversion Hin.
  - intros Hrun. apply bind_Ret_inv in Hrun as ([] & w1 & Htask & Hrest).
    destruct (pool_task_post loaded item w w1 Hl Hfrom Htask)
      as (Hl1 & Hfrom1 & Hfs1 & Hmono1 & Hdone1).
    destruct (IH w1 Hl1 Hfrom1 Hrest) as (Hl' & Hfrom' & Hfs' & Hmono' & Hdone').
    repeat split; auto.
    + congruence.
    + intros item' Hin. apply elem_of_cons in Hin as [->|Hin]; auto.
Qed.

(** A task never raises: what it catches it turns into a record. *)
Lemma pool_task_lock item w w' :
  w_lock w = false → pool_task item w = Ret tt w' → w_lock w' = false.
Proof.
  intros Hl. rewrite pool_task_run by exact Hl. cbv zeta.
  generalize (rewrite_outcome remote item). intros [result evs]. cbn [fst snd].
  destruct (Rewrite.already_done (w_results w) (oid item)).
  - intros Hw. injection Hw as <-. exact Hl.
  - destruct (bool_decide (save_interval ≤ w_counter w + 1)); [discriminate|].
    intros Hw. injection Hw as <-. unfold stored. cbn [w_lock set_counter set_results].
    rewrite foldl_add_event_lock. exact Hl.
Qed.

(** A task never raises: what it catches it turns into a record. *)
Lemma pool_task_no_raise item w e w' :
  w_lock w = false → pool_task item w ≠ Raise e w'.
Proof.
  intros Hl. rewrite pool_task_run by exact Hl. cbv zeta.
  generalize (rewrite_outcome remote item). intros [result evs]. cbn [fst snd].
  destruct (Rewrite.already_done (w_results w) (oid item)); [discriminate|].
  destruct (bool_decide (save_interval ≤ w_counter w + 1)); discriminate.
Qed.

Lemma pool_no_raise items w e w' :
  w_lock w = false → for_each items pool_task w ≠ Raise e w'.
Proof.
  revert w. induction items as [|item items IH]; intros w Hl; simpl; [discriminate|].
  unfold mbind, prog_bind.
  destruct (pool_task item w) as [[] w1|e1 w1|w1] eqn:Htask; [| |discriminate].
  - apply IH. eapply pool_task_lock; eassumption.
  - exfalso. eapply pool_task_no_raise; eassumption.
Qed.

(** With fewer tasks than the save interval allows, the pool completes. *)
Lemma pool_completes items w :
  w_lock w = false → w_counter w + Z.of_nat (length items) < save_interval →
  ∃ w', for_each items pool_task w = Ret tt w'.
Proof.
  revert w. induction items as [|item items IH]; intros w Hl Hc; simpl; [eauto|].
  unfold mbind, prog_bind. rewrite pool_task_run by exact Hl. cbv zeta.
  generalize (rewrite_outcome remote item). intros [result evs]. cbn [fst snd].
  simpl length in Hc.
  destruct (Rewrite.already_done (w_results w) (oid item)).
  - apply IH; cbn [w_lock w_counter add_event]; [exact Hl | lia].
  - rewrite bool_decide_eq_false_2 by lia.
    apply IH; unfold stored; cbn [w_lock w_counter set_counter set_results].
    + rewrite foldl_add_event_lock. exact Hl.
    + rewrite foldl_add_event_counter. cbn [w_counter add_event]. lia.
Qed.

End RewriteFacts.

(** ** Loading *)

Lemma set_results_compose f g w :
  set_results f (set_results g w) = set_results (λ m, f (g m)) w.
Proof. destruct w; reflexivity. Qed.

Lemma set_results_id w : set_results (λ m, m) w = w.
Proof. destruct w; reflexivity. Qed.

Lemma load_loop_skipping recs w :
  for_each recs (λ rec,
    match oid rec with
    | Some _ => modify (set_results (λ results, <[oid rec := rec]> results))
    | None => mret tt
    end) w
  = Ret tt (set_results (load_records true recs) w).
Proof.
  revert w. induction recs as [|rec recs IH]; intros w; simpl.
  - rewrite set_results_id. reflexivity.
  - unfold mbind, prog_bind. destruct (oid rec) as [z|] eqn:E.
    + unfold modify at 1. rewrite IH, set_results_compose.
      unfold load_records. simpl. rewrite E. reflexivity.
    + unfold mret at 1, prog_ret at 1. rewrite IH.
      unfold load_records. simpl. rewrite E. reflexivity.
Qed.

Lemma load_loop_all recs w :
  for_each recs (λ rec, modify (set_results (λ results, <[oid rec := rec]> results))) w
  = Ret tt (set_results (load_records false recs) w).
Proof.
  revert w. induction recs as [|rec recs IH]; intros w; simpl.
  - rewrite set_results_id. reflexivity.
  - unfold mbind, prog_bind. unfold modify at 1. rewrite IH, set_results_compose.
    reflexivity.
Qed.

Lemma rewrite_load_run output w :
  Rewrite.load_existing output w
  = Ret tt (after_load true false (Rewrite.intermediate_output_file output) w).
Proof.
  unfold Rewrite.load_existing, after_load.
  unfold mbind at 1, prog_bind at 1, get_world at 1.
  destruct (fs_files (w_fs w) !! Rewrite.intermediate_output_file output) as [[recs| |]|];
    try reflexivity.
  unfold mbind, prog_bind. rewrite load_loop_skipping. reflexivity.
Qed.

Lemma verify_load_run outfile w :
  Verify._load outfile w = Ret tt (after_load true true outfile w).
Proof.
  unfold Verify._load, after_load.
  unfold mbind at 1, prog_bind at 1, get_world at 1.
  destruct (fs_files (w_fs w) !! outfile) as [[recs| |]|]; try reflexivity.
  unfold mbind, prog_bind. rewrite load_loop_skipping. reflexivity.
Qed.

Lemma batch_load_run out_path w :
  Batch._load out_path w = Ret tt (after_load false true out_path w).
Proof.
  unfold Batch._load, after_load.
  unfold mbind at 1, prog_bind at 1, get_world at 1.
  destruct (fs_files (w_fs w) !! out_path) as [[recs| |]|]; try reflexivity.
  unfold mbind, prog_bind. rewrite load_loop_all. reflexivity.
Qed.

Lemma after_load_fs b s p w : w_fs (after_load b s p w) = w_fs w.
Proof.
  unfold after_load.
  destruct (fs_files (w_fs w) !! p) as [[recs| |]|]; destruct s; destruct w; reflexivity.
Qed.

Lemma after_load_lock b s p w : w_lock (after_load b s p w) = w_lock w.
Proof.
  unfold after_load.
  destruct (fs_files (w_fs w) !! p) as [[recs| |]|]; destruct s; destruct w; reflexivity.
Qed.

Lemma after_load_counter b s p w : w_counter (after_load b s p w) = w_counter w.
Proof.
  unfold after_load.
  destruct (fs_files (w_fs w) !! p) as [[recs| |]|]; destruct s; destruct w; reflexivity.
Qed.

Lemma after_load_results b s p w :
  w_results (after_load b s p w)
  = match fs_files (w_fs w) !! p with
    | Some (JsonArray recs) => load_records b recs (w_results w)
    | _ => w_results w
    end.
Proof.
  unfold after_load.
  destruct (fs_files (w_fs w) !! p) as [[recs| |]|]; destruct s; destruct w; reflexivity.
Qed.

Lemma keyed_load_records b recs m : keyed m → keyed (load_records b recs m).
Proof.
  revert m. induction recs as [|rec recs IH]; intros m Hm; [exact Hm|].
  unfold load_records. simpl. apply IH.
  destruct (b && negb (bool_decide (is_Some (oid rec)))); [exact Hm|].
  apply keyed_insert, Hm.
Qed.

Lemma keyed_after_load b s p w : keyed (w_results w) → keyed (w_results (after_load b s p w)).
Proof.
  intros Hk. rewrite after_load_results.
  destruct (fs_files (w_fs w) !! p) as [[recs| |]|]; try exact Hk.
  apply keyed_load_records, Hk.
Qed.

(** ** The rewrite stage, whole runs *)

Lemma rewrite_finalize_run output w :
  Rewrite.finalize output w =
    Ret tt
      (match fs_files (w_fs w) !! Rewrite.intermediate_output_file output with
       | Some c =>
           if bool_decide (pdir output ∈ fs_dirs (w_fs w))
           then add_event EvFinalized
                  (set_fs (λ fs, FS (fs_dirs fs)
                             (<[output := c]> (delete (Rewrite.intermediate_output_file output)
                                                 (fs_files fs)))
                             (fs_images fs)) w)
           else add_event EvFinalizeError w
       | None => add_event EvFinalizeError w
       end).
Proof.
  unfold Rewrite.finalize, rename. prog_unfold.
  destruct (fs_files (w_fs w) !! Rewrite.intermediate_output_file output) as [c|];
    [|reflexivity].
  destruct (bool_decide (pdir output ∈ fs_dirs (w_fs w))); reflexivity.
Qed.

Lemma rewrite_finalize_results output w w' :
  Rewrite.finalize output w = Ret tt w' → w_results w' = w_results w.
Proof.
  rewrite rewrite_finalize_run. intros [= <-].
  destruct (fs_files (w_fs w) !! Rewrite.intermediate_output_file output) as [c|];
    [|reflexivity].
  destruct (bool_decide (pdir output ∈ fs_dirs (w_fs w))); reflexivity.
Qed.

Lemma rewrite_save_results output w w' :
  w_lock w = false →
  Rewrite.save_intermediate_results_local output w = Ret tt w' →
  w_results w' = w_results w ∧ w_lock w' = false.
Proof.
  intros Hl. rewrite rewrite_save_run by exact Hl.
  destruct (bool_decide (pdir output ∈ fs_dirs (w_fs w))); intros [= <-];
    split; try reflexivity; exact Hl.
Qed.

Section RewriteRuns.
Variable save_interval : Z.
Variable output : path.
Variable remote : jobj → nat → Backoff.attempt string.
Variable schedule : list jobj → list jobj.

Local Abbreviation main := (Rewrite.main save_interval output remote schedule).
Local Abbreviation pool_task := (pool_task save_interval output remote).
Local Abbreviation dispatch := (dispatch save_interval output remote schedule).

Lemma main_unfold data w :
  main data w =
    (let w1 := after_load true false (Rewrite.intermediate_output_file output) w in
     (dispatch (Rewrite.items_to_process data (w_results w1));;
      Rewrite.save_intermediate_results_local output;;
      Rewrite.finalize output) w1).
Proof.
  unfold Rewrite.main. unfold mbind at 1, prog_bind at 1.
  rewrite rewrite_load_run. cbv zeta.
  unfold mbind at 1, prog_bind at 1, get_world at 1.
  unfold dispatch. destruct (Rewrite.items_to_process data _); reflexivity.
Qed.

(** At a normal end every scheduled item has a record, under its own
    identifier, that this run wrote: a translation or an error. *)
Lemma rewrite_main_records data fs w' item :
  (∀ l, schedule l ≡ₚ l) →
  main data (init_world fs) = Ret tt w' →
  let loaded := w_results (after_load true false (Rewrite.intermediate_output_file output)
                             (init_world fs)) in
  item ∈ Rewrite.items_to_process data loaded →
  ∃ r, w_results w' !! oid item = Some r ∧ oid r = oid item ∧ shaped r.
Proof.
  intros Hsched Hrun loaded Hin. rewrite main_unfold in Hrun. cbv zeta in Hrun.
  fold loaded in Hrun.
  set (w1 := after_load true false (Rewrite.intermediate_output_file output) (init_world fs))
    in *.
  apply bind_Ret_inv in Hrun as ([] & w2 & Hdisp & Hrun).
  apply bind_Ret_inv in Hrun as ([] & w3 & Hsave & Hfin).
  assert (Hl1 : w_lock w1 = false) by (unfold w1; rewrite after_load_lock; reflexivity).
  assert (Hfrom1 : from_run loaded (w_results w1)) by (intros k r Hk; left; exact Hk).
  unfold dispatch in Hdisp.
  destruct (Rewrite.items_to_process data loaded) as [|x todo] eqn:Etodo;
    [inversion Hin|].
  destruct (pool_post save_interval output remote loaded _ _ _ Hl1 Hfrom1 Hdisp)
    as (Hl2 & Hfrom2 & _ & _ & Hdone).
  specialize (Hdone item). rewrite Hsched in Hdone. specialize (Hdone Hin).
  destruct (rewrite_save_results _ _ _ Hl2 Hsave) as [Hres3 _].
  apply rewrite_finalize_results in Hfin. rewrite Hfin, Hres3.
  unfold Rewrite.already_done in Hdone.
  destruct (w_results w2 !! oid item) as [r|] eqn:Er; [|discriminate].
  exists r. split; [reflexivity|].
  destruct (Hfrom2 _ _ Er) as [Hloaded|[Hid Hsh]]; [|split; assumption].
  exfalso.
  assert (Hpend : item ∈ Rewrite.items_to_process data loaded) by (rewrite Etodo; exact Hin).
  unfold Rewrite.items_to_process in Hpend. apply list_elem_of_filter in Hpend as [Hnot _].
  unfold Rewrite.already_done in Hnot. rewrite Hloaded, Hdone in Hnot. exact Hnot.
Qed.

(** Runs that schedule fewer items than the save interval reach their
    normal end. *)
Lemma rewrite_main_completes data fs :
  (∀ l, schedule l ≡ₚ l) →
  let loaded := w_results (after_load true false (Rewrite.intermediate_output_file output)
                             (init_world fs)) in
  Z.of_nat (length (Rewrite.items_to_process data loaded)) < save_interval →
  ∃ w', main data (init_world fs) = Ret tt w'.
Proof.
  intros Hsched loaded Hlen. rewrite main_unfold. cbv zeta. fold loaded.
  set (w1 := after_load true false (Rewrite.intermediate_output_file output) (init_world fs)).
  assert (Hl1 : w_lock w1 = false) by (unfold w1; rewrite after_load_lock; reflexivity).
  assert (Hc1 : w_counter w1 = 0) by (unfold w1; rewrite after_load_counter; reflexivity).
  assert (Hdisp : ∃ w2, dispatch (Rewrite.items_to_process data loaded) w1 = Ret tt w2
                        ∧ w_lock w2 = false).
  { unfold dispatch. destruct (Rewrite.items_to_process data loaded) as [|x todo] eqn:E.
    - eexists. split; [reflexivity | exact Hl1].
    - destruct (pool_completes save_interval output remote (schedule (x :: todo)) w1 Hl1)
        as [w2 Hw2].
      { rewrite Hsched, Hc1. lia. }
      exists w2. split; [exact Hw2|].
      eapply (pool_post save_interval output remote (w_results w1)); try eassumption.
      intros k r Hk. left. exact Hk. }
  destruct Hdisp as (w2 & Hdisp & Hl2).
  erewrite bind_Ret by exact Hdisp.
  unfold mbind, prog_bind. rewrite rewrite_save_run by exact Hl2.
  destruct (bool_decide (pdir output ∈ fs_dirs (w_fs w2)));
    rewrite rewrite_finalize_run; eauto.
Qed.

End RewriteRuns.

(** ** Invariants of programs *)

Lemma preserves_ret {A} I (a : A) : preserves I (mret a).
Proof. intros w Hw. exact Hw. Qed.

Lemma preserves_raise {A} I e : preserves I (@raise A e).
Proof. intros w Hw. exact Hw. Qed.

Lemma preserves_get I : preserves I get_world.
Proof. intros w Hw. exact Hw. Qed.

Lemma preserves_modify I f : (∀ w, I w → I (f w)) → preserves I (modify f).
Proof. intros Hf w Hw. apply Hf, Hw. Qed.

Lemma preserves_bind {A B} I (m : prog A) (f : A → prog B) :
  preserves I m → (∀ a, preserves I (f a)) → preserves I (m ≫= f).
Proof.
  intros Hm Hf w Hw. specialize (Hm w Hw). unfold mbind, prog_bind.
  destruct (m w) as [a w1|e w1|w1]; simpl in *; [apply Hf; exact Hm | exact Hm | exact Hm].
Qed.

Lemma preserves_try_except {A} I (m : prog A) h :
  preserves I m → (∀ e, preserves I (h e)) → preserves I (try_except m h).
Proof.
  intros Hm Hh w Hw. specialize (Hm w Hw). unfold try_except.
  destruct (m w) as [a w1|e w1|w1]; simpl in *; [exact Hm | apply Hh; exact Hm | exact Hm].
Qed.

Lemma preserves_for_each {A} I (l : list A) body :
  (∀ x, x ∈ l → preserves I (body x)) → preserves I (for_each l body).
Proof.
  induction l as [|x l IH]; intros Hbody; simpl.
  - apply preserves_ret.
  - apply preserves_bind.
    + apply Hbody. left.
    + intros _. apply IH. intros y Hy. apply Hbody. right. exact Hy.
Qed.

Lemma preserves_if {A} I (b : bool) (m1 m2 : prog A) :
  preserves I m1 → preserves I m2 → preserves I (if b then m1 else m2).
Proof. destruct b; auto. Qed.

Lemma preserves_emit I e : stable I → preserves I (emit e).
Proof. intros Hs. apply preserves_modify. intros w. apply Hs; destruct w; reflexivity. Qed.

Lemma preserves_mkdir_parent I p : stable I → preserves I (mkdir_parent p).
Proof. intros Hs. apply preserves_modify. intros w. apply Hs; destruct w; reflexivity. Qed.

Lemma preserves_write_json I p l : stable I → preserves I (write_json p l).
Proof.
  intros Hs w Hw. unfold write_json.
  destruct (bool_decide (pdir p ∈ fs_dirs (w_fs w))); simpl; [|exact Hw].
  revert Hw. apply Hs; destruct w; reflexivity.
Qed.

Lemma preserves_write_empty I p : stable I → preserves I (write_empty p).
Proof.
  intros Hs w Hw. unfold write_empty.
  destruct (bool_decide (pdir p ∈ fs_dirs (w_fs w))); simpl; [|exact Hw].
  revert Hw. apply Hs; destruct w; reflexivity.
Qed.

Lemma preserves_batch_save I p : stable I → preserves I (Batch._save p).
Proof.
  intros Hs. unfold Batch._save.
  apply preserves_bind; [apply preserves_mkdir_parent, Hs|]. intros _.
  apply preserves_bind; [apply preserves_get|]. intros w.
  apply preserves_if.
  - apply preserves_bind; [apply preserves_write_empty, Hs|]. intros _.
    apply preserves_raise.
  - apply preserves_bind; [apply preserves_write_json, Hs|]. intros _.
    apply preserves_emit, Hs.
Qed.

(** ** The batch stages *)

Lemma chunks_aux_subset {A} fuel n (l c : list A) x :
  c ∈ Batch.chunks_aux fuel n l → x ∈ c → x ∈ l.
Proof.
  revert l. induction fuel as [|fuel IH]; intros l; simpl; [intros H; inversion H|].
  destruct l as [|y l]; [intros H; inversion H|].
  intros Hc Hx. apply elem_of_cons in Hc as [->|Hc].
  - eapply subseteq_take, Hx.
  - eapply subseteq_drop, IH; eassumption.
Qed.

Lemma preserves_get_bind {A} I (f : world → prog A) :
  (∀ w, I w → I (final_world (f w w))) → preserves I (get_world ≫= f).
Proof. intros Hf w Hw. unfold mbind, prog_bind, get_world. apply Hf, Hw. Qed.

Lemma prepare_requests_reqs items results fs id :
  id ∈ (Batch.prepare_requests items results fs).1.2 →
  ∃ itm, itm ∈ items ∧ oid itm = id ∧ encodable fs itm = true.
Proof.
  induction items as [|itm items IH]; simpl; [intros H; inversion H|].
  destruct (Batch.prepare_requests items results fs) as [[evs reqs] id_map].
  simpl in IH.
  destruct (bool_decide (oid itm ∈ dom results)).
  - simpl. intros H. destruct (IH H) as (x & Hx & Hid & He).
    exists x. split; [right; exact Hx | auto].
  - destruct (has_key "image" itm && bool_decide (jget "image" "" itm ∈ fs_images fs)) eqn:E;
      simpl.
    + intros H. apply elem_of_cons in H as [->|H].
      * exists itm. split; [left|]. split; [reflexivity | exact E].
      * destruct (IH H) as (x & Hx & Hid & He).
        exists x. split; [right; exact Hx | auto].
    + intros H. destruct (IH H) as (x & Hx & Hid & He).
      exists x. split; [right; exact Hx | auto].
Qed.

Section BatchFacts.
Variable batch_size : Z.
Variable save_interval : Z.
Variable out_path : path.
Variable provider : list ident → Batch.batch_reply.
Variable payload : jobj → string → list (string * jval).

Variable loaded : gmap ident jobj.
Variable todo : list jobj.
Variable images : gset string.
Variable allowed : ident → Prop.

Local Abbreviation produced := (produced payload).
Local Abbreviation batch_inv := (batch_inv payload loaded images allowed).

Hypothesis allowed_requested :
  ∀ itm, itm ∈ todo → has_key "image" itm = true → jget "image" "" itm ∈ images →
         allowed (oid itm).
Hypothesis allowed_reported :
  ∀ reqs ent, ent ∈ Batch.br_entries (provider reqs) →
              (∀ id, id ∈ reqs → allowed id) → allowed (Batch.custom_id ent).

Lemma batch_inv_stable : stable batch_inv.
Proof.
  intros w w' Hres Himg [H1 H2]. split; [congruence|]. rewrite Hres. exact H2.
Qed.

Lemma batch_inv_insert w k r :
  batch_inv w → produced k r → allowed k →
  batch_inv (set_results (λ results, <[k := r]> results) w).
Proof.
  intros [H1 H2] Hp Ha. split; [destruct w; exact H1|].
  intros k' r'. destruct w as [res c lk fs lg]. simpl in *.
  rewrite lookup_insert. case_decide as E.
  - intros [= <-]. subst k'. right. split; assumption.
  - apply H2.
Qed.

Lemma handle_entry_preserves id_map ent :
  allowed (Batch.custom_id ent) →
  preserves batch_inv (Batch.handle_entry payload id_map ent).
Proof.
  intros Ha. unfold Batch.handle_entry.
  destruct (Batch.custom_id ent) as [z|] eqn:Ecid; [|apply preserves_raise].
  destruct (Batch.ent_result ent) as [txt|err].
  - destruct (id_map !! Some z) as [itm|]; [|apply preserves_raise].
    apply preserves_modify. intros w Hw. apply batch_inv_insert; [exact Hw| |exact Ha].
    split; [reflexivity|]. right. eauto.
  - apply preserves_bind; [|intros _; apply preserves_emit, batch_inv_stable].
    apply preserves_modify. intros w Hw. apply batch_inv_insert; [exact Hw| |exact Ha].
    split; [reflexivity|]. left. eauto.
Qed.

Lemma process_chunk_preserves i chunk :
  (∀ itm, itm ∈ chunk → itm ∈ todo) →
  preserves batch_inv (Batch.process_chunk save_interval out_path provider payload i chunk).
Proof.
  intros Hsub. unfold Batch.process_chunk. apply preserves_get_bind. intros w Hw.
  pose proof (prepare_requests_reqs chunk (w_results w) (w_fs w)) as Hreqs.
  destruct (Batch.prepare_requests chunk (w_results w) (w_fs w)) as [[evs reqs] id_map].
  simpl in Hreqs. revert w Hw Hreqs.
  change (∀ w, batch_inv w →
    (∀ id, id ∈ reqs → ∃ itm, itm ∈ chunk ∧ oid itm = id ∧ encodable (w_fs w) itm = true) →
    batch_inv (final_world
      ((for_each evs emit;;
        match reqs with
        | [] => emit EvNoValidRequests
        | _ :: _ =>
            try_except
              (emit (EvBatchCreate (omap id reqs));;
               for_each (Batch.br_entries (provider reqs)) (Batch.handle_entry payload id_map);;
               match Batch.br_failure (provider reqs) with
               | Some e => raise e
               | None => mret tt
               end)
              (λ e, emit (EvBatchError e));;
            (if bool_decide (save_interval = 0) then raise "integer modulo by zero"
             else if bool_decide ((Z.of_nat i + 1) `mod` save_interval = 0)
                  then Batch._save out_path else mret tt)
        end) w))).
  intros w Hw Hreqs.
  assert (Hallowed : ∀ id, id ∈ reqs → allowed id).
  { intros id Hid. destruct (Hreqs id Hid) as (itm & Hin & <- & He).
    unfold encodable in He. apply andb_true_iff in He as [He1 He2].
    apply bool_decide_eq_true_1 in He2.
    apply allowed_requested; [apply Hsub, Hin | exact He1|].
    destruct Hw as [Himg _]. rewrite <- Himg. exact He2. }
  revert w Hw Hreqs. intros w Hw _. revert w Hw.
  apply preserves_bind.
  { apply preserves_for_each. intros e _. apply preserves_emit, batch_inv_stable. }
  intros _. destruct reqs as [|id0 reqs']; [apply preserves_emit, batch_inv_stable|].
  apply preserves_bind.
  - apply preserves_try_except; [|intros e; apply preserves_emit, batch_inv_stable].
    apply preserves_bind; [apply preserves_emit, batch_inv_stable|]. intros _.
    apply preserves_bind.
    + apply preserves_for_each. intros ent Hent. apply handle_entry_preserves.
      eapply allowed_reported; eassumption.
    + intros _. destruct (Batch.br_failure (provider (id0 :: reqs')));
        [apply preserves_raise | apply preserves_ret].
  - intros _. apply preserves_if; [apply preserves_raise|].
    apply preserves_if; [apply preserves_batch_save, batch_inv_stable | apply preserves_ret].
Qed.

Lemma process_chunks_preserves i cs :
  (∀ c itm, c ∈ cs → itm ∈ c → itm ∈ todo) →
  preserves batch_inv (Batch.process_chunks save_interval out_path provider payload i cs).
Proof.
  revert i. induction cs as [|c cs IH]; intros i Hsub; simpl.
  - apply preserves_ret.
  - apply preserves_bind.
    + apply process_chunk_preserves. intros itm. apply Hsub. left.
    + intros _. apply IH. intros c' itm Hc'. apply Hsub. right. exact Hc'.
Qed.

End BatchFacts.

Lemma final_world_bind_Ret {A B} (m : prog A) (f : A → prog B) w a w1 :
  m w = Ret a w1 → final_world ((m ≫= f) w) = final_world (f a w1).
Proof. intros H. erewrite bind_Ret by exact H. reflexivity. Qed.

Lemma todo_of_unloaded (items : list jobj) (loaded : gmap ident jobj) (item : jobj) :
  item ∈ Batch.todo_of items loaded → item ∈ items ∧ loaded !! oid item = None.
Proof.
  unfold Batch.todo_of. rewrite list_elem_of_filter, not_elem_of_dom. tauto.
Qed.

(** Whatever the provider does and however the run ends, a record found
    in [results] was loaded or was produced by the loop; under [allowed]
    identifiers only, when the provider reports allowed identifiers. *)
Lemma batch_run_inv batch_size save_interval out_path provider payload items fs
    (allowed : ident → Prop) :
  let loaded := w_results (after_load false true out_path (init_world fs)) in
  (∀ itm, itm ∈ Batch.todo_of items loaded → has_key "image" itm = true →
          jget "image" "" itm ∈ fs_images fs → allowed (oid itm)) →
  (∀ reqs ent, ent ∈ Batch.br_entries (provider reqs) →
               (∀ id, id ∈ reqs → allowed id) → allowed (Batch.custom_id ent)) →
  batch_inv payload loaded (fs_images fs) allowed
    (final_world (Batch.process_batch batch_size save_interval out_path provider payload
                    items (init_world fs))).
Proof.
  intros loaded Hreq Hrep. unfold Batch.process_batch.
  erewrite final_world_bind_Ret by apply batch_load_run.
  set (w1 := after_load false true out_path (init_world fs)) in *.
  assert (Hinv1 : batch_inv payload loaded (fs_images fs) allowed w1).
  { split; [unfold w1; rewrite after_load_fs; reflexivity|].
    intros k r Hk. left. exact Hk. }
  unfold mbind at 1, prog_bind at 1, get_world at 1. fold loaded.
  destruct (Batch.todo_of items loaded) as [|x todo] eqn:Etodo.
  { apply (preserves_emit _ _ (batch_inv_stable payload loaded (fs_images fs) allowed)).
    exact Hinv1. }
  revert Hinv1. generalize w1. 
  change (preserves (batch_inv payload loaded (fs_images fs) allowed)
    ((if bool_decide (batch_size = 0) then raise "range() arg 3 must not be zero"
      else if bool_decide (batch_size < 0) then mret tt
      else Batch.process_chunks save_interval out_path provider payload 0
             (Batch.chunks (Z.to_nat batch_size) (x :: todo)));;
     Batch._save out_path)).
  apply preserves_bind; [|intros _; apply preserves_batch_save, batch_inv_stable].
  apply preserves_if; [apply preserves_raise|].
  apply preserves_if; [apply preserves_ret|].
  apply (process_chunks_preserves save_interval out_path provider payload loaded
           (x :: todo) (fs_images fs) allowed).
  - intros itm Hin. apply Hreq. exact Hin.
  - exact Hrep.
  - intros c itm Hc Hitm. eapply chunks_aux_subset; eassumption.
Qed.

(** *** Batches that are answered *)

Lemma chunks_aux_cover {A} fuel n (l : list A) x :
  (0 < n)%nat → (length l ≤ fuel)%nat → x ∈ l →
  ∃ c, c ∈ Batch.chunks_aux fuel n l ∧ x ∈ c.
Proof.
  intros Hn. revert l. induction fuel as [|fuel IH]; intros l Hlen Hx.
  - destruct l; [inversion Hx | simpl in Hlen; lia].
  - destruct l as [|y l]; [inversion Hx|]. simpl.
    rewrite <- (take_drop n (y :: l)) in Hx. apply elem_of_app in Hx as [Hx|Hx].
    + exists (take n (y :: l)). split; [left | exact Hx].
    + destruct (IH (drop n (y :: l))) as (c & Hc & Hxc); [|exact Hx|].
      * rewrite length_drop. simpl in *. lia.
      * exists c. split; [right; exact Hc | exact Hxc].
Qed.

Lemma prepare_requests_complete items results fs itm :
  itm ∈ items → oid itm ∉ dom results → encodable fs itm = true →
  oid itm ∈ (Batch.prepare_requests items results fs).1.2.
Proof.
  intros Hin Hnot Henc. induction items as [|x items IH]; [inversion Hin|].
  simpl. destruct (Batch.prepare_requests items results fs) as [[evs reqs] id_map].
  simpl in IH. apply elem_of_cons in Hin as [<-|Hin].
  - rewrite bool_decide_eq_false_2 by exact Hnot.
    unfold encodable in Henc. rewrite Henc. simpl. left.
  - specialize (IH Hin).
    destruct (bool_decide (oid x ∈ dom results)); [exact IH|].
    destruct (has_key "image" x && bool_decide (jget "image" "" x ∈ fs_images fs));
      simpl; [right; exact IH | exact IH].
Qed.

Lemma prepare_requests_id_map items results fs id :
  id ∈ (Batch.prepare_requests items results fs).1.2 →
  id ∈ dom (Batch.prepare_requests items results fs).2.
Proof.
  induction items as [|x items IH]; simpl; [intros H; inversion H|].
  destruct (Batch.prepare_requests items results fs) as [[evs reqs] id_map].
  simpl in IH.
  destruct (bool_decide (oid x ∈ dom results)); [exact IH|].
  destruct (has_key "image" x && bool_decide (jget "image" "" x ∈ fs_images fs));
    simpl; [|exact IH].
  intros Hin. destruct (decide (id = oid x)) as [->|Hne].
  - case_bool_decide as E; [exact E | set_solver].
  - apply elem_of_cons in Hin as [Hin|Hin]; [contradiction|].
    specialize (IH Hin). case_bool_decide; set_solver.
Qed.

Section BatchAnswered.
Variable batch_size : Z.
Variable save_interval : Z.
Variable out_path : path.
Variable provider : list ident → Batch.batch_reply.
Variable payload : jobj → string → list (string * jval).
Variable images : gset string.

Hypothesis interval_nonzero : save_interval ≠ 0.
Hypothesis provider_answers : answers_all provider.

Local Abbreviation batch_ok := (batch_ok images).

Lemma batch_ok_insert w z r :
  batch_ok w → oid r = Some z →
  batch_ok (set_results (λ results, <[Some z := r]> results) w).
Proof.
  intros (Hk & Hn & Hi) Hid. destruct w as [res c lk fs lg]. simpl in *.
  split; [|split]; simpl.
  - apply keyed_insert_at; assumption.
  - rewrite lookup_insert_ne by discriminate. exact Hn.
  - exact Hi.
Qed.

Lemma batch_ok_add_event w e : batch_ok w → batch_ok (add_event e w).
Proof. destruct w. exact id. Qed.

Lemma batch_ok_foldl_events w evs :
  batch_ok w → batch_ok (foldl (λ w' e, add_event e w') w evs).
Proof.
  revert w. induction evs as [|e evs IH]; intros w Hw; simpl; [exact Hw|].
  apply IH, batch_ok_add_event, Hw.
Qed.

(** An entry for a requested identifier is stored. *)
Lemma handle_entry_stores id_map ent w :
  batch_ok w → is_Some (Batch.custom_id ent) → Batch.custom_id ent ∈ dom id_map →
  ∃ w', Batch.handle_entry payload id_map ent w = Ret tt w'
        ∧ batch_ok w'
        ∧ dom (w_results w') = {[Batch.custom_id ent]} ∪ dom (w_results w).
Proof.
  intros Hw [z Hz] Hin. unfold Batch.handle_entry. rewrite Hz in *.
  destruct (Batch.ent_result ent) as [txt|err].
  - apply elem_of_dom in Hin as [itm Hitm]. rewrite Hitm.
    eexists. split; [reflexivity|]. split.
    + apply batch_ok_insert; [exact Hw | reflexivity].
    + destruct w; simpl. apply dom_insert_L.
  - eexists. split; [reflexivity|]. split.
    + apply batch_ok_add_event, batch_ok_insert; [exact Hw | reflexivity].
    + destruct w; simpl. apply dom_insert_L.
Qed.

Lemma handle_entries_store id_map ents w :
  batch_ok w →
  (∀ ent, ent ∈ ents → is_Some (Batch.custom_id ent) ∧ Batch.custom_id ent ∈ dom id_map) →
  ∃ w', for_each ents (Batch.handle_entry payload id_map) w = Ret tt w'
        ∧ batch_ok w'
        ∧ dom (w_results w') = list_to_set (Batch.custom_id <$> ents) ∪ dom (w_results w).
Proof.
  revert w. induction ents as [|ent ents IH]; intros w Hw Hall; simpl.
  - exists w. split; [reflexivity|]. split; [exact Hw | set_solver].
  - destruct (handle_entry_stores id_map ent w Hw) as (w1 & Hrun & Hw1 & Hdom1);
      [apply Hall; left.. |].
    destruct (IH w1 Hw1) as (w2 & Hrun2 & Hw2 & Hdom2).
    { intros e He. apply Hall. right. exact He. }
    exists w2. split; [erewrite bind_Ret by exact Hrun; exact Hrun2|].
    split; [exact Hw2|]. rewrite Hdom2, Hdom1. set_solver.
Qed.

Lemma batch_save_ok w :
  batch_ok w →
  ∃ w', Batch._save out_path w = Ret tt w' ∧ batch_ok w' ∧ w_results w' = w_results w.
Proof.
  intros (Hk & Hn & Hi). rewrite batch_save_run by assumption.
  eexists. split; [reflexivity|]. split; [|destruct w; reflexivity].
  destruct w as [res c lk fs lg]. split; [exact Hk | split; [exact Hn | exact Hi]].
Qed.

(** A chunk whose items all have identifiers is processed to its end,
    and every item of it that can be encoded has a record afterwards. *)
Lemma process_chunk_answered i chunk w :
  batch_ok w → (∀ itm, itm ∈ chunk → is_Some (oid itm)) →
  ∃ w', Batch.process_chunk save_interval out_path provider payload i chunk w = Ret tt w'
        ∧ batch_ok w'
        ∧ dom (w_results w) ⊆ dom (w_results w')
        ∧ ∀ itm, itm ∈ chunk → encodable (w_fs w) itm = true → oid itm ∈ dom (w_results w').
Proof.
  intros Hw Hids. unfold Batch.process_chunk.
  unfold mbind at 1, prog_bind at 1, get_world at 1.
  pose proof (prepare_requests_reqs chunk (w_results w) (w_fs w)) as Hsound.
  pose proof (λ itm, prepare_requests_complete chunk (w_results w) (w_fs w) itm) as Hcomplete.
  pose proof (prepare_requests_id_map chunk (w_results w) (w_fs w)) as Hmap.
  destruct (Batch.prepare_requests chunk (w_results w) (w_fs w)) as [[evs reqs] id_map].
  simpl in Hsound, Hcomplete, Hmap.
  erewrite bind_Ret by apply add_events_foldl.
  set (w0 := foldl (λ w' e, add_event e w') w evs).
  assert (Hw0 : batch_ok w0) by (apply batch_ok_foldl_events, Hw).
  assert (Hres0 : w_results w0 = w_results w) by apply foldl_add_event_results.
  destruct reqs as [|id0 reqs'].
  - eexists. split; [reflexivity|]. split; [apply batch_ok_add_event, Hw0|].
    cbn [w_results add_event]. rewrite Hres0. split; [reflexivity|].
    intros itm Hin Henc.
    destruct (decide (oid itm ∈ dom (w_results w))) as [Hd|Hd]; [exact Hd|].
    specialize (Hcomplete itm Hin Hd Henc). inversion Hcomplete.
  - set (reqs := id0 :: reqs') in *.
    destruct (provider_answers reqs) as [Hfail Hents].
    destruct (handle_entries_store id_map (Batch.br_entries (provider reqs))
                (add_event (EvBatchCreate (omap id reqs)) w0))
      as (w1 & Hrun1 & Hw1 & Hdom1).
    { apply batch_ok_add_event, Hw0. }
    { intros ent Hent.
      assert (Hin : Batch.custom_id ent ∈ reqs).
      { rewrite <- Hents. apply list_elem_of_fmap. eauto. }
      split; [|apply Hmap, Hin].
      destruct (Hsound _ Hin) as (itm & Hitm & <- & _). apply Hids, Hitm. }
    rewrite Hents in Hdom1. cbn [w_results add_event] in Hdom1. rewrite Hres0 in Hdom1.
    assert (Htry : try_except
              (emit (EvBatchCreate (omap id reqs));;
               for_each (Batch.br_entries (provider reqs)) (Batch.handle_entry payload id_map);;
               match Batch.br_failure (provider reqs) with
               | Some e => raise e
               | None => mret tt
               end)
              (λ e, emit (EvBatchError e)) w0 = Ret tt w1).
    { unfold try_except. unfold mbind at 1, prog_bind at 1, emit at 1, modify at 1.
      erewrite bind_Ret by exact Hrun1. rewrite Hfail. reflexivity. }
    rewrite (bind_Ret _ _ _ _ _ Htry).
    rewrite bool_decide_eq_false_2 by exact interval_nonzero.
    assert (Hgoal : dom (w_results w) ⊆ dom (w_results w1)
                    ∧ ∀ itm, itm ∈ chunk → encodable (w_fs w) itm = true →
                             oid itm ∈ dom (w_results w1)).
    { rewrite Hdom1. split; [set_solver|].
      intros itm Hin Henc.
      destruct (decide (oid itm ∈ dom (w_results w))) as [Hd|Hd]; [set_solver|].
      specialize (Hcomplete itm Hin Hd Henc). set_solver. }
    destruct (bool_decide ((Z.of_nat i + 1) `mod` save_interval = 0)).
    + destruct (batch_save_ok w1 Hw1) as (w2 & Hrun2 & Hw2 & Hres2).
      exists w2. split; [exact Hrun2|]. split; [exact Hw2|]. rewrite Hres2. exact Hgoal.
    + exists w1. split; [reflexivity|]. split; [exact Hw1 | exact Hgoal].
Qed.

Lemma process_chunks_answered i cs w :
  batch_ok w → (∀ c itm, c ∈ cs → itm ∈ c → is_Some (oid itm)) →
  ∃ w', Batch.process_chunks save_interval out_path provider payload i cs w = Ret tt w'
        ∧ batch_ok w'
        ∧ dom (w_results w) ⊆ dom (w_results w')
        ∧ ∀ c itm, c ∈ cs → itm ∈ c → has_key "image" itm = true →
                   jget "image" "" itm ∈ images → oid itm ∈ dom (w_results w').
Proof.
  revert i w. induction cs as [|c cs IH]; intros i w Hw Hids; simpl.
  - exists w. split; [reflexivity|]. split; [exact Hw|]. split; [reflexivity|].
    intros c itm Hc. inversion Hc.
  - destruct (process_chunk_answered i c w Hw) as (w1 & Hrun1 & Hw1 & Hdom1 & Hc1).
    { intros itm. apply Hids. left. }
    destruct (IH (S i) w1 Hw1) as (w2 & Hrun2 & Hw2 & Hdom2 & Hc2).
    { intros c' itm Hc'. apply Hids. right. exact Hc'. }
    exists w2. split; [erewrite bind_Ret by exact Hrun1; exact Hrun2|].
    split; [exact Hw2|]. split; [set_solver|].
    intros c' itm Hc' Hitm Hkey Himg. apply elem_of_cons in Hc' as [->|Hc'].
    + apply Hdom2, Hc1; [exact Hitm|].
      unfold encodable. rewrite Hkey. destruct Hw as (_ & _ & Hi). rewrite Hi.
      rewrite bool_decide_eq_true_2 by exact Himg. reflexivity.
    + eapply Hc2; eassumption.
Qed.

End BatchAnswered.

(** When the provider answers every request and every input item has an
    identifier, a run of a batch stage reaches its normal end, and every
    scheduled item whose image can be encoded has a record. *)
Lemma batch_run_answered batch_size save_interval out_path provider payload items fs item :
  0 < batch_size → save_interval ≠ 0 → answers_all provider →
  (∀ itm, itm ∈ items → is_Some (oid itm)) →
  let loaded := w_results (after_load false true out_path (init_world fs)) in
  loaded !! None = None →
  item ∈ Batch.todo_of items loaded → encodable fs item = true →
  ∃ w', Batch.process_batch batch_size save_interval out_path provider payload items
          (init_world fs) = Ret tt w'
        ∧ is_Some (w_results w' !! oid item).
Proof.
  intros Hbs Hsi Hprov Hids loaded Hnone Hin Henc.
  unfold Batch.process_batch. erewrite bind_Ret by apply batch_load_run.
  unfold mbind at 1, prog_bind at 1, get_world at 1. fold loaded.
  set (w1 := after_load false true out_path (init_world fs)) in *.
  assert (Hw1 : batch_ok (fs_images fs) w1).
  { split; [|split].
    - unfold w1. apply keyed_after_load, keyed_empty.
    - exact Hnone.
    - unfold w1. rewrite after_load_fs. reflexivity. }
  destruct (Batch.todo_of items loaded) as [|x todo] eqn:Etodo; [inversion Hin|].
  rewrite bool_decide_eq_false_2 by lia. rewrite bool_decide_eq_false_2 by lia.
  assert (Hsub : ∀ c itm, c ∈ Batch.chunks (Z.to_nat batch_size) (x :: todo) → itm ∈ c →
                          itm ∈ items).
  { intros c itm Hc Hitm.
    assert (Hx : itm ∈ x :: todo) by (eapply chunks_aux_subset; eassumption).
    rewrite <- Etodo in Hx. apply todo_of_unloaded in Hx. tauto. }
  destruct (process_chunks_answered save_interval out_path provider payload (fs_images fs)
              Hsi Hprov 0 (Batch.chunks (Z.to_nat batch_size) (x :: todo)) w1 Hw1)
    as (w2 & Hrun2 & Hw2 & _ & Hc2).
  { intros c itm Hc Hitm. apply Hids. eapply Hsub; eassumption. }
  destruct (batch_save_ok out_path (fs_images fs) w2 Hw2) as (w3 & Hrun3 & _ & Hres3).
  exists w3. split.
  - unfold mbind, prog_bind. rewrite Hrun2. exact Hrun3.
  - rewrite Hres3. apply elem_of_dom.
    destruct (chunks_aux_cover (length (x :: todo)) (Z.to_nat batch_size) (x :: todo) item)
      as (c & Hc & Hitem); [lia | reflexivity | exact Hin |].
    unfold encodable in Henc. apply andb_true_iff in Henc as [Hkey Himg].
    apply bool_decide_eq_true_1 in Himg.
    eapply Hc2; eassumption.
Qed.

(** *** The pool of the verify stage *)

(** What [analyze_puzzle] re-raises leaves the worker, and with it
    [process_batch]: nothing is recorded for the item. *)
Lemma verify_worker_raises save_interval outfile remote item w e :
  Backoff.r_verdict (Verify.analyze_puzzle remote (w_fs w) item) = Backoff.GaveUp e →
  Verify.worker save_interval outfile remote item w = Raise e w.
Proof.
  intros Hv. unfold Verify.worker. prog_unfold. rewrite Hv. reflexivity.
Qed.

Lemma verify_store_result_run save_interval id r w :
  w_lock w = false → save_interval ≠ 0 →
  Verify.store_result save_interval id r w
  = Ret (bool_decide (Z.of_nat (size (<[id := r]> (w_results w))) `mod` save_interval = 0))
        (set_results (λ results, <[id := r]> results) w).
Proof.
  intros Hl Hne. destruct w as [res c lk fs lg]. simpl in Hl. subst lk.
  unfold Verify.store_result. prog_unfold. simpl.
  rewrite bool_decide_eq_false_2 by exact Hne. reflexivity.
Qed.

Lemma verify_worker_returned save_interval outfile remote item w r z :
  Backoff.r_verdict (Verify.analyze_puzzle remote (w_fs w) item) = Backoff.Returned r →
  oid item = Some z →
  Verify.worker save_interval outfile remote item w
  = match Verify.store_result save_interval (Some z) r w with
    | Ret true w1 => Verify._save outfile w1
    | Ret false w1 => Ret tt w1
    | Raise e w1 => Raise e w1
    | Blocked w1 => Blocked w1
    end.
Proof.
  intros Hv Hid. unfold Verify.worker.
  unfold mbind, prog_bind, get_world, mret, prog_ret. rewrite Hv, Hid.
  destruct (Verify.store_result save_interval (Some z) r w) as [[] w1|e w1|w1]; reflexivity.
Qed.

Lemma success_record_oid item text r :
  Verify.success_record item text = inl r → oid r = oid item.
Proof.
  unfold Verify.success_record.
  destruct (Verify.tag_or_empty "reasoning" text); [|discriminate].
  destruct (Verify.tag_or_empty "answer" text); [|discriminate].
  intros [= <-]. reflexivity.
Qed.

(** What [analyze_puzzle] returns is a record for the item: a success
    record or a failure record. *)
Lemma analyze_returned remote fs item r :
  Backoff.r_verdict (Verify.analyze_puzzle remote fs item) = Backoff.Returned r →
  oid r = oid item ∧ verify_shaped r.
Proof.
  unfold Verify.analyze_puzzle.
  set (target := λ k : nat, Verify.analyze_puzzle_body fs item (remote item k)).
  assert (H8 : (1 ≤ Backoff.MAX_TRIES)%nat).
  { unfold Backoff.MAX_TRIES. lia. }
  pose proof (on_exception_last Backoff.MAX_TRIES Backoff.BASE Backoff.MAX_TIME
                (λ _, false) Backoff.no_jitter target H8) as Hlast.
  set (n := Backoff.tries_of _) in Hlast.
  intros Hv. unfold target at 1 in Hlast.
  unfold Verify.analyze_puzzle_body in Hlast. simpl in Hlast.
  destruct (Verify.try_block fs item (remote item n)) as [r'|e] eqn:Etry.
  - rewrite Hv in Hlast. injection Hlast as ->.
    unfold Verify.try_block in Etry.
    destruct (negb (has_key "image" item) || bool_decide (jget "image" "" item = ""));
      [discriminate|].
    destruct (negb (bool_decide (jget "image" "" item ∈ fs_images fs))); [discriminate|].
    destruct (Backoff.att_result (remote item n)) as [text|e]; [|discriminate].
    split; [eapply success_record_oid; exact Etry|]. right. eauto.
  - destruct (Verify.is_rate_limit e).
    + rewrite Hv in Hlast. discriminate.
    + rewrite Hv in Hlast. injection Hlast as ->. split; [reflexivity|]. left. eauto.
Qed.

Lemma verify_task_post save_interval outfile remote loaded item w w' :
  w_lock w = false → verify_from_run loaded (w_results w) →
  verify_task save_interval outfile remote item w = Ret tt w' →
  w_lock w' = false ∧ verify_from_run loaded (w_results w')
  ∧ dom (w_results w) ⊆ dom (w_results w')
  ∧ (is_Some (oid item) → oid item ∈ dom (w_results w')).
Proof.
  intros Hl Hfrom. unfold verify_task.
  unfold mbind at 1, prog_bind at 1, emit at 1, modify at 1.
  set (w0 := add_event (EvDispatch (oid item)) w).
  assert (Hl0 : w_lock w0 = false) by exact Hl.
  assert (Hfs0 : w_fs w0 = w_fs w) by reflexivity.
  assert (Hres0 : w_results w0 = w_results w) by reflexivity.
  destruct (Backoff.r_verdict (Verify.analyze_puzzle remote (w_fs w0) item))
    as [r|e|] eqn:Hv.
  - destruct (analyze_returned _ _ _ _ Hv) as [Hid Hsh].
    destruct (oid item) as [z|] eqn:Ez.
    + rewrite (verify_worker_returned _ _ _ _ _ _ _ Hv Ez).
      destruct (decide (save_interval = 0)) as [Hz|Hz].
      { unfold Verify.store_result. prog_unfold. rewrite Hl0. simpl.
        rewrite bool_decide_eq_true_2 by exact Hz. discriminate. }
      rewrite verify_store_result_run by assumption.
      set (w1 := set_results (λ results, <[Some z := r]> results) w0).
      assert (Hpost : w_lock w1 = false ∧ verify_from_run loaded (w_results w1)
                      ∧ dom (w_results w) ⊆ dom (w_results w1)
                      ∧ (is_Some (Some z) → Some z ∈ dom (w_results w1))).
      { unfold w1. destruct w as [res c lk fs lg]. simpl in *.
        split; [exact Hl|]. split; [|split].
        - intros k r'. rewrite lookup_insert. case_decide as E.
          + intros [= <-]. subst k. right. split; assumption.
          + apply Hfrom.
        - rewrite dom_insert_L. set_solver.
        - intros _. rewrite dom_insert_L. set_solver. }
      destruct (bool_decide (Z.of_nat (size (<[Some z := r]> (w_results w0))) `mod` save_interval = 0)).
      * rewrite verify_save_run by apply Hpost. intros [= <-]. exact Hpost.
      * intros [= <-]. exact Hpost.
    + unfold Verify.worker. prog_unfold. rewrite Hv, Ez. cbn beta iota.
      intros [= <-]. cbn [w_lock w_results add_event].
      repeat split; try assumption; try reflexivity.
      intros [? ?]. discriminate.
  - rewrite (verify_worker_raises _ _ _ _ _ _ Hv). discriminate.
  - unfold Verify.worker. prog_unfold. rewrite Hv. discriminate.
Qed.

Lemma verify_pool_post save_interval outfile remote loaded items w w' :
  w_lock w = false → verify_from_run loaded (w_results w) →
  for_each items (verify_task save_interval outfile remote) w = Ret tt w' →
  w_lock w' = false ∧ verify_from_run loaded (w_results w')
  ∧ dom (w_results w) ⊆ dom (w_results w')
  ∧ (∀ item, item ∈ items → is_Some (oid item) → oid item ∈ dom (w_results w')).
Proof.
  revert w. induction items as [|item items IH]; intros w Hl Hfrom; simpl.
  - intros [= <-]. repeat split; auto. intros item Hin. inversion Hin.
  - intros Hrun. apply bind_Ret_inv in Hrun as ([] & w1 & Htask & Hrest).
    destruct (verify_task_post _ _ _ _ _ _ _ Hl Hfrom Htask) as (Hl1 & Hfrom1 & Hdom1 & Hin1).
    destruct (IH w1 Hl1 Hfrom1 Hrest) as (Hl' & Hfrom' & Hdom' & Hin').
    split; [exact Hl'|]. split; [exact Hfrom'|]. split; [set_solver|].
    intros item' Hin Hsome. apply elem_of_cons in Hin as [->|Hin]; [|auto].
    apply Hdom', Hin1, Hsome.
Qed.

(** At a normal end of the verify stage every scheduled item that has
    an identifier has a record written by this run. *)
Lemma verify_main_records save_interval outfile remote schedule data fs w' item :
  (∀ l, schedule l ≡ₚ l) →
  Verify.process_batch save_interval outfile remote schedule data (init_world fs) = Ret tt w' →
  let loaded := w_results (after_load true true outfile (init_world fs)) in
  item ∈ Verify.items_to_process data loaded → is_Some (oid item) →
  ∃ r, w_results w' !! oid item = Some r ∧ oid r = oid item ∧ verify_shaped r.
Proof.
  intros Hsched Hrun loaded Hin Hsome.
  unfold Verify.process_batch in Hrun. erewrite bind_Ret in Hrun by apply verify_load_run.
  unfold mbind at 1, prog_bind at 1, get_world at 1 in Hrun. fold loaded in Hrun.
  set (w1 := after_load true true outfile (init_world fs)) in *.
  assert (Hl1 : w_lock w1 = false) by (unfold w1; rewrite after_load_lock; reflexivity).
  assert (Hfrom1 : verify_from_run loaded (w_results w1)) by (intros k r Hk; left; exact Hk).
  destruct (Verify.items_to_process data loaded) as [|x todo] eqn:Etodo; [inversion Hin|].
  apply bind_Ret_inv in Hrun as ([] & w2 & Hpool & Hsave).
  destruct (verify_pool_post save_interval outfile remote loaded _ _ _ Hl1 Hfrom1 Hpool)
    as (Hl2 & Hfrom2 & _ & Hdone).
  specialize (Hdone item). rewrite Hsched in Hdone. specialize (Hdone Hin Hsome).
  rewrite verify_save_run in Hsave by exact Hl2. injection Hsave as <-.
  cbn [w_results add_event set_fs].
  apply elem_of_dom in Hdone as [r Hr]. exists r. split; [exact Hr|].
  destruct (Hfrom2 _ _ Hr) as [Hloaded|Hnew]; [|exact Hnew].
  exfalso.
  assert (Hpend : item ∈ Verify.items_to_process data loaded) by (rewrite Etodo; exact Hin).
  unfold Verify.items_to_process in Hpend. apply list_elem_of_filter in Hpend as [Hnot _].
  apply Hnot. apply elem_of_dom. eauto.
Qed.

(** A run of the verify stage that ends normally, with a success
    record for item 1 and a failure record for item 2, whose image is
    missing. *)
Example verify_run_ends_normally :
  let outfile := Path "data/step1" "1.4_verify" ".json" in
  let item1 := JObj (Some 1) [("image", JStr "images/image_1.png")] in
  let item2 := JObj (Some 2) [("image", JStr "images/image_2.png")] in
  let fs := FS ∅ ∅ {["images/image_1.png"]} in
  let remote := λ (_ : jobj) (_ : nat), Backoff.Attempt (inl "<answer>A</answer>") 1 0 in
  let run := Verify.process_batch 100 outfile remote id [item1; item2] (init_world fs) in
  (∃ w', run = Ret tt w')
  ∧ (∃ r, w_results (final_world run) !! Some 1 = Some r ∧ has_key "answer" r = true)
  ∧ (∃ r, w_results (final_world run) !! Some 2 = Some r ∧ has_key "error" r = true).
Proof.
  cbv zeta. split; [|split]; eexists; vm_compute; [reflexivity| |]; split; reflexivity.
Qed.

(** ** Records at the end of a run (C2) *)

(** C2 fails in the batch strategy: an item whose image cannot be
    encoded is skipped, and the run ends normally without any record
    for it. *)
Lemma C2_counterexample :
  let out_path := Path "data/step1_filtered" "1.6_rules_raw" ".json" in
  let item1 := JObj (Some 1) [("image", JStr "images/missing.png")] in
  let item2 := JObj (Some 2) [("image", JStr "images/image_2.png")] in
  let provider := λ ids, Batch.Reply (map (λ i, Batch.Entry i (Batch.Succeeded "ok")) ids) None in
  let fs := FS ∅ ∅ {["images/image_2.png"]} in
  let run := Batch.process_batch 20 20 out_path provider Batch.classification_payload
               [item1; item2] (init_world fs) in
  item1 ∈ Batch.todo_of [item1; item2] (w_results (final_world (Batch._load out_path (init_world fs))))
  ∧ (∃ w', run = Ret tt w')
  ∧ w_results (final_world run) !! Some 1 = None
  ∧ is_Some (w_results (final_world run) !! Some 2).
Proof.
  cbv zeta. split; [|split; [|split]].
  - vm_compute. left.
  - eexists. vm_compute. reflexivity.
  - vm_compute. reflexivity.
  - eexists. vm_compute. reflexivity.
Qed.

(** C2, amended: at the normal end of a run of the rewrite stage every
    scheduled item has exactly one record under its identifier, written
    by this run: a translation or an error.  At the normal end of a run
    of the verify stage every scheduled item that has an identifier has
    exactly one record under it, written by this run: a success record
    or an error.  In the batch stages every
    scheduled item ends with at most one record under its identifier, a
    success or a failure record; it ends with none when no input item
    with that identifier has an image that can be encoded and the
    provider reports only what was requested; it ends with one, at a
    normal end of the run, when its image can be encoded, every input
    item has an identifier and the provider answers every request. *)
Theorem C2_records_at_run_end
    (save_interval : Z) (p : path)
    (remote : jobj → nat → Backoff.attempt string) (schedule : list jobj → list jobj)
    (batch_size : Z) (provider : list ident → Batch.batch_reply)
    (payload : jobj → string → list (string * jval))
    (data : list jobj) (fs : filesys) (item : jobj) :
  ((∀ l, schedule l ≡ₚ l) →
   ∀ w', Rewrite.main save_interval p remote schedule data (init_world fs) = Ret tt w' →
   item ∈ Rewrite.items_to_process data
            (w_results (final_world (Rewrite.load_existing p (init_world fs)))) →
   ∃ r, w_results w' !! oid item = Some r ∧ oid r = oid item
        ∧ ((∃ t, ofields r = [("translation", JStr t)]) ∨ (∃ e, ofields r = [("error", JStr e)])))
  ∧ ((∀ l, schedule l ≡ₚ l) →
     ∀ w', Verify.process_batch save_interval p remote schedule data (init_world fs) = Ret tt w' →
     item ∈ Verify.items_to_process data
              (w_results (final_world (Verify._load p (init_world fs)))) →
     is_Some (oid item) →
     ∃ r, w_results w' !! oid item = Some r ∧ oid r = oid item
          ∧ ((∃ e, ofields r = [("error", JStr e)])
             ∨ (∃ itm text, Verify.success_record itm text = inl r)))
  ∧ (let w' := final_world (Batch.process_batch batch_size save_interval p provider payload
                              data (init_world fs)) in
     item ∈ Batch.todo_of data (w_results (final_world (Batch._load p (init_world fs)))) →
     (w_results w' !! oid item = None
      ∨ ∃ r, w_results w' !! oid item = Some r ∧ oid r = oid item
             ∧ ((∃ err, ofields r = [("error", JStr err)])
                ∨ (∃ itm txt, ofields r = payload itm txt)))
     ∧ ((∀ reqs ent, ent ∈ Batch.br_entries (provider reqs) → Batch.custom_id ent ∈ reqs) →
        (∀ itm, itm ∈ data → oid itm = oid item → encodable fs itm = false) →
        w_results w' !! oid item = None)
     ∧ (0 < batch_size → save_interval ≠ 0 → answers_all provider →
        (∀ itm, itm ∈ data → is_Some (oid itm)) →
        w_results (final_world (Batch._load p (init_world fs))) !! None = None →
        encodable fs item = true →
        (∃ w1, Batch.process_batch batch_size save_interval p provider payload
                 data (init_world fs) = Ret tt w1)
        ∧ is_Some (w_results w' !! oid item))).
Proof.
  split; [|split].
  - intros Hsched w' Hrun Hin. rewrite rewrite_load_run in Hin. simpl in Hin.
    destruct (rewrite_main_records save_interval p remote schedule data fs w' item
                Hsched Hrun Hin) as (r & Hr & Hid & Hsh).
    exists r. repeat split; assumption.
  - intros Hsched w' Hrun Hin Hsome. rewrite verify_load_run in Hin. cbn [final_world] in Hin.
    exact (verify_main_records save_interval p remote schedule data fs w' item
             Hsched Hrun Hin Hsome).
  - intros w' Hin. rewrite batch_load_run in Hin. simpl final_world in Hin.
    destruct (todo_of_unloaded _ _ _ Hin) as [Hdata Hnone].
    split; [|split].
    + pose proof (batch_run_inv batch_size save_interval p provider payload data fs
                    (λ _, True) (λ _ _ _ _, I) (λ _ _ _ _, I)) as [_ Hinv].
      fold w' in Hinv.
      destruct (w_results w' !! oid item) as [r|] eqn:Er; [|left; reflexivity].
      right. exists r. split; [reflexivity|].
      destruct (Hinv _ _ Er) as [Hl|[[Hid Hp] _]]; [congruence|]. split; assumption.
    + intros Hhonest Hskip.
      pose proof (batch_run_inv batch_size save_interval p provider payload data fs
                    (λ k, k ≠ oid item)) as Hinv.
      cbv zeta in Hinv. fold w' in Hinv.
      destruct Hinv as [_ Hinv].
      * intros itm Hitm Hkey Himg Heq.
        apply todo_of_unloaded in Hitm as [Hitm _].
        specialize (Hskip itm Hitm Heq). unfold encodable in Hskip.
        rewrite Hkey, bool_decide_eq_true_2 in Hskip by exact Himg. discriminate.
      * intros reqs ent Hent Hall. apply Hall, Hhonest, Hent.
      * destruct (w_results w' !! oid item) as [r|] eqn:Er; [|reflexivity].
        destruct (Hinv _ _ Er) as [Hl|[_ Hne]]; [congruence|]. contradiction.
    + intros Hbs Hsi Hprov Hids Hnokey Henc.
      rewrite batch_load_run in Hnokey. cbn [final_world] in Hnokey.
      destruct (batch_run_answered batch_size save_interval p provider payload data fs item
                  Hbs Hsi Hprov Hids Hnokey Hin Henc) as (w1 & Hrun & Hrec).
      split; [exists w1; exact Hrun|].
      unfold w'. rewrite Hrun. exact Hrec.
Qed.

Lemma C2_records_at_run_end_witness :
  let p := Path "data/step1" "1.2_claude_rewrite" ".json" in
  let item1 := JObj (Some 1) [("explanation", JStr "a")] in
  let item2 := JObj (Some 2) [("explanation", JStr "b")] in
  let remote := λ (it : jobj) (k : nat),
    if bool_decide (oid it = Some 1)
    then Backoff.Attempt (inr "overloaded_error") 1 0
    else Backoff.Attempt (inl "<translated_explanation>B</translated_explanation>") 1 0 in
  let fs := FS {["data/step1"]} ∅ ∅ in
  let w' := final_world (Rewrite.main 100 p remote id [item1; item2] (init_world fs)) in
  ∃ r, w_results w' !! Some 1 = Some r ∧ oid r = Some 1
       ∧ ((∃ t, ofields r = [("translation", JStr t)]) ∨ (∃ e, ofields r = [("error", JStr e)])).
Proof.
  intros p item1 item2 remote fs w'.
  apply (proj1 (C2_records_at_run_end 100 p remote id 20
                  (λ _, Batch.Reply [] None) Batch.classification_payload
                  [item1; item2] fs item1)).
  - intros l. reflexivity.
  - vm_compute. reflexivity.
  - vm_compute. left.
Defined.

(** ** Runs with nothing to do (C3) *)

Lemma after_load_log b s p w e :
  e ∈ w_log (after_load b s p w) →
  e ∈ w_log w ∨ (∃ n, e = EvResumed n) ∨ e = EvNoCheckpoint ∨ e = EvLoadError.
Proof.
  unfold after_load.
  destruct (fs_files (w_fs w) !! p) as [[recs| |]|]; destruct s; simpl;
    intros H; try (left; exact H);
    (apply elem_of_app in H as [H|H];
     [left; exact H | apply list_elem_of_singleton in H; subst; eauto 6]).
Qed.

(** C3 fails in the batch stages: with nothing to do they return
    without saving; the output file is not rewritten (here it stays
    unsorted). *)
Lemma C3_counterexample :
  let out_path := Path "data/step1_filtered" "1.8_rule_class" ".json" in
  let rec1 := JObj (Some 1) [("error", JStr "e1")] in
  let rec2 := JObj (Some 2) [("error", JStr "e2")] in
  let item1 := JObj (Some 1) [("image", JStr "images/image_1.png")] in
  let item2 := JObj (Some 2) [("image", JStr "images/image_2.png")] in
  let fs := FS {["data/step1_filtered"]} {[out_path := JsonArray [rec2; rec1]]} ∅ in
  let run := Batch.process_batch 20 5 out_path (λ _, Batch.Reply [] None)
               Batch.classification_payload [item1; item2] (init_world fs) in
  run = Ret tt (World (<[Some 1 := rec1]> (<[Some 2 := rec2]> ∅)) 0 false fs
                  [EvResumed 2; EvNothingToDo])
  ∧ snapshot_sorted (<[Some 1 := rec1]> (<[Some 2 := rec2]> ∅)) = [rec1; rec2].
Proof. split; vm_compute; reflexivity. Qed.

(** C3, amended: when nothing is pending no work is dispatched.  The
    batch stages then return at once, without saving and without
    touching the file system.  The verify stage saves the loaded
    CheckpointSet, sorted, at the output path unless it is empty; the
    rewrite stage saves it and moves it to the output path when the
    output directory exists. *)
Theorem C3_empty_pending
    (save_interval batch_size : Z) (p : path)
    (remote : jobj → nat → Backoff.attempt string) (schedule : list jobj → list jobj)
    (provider : list ident → Batch.batch_reply)
    (payload : jobj → string → list (string * jval))
    (data : list jobj) (fs : filesys) :
  (let loaded := w_results (final_world (Batch._load p (init_world fs))) in
   Batch.todo_of data loaded = [] →
   ∃ w', Batch.process_batch batch_size save_interval p provider payload data (init_world fs)
         = Ret tt w'
         ∧ w_fs w' = fs ∧ w_results w' = loaded
         ∧ (∀ q n, EvSaved q n ∉ w_log w') ∧ (∀ ids, EvBatchCreate ids ∉ w_log w'))
  ∧ (let loaded := w_results (final_world (Verify._load p (init_world fs))) in
     Verify.items_to_process data loaded = [] → loaded ≠ ∅ →
     ∃ w', Verify.process_batch save_interval p remote schedule data (init_world fs) = Ret tt w'
           ∧ fs_files (w_fs w') !! p = Some (JsonArray (snapshot_sorted loaded))
           ∧ (∀ id, EvDispatch id ∉ w_log w'))
  ∧ (let loaded := w_results (final_world (Rewrite.load_existing p (init_world fs))) in
     Rewrite.items_to_process data loaded = [] → pdir p ∈ fs_dirs fs →
     ∃ w', Rewrite.main save_interval p remote schedule data (init_world fs) = Ret tt w'
           ∧ fs_files (w_fs w') !! p = Some (JsonArray (snapshot_sorted loaded))
           ∧ (∀ id, EvDispatch id ∉ w_log w')).
Proof.
  split; [|split]; cbv zeta.
  - rewrite batch_load_run. cbn [final_world].
    set (loaded := w_results (after_load false true p (init_world fs))). intros Htodo.
    unfold Batch.process_batch. erewrite bind_Ret by apply batch_load_run.
    unfold mbind, prog_bind, get_world. fold loaded. rewrite Htodo.
    eexists. split; [reflexivity|]. cbn [w_fs w_results w_log add_event].
    rewrite after_load_fs. repeat split.
    + intros q n Hin. apply elem_of_app in Hin as [Hin|Hin].
      * apply after_load_log in Hin as [Hin|[[m Hin]|[Hin|Hin]]];
          [inversion Hin | discriminate..].
      * apply list_elem_of_singleton in Hin. discriminate.
    + intros ids Hin. apply elem_of_app in Hin as [Hin|Hin].
      * apply after_load_log in Hin as [Hin|[[m Hin]|[Hin|Hin]]];
          [inversion Hin | discriminate..].
      * apply list_elem_of_singleton in Hin. discriminate.
  - rewrite verify_load_run. cbn [final_world].
    set (loaded := w_results (after_load true true p (init_world fs))). intros Htodo Hne.
    unfold Verify.process_batch. erewrite bind_Ret by apply verify_load_run.
    unfold mbind at 1, prog_bind at 1, get_world at 1. fold loaded. rewrite Htodo.
    unfold mbind, prog_bind, emit, modify.
    rewrite bool_decide_eq_false_2 by exact Hne.
    rewrite verify_save_run by (cbn; rewrite after_load_lock; reflexivity).
    eexists. split; [reflexivity|]. cbn [w_fs w_results w_log add_event set_fs fs_files].
    rewrite lookup_insert_eq. split; [reflexivity|].
    intros id Hin. rewrite !elem_of_app, !list_elem_of_singleton in Hin.
    destruct Hin as [[Hin|Hin]|Hin]; try discriminate.
    apply after_load_log in Hin as [Hin|[[m Hin]|[Hin|Hin]]];
      [inversion Hin | discriminate..].
  - rewrite rewrite_load_run. cbn [final_world].
    set (loaded := w_results (after_load true false (Rewrite.intermediate_output_file p)
                                (init_world fs))).
    intros Htodo Hdir.
    rewrite main_unfold. cbv zeta. fold loaded. rewrite Htodo.
    unfold dispatch, mbind, prog_bind, emit, modify.
    rewrite rewrite_save_run by (cbn; rewrite after_load_lock; reflexivity).
    cbn [w_fs add_event]. rewrite after_load_fs. cbn [w_fs init_world].
    rewrite bool_decide_eq_true_2 by exact Hdir.
    rewrite rewrite_finalize_run.
    cbn [w_fs w_results w_log add_event set_fs set_counter fs_files fs_dirs].
    rewrite lookup_insert_eq.
    rewrite after_load_fs. cbn [w_fs init_world fs_dirs].
    rewrite bool_decide_eq_true_2 by exact Hdir.
    eexists. split; [reflexivity|].
    cbn [w_fs w_results w_log add_event set_fs set_counter fs_files fs_dirs].
    rewrite lookup_insert_eq. split; [reflexivity|].
    intros id Hin. rewrite !elem_of_app, !list_elem_of_singleton in Hin.
    destruct Hin as [[[Hin|Hin]|Hin]|Hin]; try discriminate.
    apply after_load_log in Hin as [Hin|[[m Hin]|[Hin|Hin]]];
      [inversion Hin | discriminate..].
Qed.

Lemma C3_empty_pending_witness :
  let p := Path "data/step1" "1.4_verify" ".json" in
  let rec1 := JObj (Some 1) [("error", JStr "e1")] in
  let rec2 := JObj (Some 2) [("answer", JStr "B")] in
  let item1 := JObj (Some 1) [("image", JStr "images/image_1.png")] in
  let item2 := JObj (Some 2) [("image", JStr "images/image_2.png")] in
  let fs := FS {["data/step1"]} {[p := JsonArray [rec2; rec1]]} ∅ in
  ∃ w', Verify.process_batch 100 p (λ _ _, Backoff.Attempt (inl "") 1 0) id
          [item1; item2] (init_world fs) = Ret tt w'
        ∧ fs_files (w_fs w') !! p = Some (JsonArray [rec1; rec2])
        ∧ (∀ id, EvDispatch id ∉ w_log w').
Proof.
  intros p rec1 rec2 item1 item2 fs.
  apply (proj1 (proj2 (C3_empty_pending 100 20 p (λ _ _, Backoff.Attempt (inl "") 1 0) id
                         (λ _, Batch.Reply [] None) Batch.classification_payload
                         [item1; item2] fs))).
  - vm_compute. reflexivity.
  - vm_compute. discriminate.
Defined.

(** ** Running twice (C4) *)

Lemma string_length_append (a b : string) :
  String.length (String.append a b) = (String.length a + String.length b)%nat.
Proof.
  induction a as [|c a IH]; [reflexivity|].
  rewrite TextFacts.append_cons. simpl. rewrite IH. reflexivity.
Qed.

(** The intermediate file is never the output file. *)
Lemma intermediate_ne_output output : Rewrite.intermediate_output_file output ≠ output.
Proof.
  unfold Rewrite.intermediate_output_file. destruct output as [d s x]. simpl.
  intros [= H]. apply (f_equal String.length) in H.
  rewrite string_length_append in H. simpl in H. lia.
Qed.




Lemma sorted_NoDup_oid L : StronglySorted id_lt L → NoDup (oid <$> L).
Proof.
  intros Hs. apply StronglySorted_lt_NoDup in Hs.
  apply (NoDup_fmap_1 (default 0)). rewrite <- list_fmap_compose. exact Hs.
Qed.




Lemma dispatch_post save_interval output remote schedule todo w w' :
  w_lock w = false →
  dispatch save_interval output remote schedule todo w = Ret tt w' →
  w_lock w' = false ∧ w_fs w' = w_fs w.
Proof.
  intros Hl. unfold dispatch. destruct todo as [|x todo].
  - intros [= <-]. split; [exact Hl | reflexivity].
  - intros Hrun.
    destruct (pool_post save_interval output remote (w_results w) _ _ _ Hl
                ltac:(intros k r Hk; left; exact Hk) Hrun) as (H1 & _ & H2 & _).
    split; assumption.
Qed.

(** A normal end of the rewrite stage leaves the output file and no
    intermediate file. *)
Lemma rewrite_main_files save_interval output remote schedule data fs w' :
  pdir output ∈ fs_dirs fs →
  Rewrite.main save_interval output remote schedule data (init_world fs) = Ret tt w' →
  fs_files (w_fs w') !! Rewrite.intermediate_output_file output = None
  ∧ fs_files (w_fs w') !! output = Some (JsonArray (snapshot_sorted (w_results w'))).
Proof.
  intros Hdir Hrun. rewrite main_unfold in Hrun. cbv zeta in Hrun.
  set (w1 := after_load true false (Rewrite.intermediate_output_file output) (init_world fs))
    in *.
  assert (Hl1 : w_lock w1 = false) by (unfold w1; rewrite after_load_lock; reflexivity).
  assert (Hfs1 : w_fs w1 = fs) by (unfold w1; rewrite after_load_fs; reflexivity).
  apply bind_Ret_inv in Hrun as ([] & w2 & Hdisp & Hrun).
  destruct (dispatch_post _ _ _ _ _ _ _ Hl1 Hdisp) as [Hl2 Hfs2].
  unfold mbind, prog_bind in Hrun.
  rewrite rewrite_save_run in Hrun by exact Hl2.
  rewrite Hfs2, Hfs1 in Hrun. rewrite bool_decide_eq_true_2 in Hrun by exact Hdir.
  rewrite rewrite_finalize_run in Hrun.
  cbn [w_fs w_results w_log add_event set_fs set_counter fs_files fs_dirs] in Hrun.
  rewrite lookup_insert_eq in Hrun. rewrite Hfs2, Hfs1 in Hrun.
  rewrite bool_decide_eq_true_2 in Hrun by exact Hdir.
  injection Hrun as <-.
  cbn [w_fs w_results w_log add_event set_fs set_counter fs_files fs_dirs].
  split.
  - rewrite lookup_insert_ne by (apply not_eq_sym, intermediate_ne_output).
    apply lookup_delete_eq.
  - apply lookup_insert_eq.
Qed.

Lemma filter_Forall_nil {A} (P : A → Prop) `{∀ x, Decision (P x)} (l : list A) :
  Forall (λ x, ¬ P x) l → filter P l = [].
Proof.
  induction 1 as [|x l Hx Hl IH]; [reflexivity|].
  rewrite filter_cons_False by exact Hx. exact IH.
Qed.







(** ** The unit-of-work boundary (C6) *)

(** The rewrite stage keeps the boundary: [translate_item_process]
    never raises. *)
Lemma rewrite_execute_no_raise save_interval output remote item w e w' :
  w_lock w = false →
  Rewrite.translate_item_process save_interval output remote item w ≠ Raise e w'.
Proof.
  intros Hl. rewrite translate_item_process_run by exact Hl.
  destruct (Rewrite.already_done (w_results w) (oid item)); [discriminate|].
  destruct (rewrite_outcome remote item) as [result evs].
  destruct (bool_decide (save_interval ≤ w_counter w + 1)); discriminate.
Qed.

(** In the verify stage a call that only ever meets rate-limit errors
    ends by re-raising the last one. *)
Lemma verify_analyze_gives_up remote fs item :
  (∀ k, ∃ e, Verify.try_block fs item (remote item k) = inr e
             ∧ Verify.is_rate_limit e = true) →
  ∃ e, Backoff.r_verdict (Verify.analyze_puzzle remote fs item) = Backoff.GaveUp e
       ∧ Verify.is_rate_limit e = true.
Proof.
  intros Hall. unfold Verify.analyze_puzzle.
  set (target := λ k : nat, Verify.analyze_puzzle_body fs item (remote item k)).
  assert (H8 : (1 ≤ Backoff.MAX_TRIES)%nat).
  { unfold Backoff.MAX_TRIES. lia. }
  pose proof (on_exception_last Backoff.MAX_TRIES Backoff.BASE Backoff.MAX_TIME
                (λ _, false) Backoff.no_jitter target H8) as Hlast.
  set (n := Backoff.tries_of _) in Hlast.
  destruct (Hall n) as (e & He & Hrl).
  unfold target at 1 in Hlast. unfold Verify.analyze_puzzle_body in Hlast. simpl in Hlast.
  rewrite He, Hrl in Hlast. eauto.
Qed.

(** C6 fails in the verify stage.  Item 5 always meets a rate-limit
    error: after 8 attempts the exception leaves [analyze_puzzle] and
    the worker, [process_batch] ends with it, no record is stored for
    item 5 and nothing is saved; with the tasks run one after the
    other, item 6 is not reached. *)
Theorem C6_verify_raises_past_boundary :
  let outfile := Path "data/step1" "1.4_verify" ".json" in
  let item5 := JObj (Some 5) [("image", JStr "images/image_5.png")] in
  let item6 := JObj (Some 6) [("image", JStr "images/image_6.png")] in
  let fs := FS {["data/step1"]} ∅ {["images/image_5.png"; "images/image_6.png"]} in
  let remote := λ (it : jobj) (_ : nat),
    if bool_decide (oid it = Some 5)
    then Backoff.Attempt (inr "Error code: 429 - rate_limit_error") 1 0
    else Backoff.Attempt (inl "<answer>A</answer>") 1 0 in
  Backoff.tries_of (Verify.analyze_puzzle remote fs item5) = 8%nat
  ∧ Backoff.r_verdict (Verify.analyze_puzzle remote fs item5)
    = Backoff.GaveUp "Error code: 429 - rate_limit_error"
  ∧ Verify.process_batch 100 outfile remote id [item5; item6] (init_world fs)
    = Raise "Error code: 429 - rate_limit_error"
        (World ∅ 0 false fs [EvDispatch (Some 5)]).
Proof. repeat split; vm_compute; reflexivity. Qed.

(** ** The update and the save it triggers (C9) *)

(** The slip the amended claim leaves out: from the threshold on, the
    rewrite stage calls its save while it holds the lock the save
    needs, and the worker waits for ever; nothing is saved and the
    counter is not reset. *)
Lemma rewrite_record_result_blocks save_interval output id r w :
  w_lock w = false → save_interval ≤ w_counter w + 1 →
  Rewrite.record_result save_interval output id r w
  = Blocked (set_lock true (stored id r w)).
Proof.
  intros Hl Hc. rewrite record_result_run by exact Hl.
  rewrite bool_decide_eq_true_2 by exact Hc. reflexivity.
Qed.

Example rewrite_blocks_at_first_periodic_save :
  let p := Path "data/step1" "1.2_claude_rewrite" ".json" in
  let item := JObj (Some 1) [("explanation", JStr "x")] in
  let fs := FS {["data/step1"]} ∅ ∅ in
  let remote := λ (_ : jobj) (_ : nat), Backoff.Attempt (inl "t") 1 0 in
  Rewrite.main 1 p remote id [item] (init_world fs)
  = Blocked (World {[Some 1 := JObj (Some 1) [("translation", JStr "t")]]} 1 true fs
               [EvNoCheckpoint; EvDispatch (Some 1); EvWarnNoTag (Some 1)]).
Proof. vm_compute. reflexivity. Qed.

(** C9 fails in the verify stage: there is no counter of completions;
    with two loaded records and an interval of 3 the first completion
    already asks for a save, and the critical section ends, lock
    released and nothing written, before that save runs. *)
Lemma C9_counterexample :
  let p := Path "data/step1" "1.4_verify" ".json" in
  let rec1 := JObj (Some 1) [("answer", JStr "A")] in
  let rec2 := JObj (Some 2) [("answer", JStr "B")] in
  let rec3 := JObj (Some 3) [("answer", JStr "C")] in
  let fs := FS {["data/step1"]} {[p := JsonArray [rec1; rec2]]} ∅ in
  let w := World (<[Some 1 := rec1]> (<[Some 2 := rec2]> ∅)) 0 false fs [] in
  Verify.store_result 3 (Some 3) rec3 w
  = Ret true (World (<[Some 3 := rec3]> (<[Some 1 := rec1]> (<[Some 2 := rec2]> ∅))) 0 false fs [])
  ∧ Spec.counter_policy 3 0 = (false, 1).
Proof. split; vm_compute; reflexivity. Qed.

(** C9, amended: with the lock free, the update of the rewrite stage
    stores the record and increments the counter of completions since
    the last save inside one critical section, and below the save
    interval does nothing else.  The verify stage has no such counter:
    inside its critical section it stores the record and asks for a
    save exactly when the size of the CheckpointSet is a multiple of the
    interval; the save runs after the lock is released and writes the
    sorted snapshot, which contains the new record. *)
Theorem C9_update_and_save_trigger
    (save_interval : Z) (p : path) (id : ident) (r : jobj) (w : world) :
  w_lock w = false →
  (w_counter w + 1 < save_interval →
   Rewrite.record_result save_interval p id r w
   = Ret tt (set_counter (w_counter w + 1)
              (set_results (λ results, <[id := r]> results) w)))
  ∧ (save_interval ≠ 0 →
     let need_save :=
       bool_decide (Z.of_nat (size (<[id := r]> (w_results w))) `mod` save_interval = 0) in
     let w1 := set_results (λ results, <[id := r]> results) w in
     Verify.store_result save_interval id r w = Ret need_save w1
     ∧ ∀ remote item,
         Backoff.r_verdict (Verify.analyze_puzzle remote (w_fs w) item) = Backoff.Returned r →
         oid item = id → is_Some id →
         Verify.worker save_interval p remote item w
         = if need_save
           then Ret tt (add_event (EvSaved p (length (snapshot_sorted (w_results w1))))
                          (set_fs (λ fs, FS ({[pdir p]} ∪ fs_dirs fs)
                                     (<[p := JsonArray (snapshot_sorted (w_results w1))]>
                                        (fs_files fs))
                                     (fs_images fs)) w1))
           else Ret tt w1).
Proof.
  intros Hl. split.
  - intros Hc. rewrite record_result_run by exact Hl.
    rewrite bool_decide_eq_false_2 by lia. reflexivity.
  - intros Hne. cbv zeta. split.
    + apply verify_store_result_run; assumption.
    + intros remote item Hv Hid [z Hz]. rewrite Hz in Hid.
      rewrite (verify_worker_returned _ _ _ _ _ _ _ Hv Hid). rewrite <- Hz.
      rewrite verify_store_result_run by assumption.
      destruct (bool_decide (Z.of_nat (size (<[id := r]> (w_results w))) `mod` save_interval = 0));
        [|reflexivity].
      apply verify_save_run. destruct w; exact Hl.
Qed.

Lemma C9_update_and_save_trigger_witness :
  let p := Path "data/step1" "1.2_claude_rewrite" ".json" in
  let r := JObj (Some 1) [("translation", JStr "t")] in
  let w := World ∅ 0 false (FS {["data/step1"]} ∅ ∅) [] in
  Rewrite.record_result 100 p (Some 1) r w
  = Ret tt (World {[Some 1 := r]} 1 false (FS {["data/step1"]} ∅ ∅) []).
Proof.
  intros p r w.
  apply (proj1 (C9_update_and_save_trigger 100 p (Some 1) r w eq_refl)).
  vm_compute. reflexivity.
Defined.


(** * Further properties of the stages *)

(** ** Loading a checkpoint *)

Lemma load_records_snoc (b : bool) (L : list jobj) (x : jobj) (m : gmap ident jobj) :
  load_records b (L ++ [x]) m
  = (if b && negb (bool_decide (is_Some (oid x))) then load_records b L m
     else <[oid x := x]> (load_records b L m)).
Proof. unfold load_records. rewrite foldl_app. reflexivity. Qed.

Lemma load_records_lookup (b : bool) (L : list jobj) (m : gmap ident jobj) (k : ident) :
  load_records b L m !! k
  = if b && negb (bool_decide (is_Some k)) then m !! k
    else match last_with_id k L with Some r => Some r | None => m !! k end.
Proof.
  induction L as [|x L IH] using rev_ind; [destruct (b && _); reflexivity|].
  rewrite load_records_snoc. unfold last_with_id in *. rewrite filter_app.
  rewrite filter_cons, filter_nil.
  destruct (decide (oid x = k)) as [->|Hne].
  - rewrite last_snoc.
    destruct (b && negb (bool_decide (is_Some k))) eqn:E; [exact IH|].
    apply lookup_insert_eq.
  - rewrite app_nil_r.
    destruct (b && negb (bool_decide (is_Some (oid x)))); [exact IH|].
    rewrite lookup_insert_ne by exact Hne. exact IH.
Qed.

(** X1: loading never fails and never touches the file system.
    After it, an identifier maps to the last record of the file that
    carries it; where the file has none (or is missing, empty or
    unreadable) the CheckpointSet is as before.  The thread-pool stages
    skip the records without identifier, the batch stages store them
    under [None]. *)
Theorem load_gives_last_record_per_identifier (p : path) (w : world) (k : ident) :
  let found q := from_option Some (w_results w !! k) (last_with_id k (records_of (w_fs w) q)) in
  (∃ w1, Rewrite.load_existing p w = Ret tt w1 ∧ w_fs w1 = w_fs w
         ∧ w_results w1 !! k
           = if bool_decide (is_Some k) then found (Rewrite.intermediate_output_file p)
             else w_results w !! k)
  ∧ (∃ w1, Verify._load p w = Ret tt w1 ∧ w_fs w1 = w_fs w
           ∧ w_results w1 !! k
             = if bool_decide (is_Some k) then found p else w_results w !! k)
  ∧ (∃ w1, Batch._load p w = Ret tt w1 ∧ w_fs w1 = w_fs w
           ∧ w_results w1 !! k = found p).
Proof.
  intros found.
  assert (H : ∀ b s q,
    w_results (after_load b s q w) !! k
    = if b && negb (bool_decide (is_Some k)) then w_results w !! k else found q).
  { intros b s q. rewrite after_load_results. unfold found, records_of.
    destruct (fs_files (w_fs w) !! q) as [[recs| |]|];
      try (destruct (b && negb (bool_decide (is_Some k))); reflexivity).
    rewrite load_records_lookup.
    destruct (b && negb (bool_decide (is_Some k))); [reflexivity|].
    destruct (last_with_id k recs); reflexivity. }
  split; [|split].
  - eexists. split; [apply rewrite_load_run|]. split; [apply after_load_fs|].
    rewrite H. simpl. destruct (bool_decide (is_Some k)); reflexivity.
  - eexists. split; [apply verify_load_run|]. split; [apply after_load_fs|].
    rewrite H. simpl. destruct (bool_decide (is_Some k)); reflexivity.
  - eexists. split; [apply batch_load_run|]. split; [apply after_load_fs|].
    rewrite H. reflexivity.
Qed.

(** ** The rewrite stage: the periodic save and the final save *)

Lemma already_done_insert_ne results k r k' :
  k ≠ k' → Rewrite.already_done (<[k := r]> results) k' = Rewrite.already_done results k'.
Proof. intros Hne. unfold Rewrite.already_done. rewrite lookup_insert_ne by exact Hne. reflexivity. Qed.

(** Once the counter can reach the save interval, the pool stops at the
    task that reaches it: the task waits for the lock it holds. *)
Lemma pool_blocks save_interval output remote items w :
  w_lock w = false →
  NoDup (oid <$> items) →
  (∀ item, item ∈ items → Rewrite.already_done (w_results w) (oid item) = false) →
  items ≠ [] →
  save_interval ≤ w_counter w + Z.of_nat (length items) →
  ∃ w', for_each items (pool_task save_interval output remote) w = Blocked w'
        ∧ w_lock w' = true ∧ w_fs w' = w_fs w.
Proof.
  revert w. induction items as [|item items IH]; intros w Hl Hnd Hnew Hne Hc; [congruence|].
  simpl in Hnd. apply NoDup_cons in Hnd as [Hitem Hnd].
  simpl for_each. unfold mbind, prog_bind.
  rewrite pool_task_run by exact Hl. cbv zeta.
  rewrite (Hnew item) by left.
  generalize (rewrite_outcome remote item). intros [result evs]. cbn [fst snd].
  destruct (bool_decide (save_interval ≤ w_counter w + 1)) eqn:Ereach.
  - eexists. split; [reflexivity|]. unfold stored.
    cbn [w_lock w_fs set_lock set_counter set_results].
    rewrite foldl_add_event_fs. split; reflexivity.
  - apply bool_decide_eq_false_1 in Ereach. simpl length in Hc.
    set (w1 := stored (oid item) result
                 (foldl (λ w' e, add_event e w') (add_event (EvDispatch (oid item)) w) evs)).
    assert (Hl1 : w_lock w1 = false).
    { unfold w1, stored. cbn [w_lock set_counter set_results].
      rewrite foldl_add_event_lock. exact Hl. }
    assert (Hc1 : w_counter w1 = w_counter w + 1).
    { unfold w1, stored. cbn [w_counter set_counter set_results].
      rewrite foldl_add_event_counter. reflexivity. }
    assert (Hr1 : w_results w1 = <[oid item := result]> (w_results w)).
    { unfold w1, stored. cbn [w_results set_counter set_results].
      rewrite foldl_add_event_results. reflexivity. }
    assert (Hf1 : w_fs w1 = w_fs w).
    { unfold w1, stored. cbn [w_fs set_counter set_results].
      rewrite foldl_add_event_fs. reflexivity. }
    destruct (IH w1 Hl1 Hnd) as (w' & Hrun & Hl' & Hf').
    + intros item' Hin. rewrite Hr1, already_done_insert_ne; [apply Hnew; right; exact Hin|].
      intros Heq. apply Hitem. rewrite Heq. apply list_elem_of_fmap. eauto.
    + destruct items; [simpl in Hc; lia | discriminate].
    + rewrite Hc1. lia.
    + exists w'. split; [exact Hrun|]. split; [exact Hl' | congruence].
Qed.

(** X2: a run of the rewrite stage whose work list is at least as long
    as the save interval never ends: the task that brings the counter to
    the interval calls the save while it holds the lock the save needs.
    Nothing is ever written. *)
Theorem rewrite_run_blocks_at_save_interval
    (save_interval : Z) (output : path) (remote : jobj → nat → Backoff.attempt string)
    (schedule : list jobj → list jobj) (data : list jobj) (fs : filesys) :
  (∀ l, schedule l ≡ₚ l) →
  let loaded := w_results (final_world (Rewrite.load_existing output (init_world fs))) in
  let todo := Rewrite.items_to_process data loaded in
  NoDup (oid <$> todo) → todo ≠ [] → save_interval ≤ Z.of_nat (length todo) →
  ∃ w', Rewrite.main save_interval output remote schedule data (init_world fs) = Blocked w'
        ∧ w_lock w' = true ∧ w_fs w' = fs.
Proof.
  intros Hsched loaded todo. subst todo loaded.
  rewrite rewrite_load_run. cbn [final_world].
  rewrite main_unfold. cbv zeta.
  set (w1 := after_load true false (Rewrite.intermediate_output_file output) (init_world fs)).
  set (todo := Rewrite.items_to_process data (w_results w1)).
  intros Hnd Hne Hlen.
  assert (Hl1 : w_lock w1 = false) by (unfold w1; rewrite after_load_lock; reflexivity).
  assert (Hc1 : w_counter w1 = 0) by (unfold w1; rewrite after_load_counter; reflexivity).
  assert (Hf1 : w_fs w1 = fs) by (unfold w1; rewrite after_load_fs; reflexivity).
  destruct (pool_blocks save_interval output remote (schedule todo) w1 Hl1) as (w' & Hrun & Hl' & Hf').
  - rewrite Hsched. exact Hnd.
  - intros item Hin. rewrite Hsched in Hin. unfold todo, Rewrite.items_to_process in Hin.
    apply list_elem_of_filter in Hin as [Hnot _].
    destruct (Rewrite.already_done (w_results w1) (oid item)); [contradiction Hnot; exact I | reflexivity].
  - intros Hnil. apply Hne. apply Permutation_nil. rewrite <- (Hsched todo), Hnil. reflexivity.
  - rewrite Hsched, Hc1. lia.
  - exists w'. split; [|split; [exact Hl' | congruence]].
    apply bind_Blocked. unfold dispatch.
    destruct todo as [|x todo']; [congruence | exact Hrun].
Qed.

Lemma rewrite_run_blocks_at_save_interval_witness :
  let output := Path "data/step1" "1.2_claude_rewrite" ".json" in
  let item1 := JObj (Some 1) [("explanation", JStr "a")] in
  let item2 := JObj (Some 2) [("explanation", JStr "b")] in
  let remote := λ (_ : jobj) (_ : nat), Backoff.Attempt (inl "t") 1 0 in
  let fs := FS {["data/step1"]} ∅ ∅ in
  ∃ w', Rewrite.main 2 output remote id [item1; item2] (init_world fs) = Blocked w'
        ∧ w_lock w' = true ∧ w_fs w' = fs.
Proof.
  intros output item1 item2 remote fs.
  apply (rewrite_run_blocks_at_save_interval 2 output remote id [item1; item2] fs).
  - intros l. reflexivity.
  - vm_compute. repeat constructor; set_solver.
  - vm_compute. discriminate.
  - vm_compute. discriminate.
Defined.




(** ** One item's outcome does not depend on the others *)

(** The retry loop only looks at the answers it is given. *)
Lemma retry_ext {A} max_tries base max_time giveup jitter
    (target1 target2 : nat → Backoff.attempt A) fuel tries elapsed :
  (∀ k, target1 k = target2 k) →
  Backoff.retry max_tries base max_time giveup jitter target1 fuel tries elapsed
  = Backoff.retry max_tries base max_time giveup jitter target2 fuel tries elapsed.
Proof.
  intros Hext. revert tries elapsed. induction fuel as [|fuel IH]; intros tries elapsed;
    [reflexivity|].
  rewrite !retry_S, <- Hext.
  destruct (Backoff.att_result (target1 (S tries))) as [r|e]; [reflexivity|].
  destruct (giveup e || (S tries =? max_tries)%nat || Qle_bool max_time elapsed);
    [reflexivity|].
  cbv zeta. rewrite IH. reflexivity.
Qed.

(** Tasks leave the records of other identifiers alone. *)
Lemma pool_leaves_other_records save_interval output remote items w w' (k : ident) :
  w_lock w = false → (∀ y, y ∈ items → oid y ≠ k) →
  for_each items (pool_task save_interval output remote) w = Ret tt w' →
  w_results w' !! k = w_results w !! k.
Proof.
  revert w. induction items as [|y items IH]; intros w Hl Hne Hrun.
  - injection Hrun as <-. reflexivity.
  - simpl for_each in Hrun. apply bind_Ret_inv in Hrun as ([] & w1 & Htask & Hrest).
    pose proof (pool_task_lock _ _ _ _ _ _ Hl Htask) as Hl1.
    rewrite (IH w1 Hl1 (λ z Hz, Hne z (list_elem_of_further _ _ _ Hz)) Hrest).
    rewrite pool_task_run in Htask by exact Hl. cbv zeta in Htask.
    destruct (Rewrite.already_done (w_results w) (oid y)).
    + injection Htask as <-. reflexivity.
    + destruct (bool_decide (save_interval ≤ w_counter w + 1)); [discriminate|].
      injection Htask as <-. unfold stored. cbn [w_results set_counter set_results].
      rewrite foldl_add_event_results. cbn [w_results add_event].
      apply lookup_insert_ne, Hne. left.
Qed.

Lemma pool_records save_interval output remote items w w' :
  w_lock w = false →
  NoDup (oid <$> items) →
  (∀ item, item ∈ items → Rewrite.already_done (w_results w) (oid item) = false) →
  for_each items (pool_task save_interval output remote) w = Ret tt w' →
  ∀ item, item ∈ items → w_results w' !! oid item = Some (rewrite_outcome remote item).1.
Proof.
  revert w. induction items as [|x items IH]; intros w Hl Hnd Hnew Hrun item Hin;
    [inversion Hin|].
  simpl in Hnd. apply NoDup_cons in Hnd as [Hx Hnd].
  simpl for_each in Hrun. apply bind_Ret_inv in Hrun as ([] & w1 & Htask & Hrest).
  pose proof (pool_task_lock _ _ _ _ _ _ Hl Htask) as Hl1.
  rewrite pool_task_run in Htask by exact Hl. cbv zeta in Htask.
  rewrite (Hnew x) in Htask by left.
  destruct (bool_decide (save_interval ≤ w_counter w + 1)); [discriminate|].
  injection Htask as Hw1.
  assert (Hr1 : w_results w1 = <[oid x := (rewrite_outcome remote x).1]> (w_results w)).
  { rewrite <- Hw1. unfold stored. cbn [w_results set_counter set_results].
    rewrite foldl_add_event_results. reflexivity. }
  assert (Hnotin : ∀ y, y ∈ items → oid y ≠ oid x).
  { intros y Hy Heq. apply Hx. rewrite <- Heq. apply list_elem_of_fmap. eauto. }
  apply elem_of_cons in Hin as [->|Hin].
  - rewrite (pool_leaves_other_records _ _ _ _ _ _ _ Hl1 Hnotin Hrest).
    rewrite Hr1. apply lookup_insert_eq.
  - apply (IH w1 Hl1 Hnd); [|exact Hrest|exact Hin].
    intros y Hy. rewrite Hr1. unfold Rewrite.already_done.
    rewrite lookup_insert_ne by (apply not_eq_sym, Hnotin, Hy). apply (Hnew y). right. exact Hy.
Qed.

(** X4: failure isolation in the rewrite stage.  With pairwise
    different identifiers in the work list, the record a run stores for
    an item is decided by the provider's answers to that item alone:
    two runs over providers that agree on the item store the same record
    for it, whatever happens to the other items and in whatever order
    the tasks complete. *)
Theorem rewrite_record_depends_on_its_item_only
    (save_interval : Z) (output : path) (remote1 remote2 : jobj → nat → Backoff.attempt string)
    (schedule1 schedule2 : list jobj → list jobj) (data : list jobj) (fs : filesys)
    (item : jobj) (w1 w2 : world) :
  (∀ l, schedule1 l ≡ₚ l) → (∀ l, schedule2 l ≡ₚ l) →
  let todo := Rewrite.items_to_process data
                (w_results (final_world (Rewrite.load_existing output (init_world fs)))) in
  NoDup (oid <$> todo) → item ∈ todo →
  (∀ k, remote1 item k = remote2 item k) →
  Rewrite.main save_interval output remote1 schedule1 data (init_world fs) = Ret tt w1 →
  Rewrite.main save_interval output remote2 schedule2 data (init_world fs) = Ret tt w2 →
  w_results w1 !! oid item = w_results w2 !! oid item
  ∧ is_Some (w_results w1 !! oid item).
Proof.
  intros Hs1 Hs2 todo. subst todo. rewrite rewrite_load_run. cbn [final_world].
  set (w0 := after_load true false (Rewrite.intermediate_output_file output) (init_world fs)).
  intros Hnd Hin Hagree Hrun1 Hrun2.
  assert (Hl0 : w_lock w0 = false) by (unfold w0; rewrite after_load_lock; reflexivity).
  assert (Hrec : ∀ remote schedule w',
            (∀ l, schedule l ≡ₚ l) →
            Rewrite.main save_interval output remote schedule data (init_world fs) = Ret tt w' →
            w_results w' !! oid item = Some (rewrite_outcome remote item).1).
  { intros remote schedule w' Hs Hrun. rewrite main_unfold in Hrun. cbv zeta in Hrun.
    fold w0 in Hrun.
    apply bind_Ret_inv in Hrun as ([] & wa & Hdisp & Hrun).
    apply bind_Ret_inv in Hrun as ([] & wb & Hsave & Hfin).
    destruct (dispatch_post _ _ _ _ _ _ _ Hl0 Hdisp) as [Hla _].
    destruct (rewrite_save_results _ _ _ Hla Hsave) as [Hresb _].
    apply rewrite_finalize_results in Hfin. rewrite Hfin, Hresb.
    unfold dispatch in Hdisp.
    destruct (Rewrite.items_to_process data (w_results w0)) as [|x todo] eqn:Etodo;
      [inversion Hin|].
    apply (pool_records save_interval output remote (schedule (x :: todo)) w0 wa Hl0).
    - rewrite Hs. exact Hnd.
    - intros y Hy. rewrite Hs, <- Etodo in Hy. unfold Rewrite.items_to_process in Hy.
      apply list_elem_of_filter in Hy as [Hnot _].
      destruct (Rewrite.already_done (w_results w0) (oid y)); [contradiction Hnot; exact I|].
      reflexivity.
    - exact Hdisp.
    - rewrite Hs. exact Hin. }
  rewrite (Hrec remote1 schedule1 w1 Hs1 Hrun1), (Hrec remote2 schedule2 w2 Hs2 Hrun2).
  split; [|eauto]. f_equal. f_equal.
  unfold rewrite_outcome, Rewrite.translate_with_retry, Backoff.on_exception.
  rewrite (retry_ext _ _ _ _ _ (remote1 item) (remote2 item) _ _ _ Hagree). reflexivity.
Qed.

Lemma rewrite_record_depends_on_its_item_only_witness :
  let output := Path "data/step1" "1.2_claude_rewrite" ".json" in
  let item1 := JObj (Some 1) [("explanation", JStr "a")] in
  let item2 := JObj (Some 2) [("explanation", JStr "b")] in
  let remote1 := λ (it : jobj) (_ : nat),
    if bool_decide (oid it = Some 2)
    then Backoff.Attempt (inr "overloaded_error") 1 0
    else Backoff.Attempt (inl "<translated_explanation>A</translated_explanation>") 1 0 in
  let remote2 := λ (_ : jobj) (_ : nat),
    Backoff.Attempt (inl "<translated_explanation>A</translated_explanation>") 1 0 in
  let fs := FS {["data/step1"]} ∅ ∅ in
  let run1 := Rewrite.main 100 output remote1 id [item1; item2] (init_world fs) in
  let run2 := Rewrite.main 100 output remote2 reverse [item1; item2] (init_world fs) in
  w_results (final_world run1) !! Some 1 = w_results (final_world run2) !! Some 1
  ∧ is_Some (w_results (final_world run1) !! Some 1).
Proof.
  intros output item1 item2 remote1 remote2 fs run1 run2.
  apply (rewrite_record_depends_on_its_item_only 100 output remote1 remote2 id reverse
           [item1; item2] fs item1 (final_world run1) (final_world run2)).
  - intros l. reflexivity.
  - intros l. apply reverse_Permutation.
  - vm_compute. repeat constructor; set_solver.
  - vm_compute. left.
  - intros k. reflexivity.
  - vm_compute. reflexivity.
  - vm_compute. reflexivity.
Defined.

(** ** Saving and loading again *)

Lemma filter_unique_key {A B} `{EqDecision B} (f : A → B) (l : list A) (x : A) :
  NoDup (f <$> l) → x ∈ l → filter (λ y, f y = f x) l = [x].
Proof.
  induction l as [|y l IH]; intros Hnd Hx; [inversion Hx|].
  simpl in Hnd. apply NoDup_cons in Hnd as [Hy Hnd].
  rewrite filter_cons. apply elem_of_cons in Hx as [->|Hx].
  - rewrite decide_True by reflexivity. f_equal.
    apply filter_Forall_nil. rewrite Forall_forall. intros z Hz Heq.
    apply Hy. rewrite <- Heq. apply list_elem_of_fmap. eauto.
  - rewrite decide_False; [apply IH; assumption|].
    intros Heq. apply Hy. rewrite Heq. apply list_elem_of_fmap. eauto.
Qed.

(** Loading the snapshot of a CheckpointSet gives the set back. *)
Lemma load_snapshot_roundtrip (b : bool) (m : gmap ident jobj) :
  keyed m → m !! None = None → load_records b (snapshot_sorted m) ∅ = m.
Proof.
  intros Hk Hnone. apply map_eq. intros k.
  rewrite load_records_lookup, lookup_empty. unfold last_with_id.
  assert (Hnd : NoDup (oid <$> snapshot_sorted m))
    by apply sorted_NoDup_oid, snapshot_sorted_strict, Hk.
  destruct (m !! k) as [r|] eqn:Er.
  - assert (Hkr : oid r = k) by (apply Hk; exact Er).
    assert (Hin : r ∈ snapshot_sorted m).
    { apply elem_of_snapshot_sorted. split; [eauto|].
      rewrite Hkr. destruct k; [eauto | congruence]. }
    rewrite <- Hkr. rewrite (filter_unique_key oid _ r Hnd Hin). simpl.
    rewrite Hkr. destruct k; [|congruence].
    rewrite bool_decide_eq_true_2 by eauto. rewrite andb_false_r. reflexivity.
  - rewrite filter_Forall_nil.
    + simpl. destruct (b && _); reflexivity.
    + rewrite Forall_forall. intros r Hr Heq.
      apply elem_of_snapshot_sorted in Hr as [[k' Hk'] _].
      rewrite <- (Hk k' r Hk'), Heq in Hk'. congruence.
Qed.

(** X5: what a save writes, a later run loads back: starting from
    the file system a save leaves, the load of the same stage rebuilds
    the CheckpointSet that was saved.  (The rewrite stage saves only
    into an existing directory.) *)
Theorem save_then_load_restores_checkpoint (p : path) (w : world) :
  w_lock w = false → keyed (w_results w) → w_results w !! None = None →
  (pdir p ∈ fs_dirs (w_fs w) →
   ∃ w1 w2, Rewrite.save_intermediate_results_local p w = Ret tt w1
            ∧ Rewrite.load_existing p (init_world (w_fs w1)) = Ret tt w2
            ∧ w_results w2 = w_results w)
  ∧ (∃ w1 w2, Verify._save p w = Ret tt w1
              ∧ Verify._load p (init_world (w_fs w1)) = Ret tt w2
              ∧ w_results w2 = w_results w)
  ∧ (∃ w1 w2, Batch._save p w = Ret tt w1
              ∧ Batch._load p (init_world (w_fs w1)) = Ret tt w2
              ∧ w_results w2 = w_results w).
Proof.
  intros Hl Hk Hnone. split; [|split].
  - intros Hdir. eexists _, _. split; [|split].
    + rewrite rewrite_save_run by exact Hl. rewrite bool_decide_eq_true_2 by exact Hdir.
      reflexivity.
    + apply rewrite_load_run.
    + rewrite after_load_results. cbn [w_fs init_world set_fs set_counter add_event fs_files].
      rewrite lookup_insert_eq. cbn [w_results].
      apply load_snapshot_roundtrip; assumption.
  - eexists _, _. split; [|split].
    + apply verify_save_run, Hl.
    + apply verify_load_run.
    + rewrite after_load_results. cbn [w_fs init_world set_fs add_event fs_files].
      rewrite lookup_insert_eq. cbn [w_results].
      apply load_snapshot_roundtrip; assumption.
  - eexists _, _. split; [|split].
    + apply batch_save_run; assumption.
    + apply batch_load_run.
    + rewrite after_load_results. cbn [w_fs init_world set_fs add_event fs_files].
      rewrite lookup_insert_eq. cbn [w_results].
      apply load_snapshot_roundtrip; assumption.
Qed.

Lemma save_then_load_restores_checkpoint_witness :
  let p := Path "data/step1" "1.4_verify" ".json" in
  let rec1 := JObj (Some 1) [("answer", JStr "A")] in
  let rec2 := JObj (Some 2) [("error", JStr "boom")] in
  let w := World (<[Some 2 := rec2]> (<[Some 1 := rec1]> ∅)) 0 false (FS ∅ ∅ ∅) [] in
  ∃ w1 w2, Verify._save p w = Ret tt w1
           ∧ Verify._load p (init_world (w_fs w1)) = Ret tt w2
           ∧ w_results w2 = w_results w.
Proof.
  intros p rec1 rec2 w.
  apply (proj1 (proj2 (save_then_load_restores_checkpoint p w eq_refl
    ltac:(intros k r; unfold w; cbn [w_results];
          rewrite !lookup_insert; repeat case_decide; try (intros [= <-]; subst; reflexivity);
          rewrite lookup_empty; discriminate)
    eq_refl))).
Defined.

(** ** Items the verify stage rejects before any request *)

Module MarkerFacts.
Import Text TextFacts.
Local Open Scope string_scope.







End MarkerFacts.



(** ** Items without identifier in the verify stage *)

(** X7: in the verify stage an input item whose identifier is
    [null] is scheduled by every run, whatever the checkpoint file holds; the
    worker analyses it like any other item and then drops the result
    with a warning: nothing is stored and nothing is saved. *)
Theorem verify_item_without_id_is_analysed_and_dropped
    (save_interval : Z) (outfile : path) (remote : jobj → nat → Backoff.attempt string)
    (data : list jobj) (fs : filesys) (item : jobj) :
  oid item = None →
  (item ∈ data →
   item ∈ Verify.items_to_process data
            (w_results (final_world (Verify._load outfile (init_world fs)))))
  ∧ (∀ w r, Backoff.r_verdict (Verify.analyze_puzzle remote (w_fs w) item) = Backoff.Returned r →
            Verify.worker save_interval outfile remote item w = Ret tt (add_event EvWarnNoId w)).
Proof.
  intros Hid. split.
  - intros Hin. unfold Verify.items_to_process. apply list_elem_of_filter.
    split; [|exact Hin]. rewrite Hid. apply not_elem_of_dom.
    rewrite verify_load_run. cbn [final_world]. rewrite after_load_results.
    destruct (fs_files (w_fs (init_world fs)) !! outfile) as [[recs| |]|];
      try apply lookup_empty.
    rewrite load_records_lookup. apply lookup_empty.
  - intros w r Hv. unfold Verify.worker. prog_unfold. rewrite Hv, Hid. reflexivity.
Qed.

Lemma verify_item_without_id_is_analysed_and_dropped_witness :
  let outfile := Path "data/step1" "1.4_verify" ".json" in
  let item := JObj None [("image", JStr "images/image_1.png")] in
  let fs := FS ∅ {[outfile := JsonArray [JObj None [("answer", JStr "A")]]]} {["images/image_1.png"]} in
  item ∈ Verify.items_to_process [item]
           (w_results (final_world (Verify._load outfile (init_world fs)))).
Proof.
  intros outfile item fs.
  apply (proj1 (verify_item_without_id_is_analysed_and_dropped 100 outfile
                  (λ _ _, Backoff.Attempt (inl "<answer>A</answer>") 1 0) [item] fs item eq_refl)).
  left.
Defined.

(** ** Loaded records are kept *)

Lemma keeps_stable loaded : stable (keeps loaded).
Proof. intros w w' Hres _ H k r Hk. rewrite Hres. apply H, Hk. Qed.

Lemma preserves_with_lock {A} I (body : prog A) :
  stable I → preserves I body → preserves I (with_lock body).
Proof.
  intros Hs Hbody w Hw. unfold with_lock. destruct (w_lock w); [exact Hw|].
  assert (Hw' : I (set_lock true w)) by (revert Hw; apply Hs; destruct w; reflexivity).
  specialize (Hbody _ Hw').
  destruct (body (set_lock true w)) as [a w1|e w1|w1]; simpl in *;
    try exact Hbody; revert Hbody; apply Hs; destruct w1; reflexivity.
Qed.

Lemma preserves_verify_save I p : stable I → preserves I (Verify._save p).
Proof.
  intros Hs. unfold Verify._save.
  apply preserves_bind.
  { apply preserves_with_lock; [exact Hs|].
    apply preserves_bind; [apply preserves_get | intros w; apply preserves_ret]. }
  intros sorted. apply preserves_try_except; [|intros e; apply preserves_emit, Hs].
  apply preserves_bind; [apply preserves_mkdir_parent, Hs|]. intros _.
  apply preserves_bind; [apply preserves_write_json, Hs|]. intros _.
  apply preserves_emit, Hs.
Qed.

Lemma preserves_at {A} I (m : prog A) w : preserves I m → I w → I (final_world (m w)).
Proof. intros Hm Hw. apply Hm, Hw. Qed.

Lemma verify_task_keeps save_interval outfile remote loaded item :
  oid item ∉ dom loaded →
  preserves (keeps loaded)
    (emit (EvDispatch (oid item));; Verify.worker save_interval outfile remote item).
Proof.
  intros Hnew. pose proof (keeps_stable loaded) as Hs.
  apply preserves_bind; [apply preserves_emit, Hs|]. intros _.
  unfold Verify.worker. apply preserves_bind; [apply preserves_get|]. intros w.
  apply preserves_bind.
  { destruct (Backoff.r_verdict _); [apply preserves_ret | apply preserves_raise..]. }
  intros result. apply preserves_bind.
  - destruct (oid item) as [z|] eqn:Ez.
    + unfold Verify.store_result. apply preserves_with_lock; [exact Hs|].
      apply preserves_bind.
      * apply preserves_modify. intros w' Hw' k r Hk.
        destruct w' as [res c lk fs lg]. cbn [w_results set_results].
        rewrite lookup_insert_ne; [apply Hw', Hk|].
        intros <-. apply Hnew. apply elem_of_dom. eauto.
      * intros _. apply preserves_bind; [apply preserves_get|]. intros w'.
        apply preserves_if; [apply preserves_raise | apply preserves_ret].
    + apply preserves_bind; [apply preserves_emit, Hs | intros _; apply preserves_ret].
  - intros need_save. apply preserves_if; [apply preserves_verify_save, Hs | apply preserves_ret].
Qed.

Lemma pool_task_keeps_done save_interval output remote loaded item w :
  w_lock w = false → keeps_done loaded w →
  keeps_done loaded (final_world (pool_task save_interval output remote item w)).
Proof.
  intros Hl Hw. rewrite pool_task_run by exact Hl. cbv zeta.
  generalize (rewrite_outcome remote item). intros [result evs]. cbn [fst snd].
  destruct (Rewrite.already_done (w_results w) (oid item)) eqn:Edone; [exact Hw|].
  assert (Hins : ∀ w1, w_results w1 = <[oid item := result]> (w_results w) → keeps_done loaded w1).
  { intros w1 Hw1 k r Hk Hr. rewrite Hw1.
    rewrite lookup_insert_ne; [apply Hw; assumption|].
    intros <-. unfold Rewrite.already_done in Edone.
    rewrite (Hw _ _ Hk Hr) in Edone. congruence. }
  destruct (bool_decide (save_interval ≤ w_counter w + 1)); apply Hins;
    unfold stored; cbn [final_world w_results set_lock set_counter set_results];
    rewrite foldl_add_event_results; reflexivity.
Qed.

Lemma pool_keeps_done save_interval output remote loaded items w :
  w_lock w = false → keeps_done loaded w →
  keeps_done loaded (final_world (for_each items (pool_task save_interval output remote) w)).
Proof.
  revert w. induction items as [|item items IH]; intros w Hl Hw; [exact Hw|].
  simpl for_each. unfold mbind, prog_bind.
  pose proof (pool_task_keeps_done save_interval output remote loaded item w Hl Hw) as Hk.
  destruct (pool_task save_interval output remote item w) as [[] w1|e w1|w1] eqn:Htask;
    cbn [final_world] in Hk |- *; try exact Hk.
  apply IH; [|exact Hk]. eapply pool_task_lock; eassumption.
Qed.

(** X8: a run never loses or changes what it loaded.  In the verify
    stage every loaded record is still in the CheckpointSet, unchanged,
    however the run ends; in the rewrite stage this holds for the loaded
    records that carry a translation or an error (a loaded record with
    neither is scheduled again and replaced). *)
Theorem run_keeps_loaded_records
    (save_interval : Z) (p : path) (remote : jobj → nat → Backoff.attempt string)
    (schedule : list jobj → list jobj) (data : list jobj) (fs : filesys) (k : ident) (r : jobj) :
  (∀ l, schedule l ≡ₚ l) →
  (w_results (final_world (Verify._load p (init_world fs))) !! k = Some r →
   w_results (final_world (Verify.process_batch save_interval p remote schedule data
                             (init_world fs))) !! k = Some r)
  ∧ (w_results (final_world (Rewrite.load_existing p (init_world fs))) !! k = Some r →
     Rewrite.done r = true →
     w_results (final_world (Rewrite.main save_interval p remote schedule data
                               (init_world fs))) !! k = Some r).
Proof.
  intros Hsched. split.
  - rewrite verify_load_run. cbn [final_world]. intros Hk.
    unfold Verify.process_batch. erewrite final_world_bind_Ret by apply verify_load_run.
    set (w1 := after_load true true p (init_world fs)) in *.
    set (L := w_results w1) in *.
    assert (H1 : keeps L w1) by (intros k' r' H; exact H).
    assert (Hs := keeps_stable L).
    refine (preserves_get_bind (keeps L) _ _ w1 H1 k r Hk).
    intros w Hw. cbv zeta.
    assert (Hdom : ∀ item, oid item ∉ dom (w_results w) → oid item ∉ dom L).
    { intros item Hnot Hin. apply Hnot. apply elem_of_dom in Hin as [r0 Hr].
      apply elem_of_dom. exists r0. apply Hw, Hr. }
    destruct (Verify.items_to_process data (w_results w)) as [|x todo] eqn:Etodo;
      (apply preserves_at; [|exact Hw]).
    + apply preserves_bind; [apply preserves_emit, Hs|]. intros _.
      apply preserves_if; [apply preserves_ret | apply preserves_verify_save, Hs].
    + apply preserves_bind; [|intros _; apply preserves_verify_save, Hs].
      apply preserves_for_each. intros item Hin. cbv beta.
      apply (verify_task_keeps save_interval p remote L item).
      rewrite Hsched, <- Etodo in Hin. unfold Verify.items_to_process in Hin.
      apply list_elem_of_filter in Hin as [Hnew _]. apply Hdom, Hnew.
  - rewrite rewrite_load_run. cbn [final_world]. intros Hk Hdone.
    rewrite main_unfold. cbv zeta.
    set (w1 := after_load true false (Rewrite.intermediate_output_file p) (init_world fs)) in *.
    assert (Hl1 : w_lock w1 = false) by (unfold w1; rewrite after_load_lock; reflexivity).
    assert (H1 : keeps_done (w_results w1) w1) by (intros k' r' H _; exact H).
    set (todo := Rewrite.items_to_process data (w_results w1)).
    assert (H2 : keeps_done (w_results w1)
                   (final_world (dispatch save_interval p remote schedule todo w1))).
    { unfold dispatch. destruct todo; [exact H1|]. apply pool_keeps_done; assumption. }
    unfold mbind at 1, prog_bind at 1.
    destruct (dispatch save_interval p remote schedule todo w1) as [[] w2|e w2|w2] eqn:Hd;
      cbn [final_world] in H2 |- *; try (apply H2; assumption).
    destruct (dispatch_post _ _ _ _ _ _ _ Hl1 Hd) as [Hl2 _].
    change (w_results (final_world
      ((Rewrite.save_intermediate_results_local p;; Rewrite.finalize p) w2)) !! k = Some r).
    unfold mbind, prog_bind. rewrite rewrite_save_run by exact Hl2.
    destruct (bool_decide (pdir p ∈ fs_dirs (w_fs w2))); rewrite rewrite_finalize_run;
      cbn [final_world].
    + match goal with |- w_results (match ?x with _ => _ end) !! _ = _ => destruct x end;
        [match goal with |- w_results (if ?b then _ else _) !! _ = _ => destruct b end|];
        apply H2; assumption.
    + match goal with |- w_results (match ?x with _ => _ end) !! _ = _ => destruct x end;
        [match goal with |- w_results (if ?b then _ else _) !! _ = _ => destruct b end|];
        apply H2; assumption.
Qed.

Lemma run_keeps_loaded_records_witness :
  let p := Path "data/step1" "1.4_verify" ".json" in
  let rec1 := JObj (Some 1) [("answer", JStr "A")] in
  let item1 := JObj (Some 1) [("image", JStr "images/image_1.png")] in
  let item2 := JObj (Some 2) [("image", JStr "images/image_2.png")] in
  let fs := FS {["data/step1"]} {[p := JsonArray [rec1]]} {["images/image_2.png"]} in
  let remote := λ (_ : jobj) (_ : nat), Backoff.Attempt (inl "<answer>B</answer>") 1 0 in
  w_results (final_world (Verify.process_batch 100 p remote id [item1; item2] (init_world fs)))
    !! Some 1 = Some rec1.
Proof.
  intros p rec1 item1 item2 fs remote.
  apply (proj1 (run_keeps_loaded_records 100 p remote id [item1; item2] fs (Some 1) rec1
                  (λ l, reflexivity l))).
  vm_compute. reflexivity.
Defined.

(** ** Extracting a tagged part of the response *)

Module StripFacts.
Import Text TextFacts.
Local Open Scope string_scope.

Lemma rstrip_idemp (s : string) : rstrip (rstrip s) = rstrip s.
Proof.
  induction s as [|c s IH]; [reflexivity|].
  cbn [rstrip]. destruct (rstrip s) as [|d t] eqn:E.
  - destruct (is_space c) eqn:Ec; [reflexivity|]. cbn [rstrip]. rewrite Ec. reflexivity.
  - change (rstrip (String c (String d t))) with
      (match rstrip (String d t) with
       | EmptyString => if is_space c then EmptyString else String c EmptyString
       | t' => String c t'
       end).
    rewrite IH. reflexivity.
Qed.

Lemma lstrip_rstrip_lstrip (s : string) : lstrip (rstrip (lstrip s)) = rstrip (lstrip s).
Proof.
  induction s as [|c s IH]; [reflexivity|].
  cbn [lstrip]. destruct (is_space c) eqn:Ec; [exact IH|].
  cbn [rstrip]. destruct (rstrip s) as [|d t]; rewrite ?Ec; cbn [lstrip]; rewrite Ec; reflexivity.
Qed.

Lemma strip_idemp (s : string) : strip (strip s) = strip s.
Proof. unfold strip. rewrite lstrip_rstrip_lstrip. apply rstrip_idemp. Qed.

Lemma cut_here (sub s rest : string) :
  strip_prefix sub s = Some rest → cut sub s = Some (EmptyString, rest).
Proof. intros H. destruct s; simpl; simpl in H; rewrite H; reflexivity. Qed.

Lemma contains_cons_false (c0 c : ascii) (sub s : string) :
  contains (String c0 EmptyString) (String c s) = false →
  c0 ≠ c ∧ contains (String c0 EmptyString) s = false.
Proof.
  unfold contains. simpl cut.
  destruct (Ascii.eqb_spec c0 c) as [->|Hne]; [discriminate|].
  destruct (cut (String c0 EmptyString) s) as [[a b]|]; [discriminate|]. auto.
Qed.

(** The leftmost occurrence of [c0 sub] in a text whose beginning has
    no [c0] is where that beginning ends. *)
Lemma cut_leftmost (c0 : ascii) (sub pre rest : string) :
  contains (String c0 EmptyString) pre = false →
  cut (String c0 sub) (pre ++ String c0 sub ++ rest) = Some (pre, rest).
Proof.
  induction pre as [|c pre IH]; intros Hpre.
  - rewrite append_nil. apply cut_here. apply strip_prefix_Some. reflexivity.
  - apply (contains_cons_false c0 c sub) in Hpre as [Hne Hpre].
    rewrite append_cons. simpl cut.
    destruct (Ascii.eqb_spec c0 c) as [->|_]; [contradiction|].
    rewrite (IH Hpre). reflexivity.
Qed.

Lemma search_tag (tag pre body post : string) :
  contains "<" pre = false → contains "<" body = false →
  Verify.re_search_tag tag
    (pre ++ ("<" ++ tag ++ ">") ++ body ++ ("</" ++ tag ++ ">") ++ post) = Some body.
Proof.
  intros Hpre Hbody. unfold Verify.re_search_tag.
  change (String.append "<" (String.append tag ">")) with (String "<" (tag ++ ">")).
  change (String.append "</" (String.append tag ">")) with (String "<" (String "/" (tag ++ ">"))).
  change ("<" ++ tag ++ ">") with (String "<" (tag ++ ">")).
  change ("</" ++ tag ++ ">") with (String "<" (String "/" (tag ++ ">"))).
  rewrite (cut_leftmost "<" (tag ++ ">") pre _ Hpre).
  rewrite (cut_leftmost "<" (String "/" (tag ++ ">")) body _ Hbody). reflexivity.
Qed.

End StripFacts.

(** X9: when the response holds the tag pair around a body, with no
    ["<"] before the opening tag nor inside the body, every parser
    returns the body without its surrounding whitespace: the rewrite
    stage as the translation (and prints no warning), the verify stage
    and the batch stages as the entry of that tag. *)
Theorem parsers_extract_the_tagged_body (tag pre body post : string) :
  Text.contains "<" pre = false → Text.contains "<" body = false →
  let wrap t := pre +:+ ("<" +:+ t +:+ ">") +:+ body +:+ ("</" +:+ t +:+ ">") +:+ post in
  Rewrite.parse_translation (wrap "translated_explanation") = inl (Text.strip body, false)
  ∧ Verify.tag_or_empty tag (wrap tag) = inl (Text.strip body)
  ∧ Batch.grab (wrap tag) tag = Text.strip body.
Proof.
  intros Hpre Hbody wrap. subst wrap. cbv beta.
  pose proof (StripFacts.search_tag tag pre body post Hpre Hbody) as Htag.
  pose proof (StripFacts.search_tag "translated_explanation" pre body post Hpre Hbody) as Htr.
  split; [|split].
  - unfold Rewrite.parse_translation, Rewrite.re_search_translation.
    unfold Verify.re_search_tag in Htr.
    change (String.append "<" (String.append "translated_explanation" ">"))
      with "<translated_explanation>" in Htr.
    change (String.append "</" (String.append "translated_explanation" ">"))
      with "</translated_explanation>" in Htr.
    destruct (Text.cut "<translated_explanation>" _) as [[a rest]|]; [|discriminate].
    destruct (Text.cut "</translated_explanation>" rest) as [[b rest']|]; [|discriminate].
    injection Htr as ->. unfold group1_strip_or.
    rewrite bool_decide_eq_true_2 by eauto. cbn [group1].
    rewrite StripFacts.strip_idemp. reflexivity.
  - unfold Verify.tag_or_empty. rewrite Htag. unfold group1_strip_or.
    rewrite bool_decide_eq_true_2 by eauto. reflexivity.
  - unfold Batch.grab. rewrite Htag. reflexivity.
Qed.

Lemma parsers_extract_the_tagged_body_witness :
  Verify.tag_or_empty "answer" "I think so. <answer> B </answer> Done." = inl "B".
Proof.
  apply (proj1 (proj2 (parsers_extract_the_tagged_body "answer" "I think so. " " B " " Done."
                         eq_refl eq_refl))).
Defined.

(** ** The time budget of the retry loop *)

Section RetryBudget.
Import Backoff.
Context {A : Type}.
Variable max_tries : nat.
Variable base : Z.
Variable max_time : Q.
Variable giveup : exn → bool.
Variable jitter : Q → Q → Q.
Variable target : nat → attempt A.

Local Abbreviation retry := (Backoff.retry max_tries base max_time giveup jitter target).

Lemma retry_first_start fuel tries elapsed s :
  r_starts (retry fuel tries elapsed) !! 0%nat = Some s → s = elapsed.
Proof.
  destruct fuel as [|fuel]; [discriminate|]. rewrite retry_S.
  destruct (att_result (target (S tries))) as [r|e]; [intros [= <-]; reflexivity|].
  destruct (giveup e || (S tries =? max_tries)%nat || Qle_bool max_time elapsed);
    intros [= <-]; reflexivity.
Qed.

Lemma retry_next_start fuel tries elapsed i s :
  r_starts (retry fuel tries elapsed) !! S i = Some s →
  (s <= max_time + att_latency (target (tries + S i)%nat))%Q.
Proof.
  revert tries elapsed i. induction fuel as [|fuel IH]; intros tries elapsed i; [discriminate|].
  rewrite retry_S.
  destruct (att_result (target (S tries))) as [r|e]; [discriminate|].
  destruct (giveup e || (S tries =? max_tries)%nat || Qle_bool max_time elapsed);
    [discriminate|].
  cbv zeta. cbn [r_starts]. rewrite lookup_cons_ne_0 by discriminate. cbn [Nat.pred].
  destruct i as [|i].
  - intros Hs. apply retry_first_start in Hs. subst s.
    replace (tries + 1)%nat with (S tries) by lia.
    pose proof (Q.le_min_r (jitter (expo base (S tries - 1)) (att_random (target (S tries))))
                  (max_time - elapsed)) as Hmin.
    lra.
  - intros Hs. apply IH in Hs.
    replace (tries + S (S i))%nat with (S tries + S i)%nat by lia. exact Hs.
Qed.

Lemma on_exception_next_start i s :
  r_starts (Backoff.on_exception max_tries base max_time giveup jitter target) !! S i = Some s →
  (s <= max_time + att_latency (target (S i)))%Q.
Proof. unfold Backoff.on_exception. apply retry_next_start. Qed.

End RetryBudget.

(** X10: the retry loop keeps to its time budget up to one call: an
    attempt that follows another one starts at most 300 seconds, plus
    the time the preceding call took, after the first attempt. *)
Theorem retry_starts_within_time_budget
    (call : nat → Backoff.attempt string)
    (remote : jobj → nat → Backoff.attempt string) (fs : filesys) (item : jobj) :
  (∀ i s, Backoff.r_starts (Rewrite.translate_with_retry call) !! S i = Some s →
          (s <= 300 + Backoff.att_latency (call (S i)))%Q)
  ∧ (∀ i s, Backoff.r_starts (Verify.analyze_puzzle remote fs item) !! S i = Some s →
            (s <= 300 + Backoff.att_latency (remote item (S i)))%Q).
Proof.
  unfold Rewrite.translate_with_retry, Verify.analyze_puzzle. split; intros i s Hs.
  - exact (on_exception_next_start _ _ _ _ _ _ i s Hs).
  - exact (on_exception_next_start _ _ _ _ _
             (λ k, Verify.analyze_puzzle_body fs item (remote item k)) i s Hs).
Qed.

Lemma retry_starts_within_time_budget_witness :
  let call := λ k : nat,
    if (k <? 3)%nat
    then Backoff.Attempt (inr "Error code: 429 - rate_limit_error") 200 1
    else Backoff.Attempt (inl "ok") 1 1 in
  (403 # 1 <= 300 + 200)%Q.
Proof.
  intros call.
  apply (proj1 (retry_starts_within_time_budget call (λ _, call) (FS ∅ ∅ ∅) (JObj None []))
           1%nat (403 # 1)%Q).
  vm_compute. reflexivity.
Defined.

(** ** The chunks of a batch run *)

Lemma chunks_aux_concat {A} fuel n (l : list A) :
  (0 < n)%nat → (length l ≤ fuel)%nat → concat (Batch.chunks_aux fuel n l) = l.
Proof.
  intros Hn. revert l. induction fuel as [|fuel IH]; intros l Hlen.
  - destruct l; [reflexivity | simpl in Hlen; lia].
  - destruct l as [|x l]; [reflexivity|].
    cbn [Batch.chunks_aux concat]. rewrite IH.
    + apply take_drop.
    + rewrite length_drop. simpl in Hlen |- *. lia.
Qed.

Lemma chunks_aux_sizes {A} fuel n (l : list A) :
  (0 < n)%nat →
  Forall (λ c, (0 < length c ≤ n)%nat) (Batch.chunks_aux fuel n l).
Proof.
  intros Hn. revert l. induction fuel as [|fuel IH]; intros l; [constructor|].
  destruct l as [|x l]; [constructor|].
  cbn [Batch.chunks_aux]. constructor; [|apply IH].
  rewrite length_take. simpl length. lia.
Qed.

Lemma chunks_aux_count {A} fuel n (l : list A) :
  (0 < n)%nat → (length l ≤ fuel)%nat →
  length (Batch.chunks_aux fuel n l) = ((length l + n - 1) / n)%nat.
Proof.
  intros Hn. revert l. induction fuel as [|fuel IH]; intros l Hlen.
  - destruct l; [|simpl in Hlen; lia]. simpl.
    symmetry. apply Nat.div_small. lia.
  - destruct l as [|x l].
    + simpl. symmetry. apply Nat.div_small. lia.
    + cbn [Batch.chunks_aux length]. rewrite IH by (rewrite length_drop; simpl in *; lia).
      rewrite length_drop. cbn [length].
      destruct (decide (n ≤ S (length l))%nat) as [Hle|Hgt].
      * replace (S (length l) + n - 1)%nat with ((S (length l) - n + n - 1) + 1 * n)%nat by lia.
        rewrite Nat.div_add by lia. lia.
      * replace (S (length l) - n)%nat with 0%nat by lia.
        rewrite (Nat.div_small (0 + n - 1) n) by lia.
        assert (E : ((S (length l) + n - 1) / n = 1)%nat).
        { replace (S (length l) + n - 1)%nat with (length l + 1 * n)%nat by lia.
          rewrite Nat.div_add by lia. rewrite Nat.div_small by lia. reflexivity. }
        rewrite E. reflexivity.
Qed.

(** X11: the batch loop cuts the work list into consecutive slices:
    put back together they are the work list, each holds at least one
    and at most [batch_size] items, and their number is the total that
    the loop prints, [(len(todo) + batch_size - 1) // batch_size]. *)
Theorem chunks_partition_the_work_list {A} (n : nat) (todo : list A) :
  (0 < n)%nat →
  concat (Batch.chunks n todo) = todo
  ∧ Forall (λ c, (0 < length c ≤ n)%nat) (Batch.chunks n todo)
  ∧ length (Batch.chunks n todo) = ((length todo + n - 1) / n)%nat.
Proof.
  intros Hn. unfold Batch.chunks. split; [|split].
  - apply chunks_aux_concat; [exact Hn | reflexivity].
  - apply chunks_aux_sizes, Hn.
  - apply chunks_aux_count; [exact Hn | reflexivity].
Qed.

Lemma chunks_partition_the_work_list_witness :
  concat (Batch.chunks 2 [1; 2; 3; 4; 5]) = [1; 2; 3; 4; 5]
  ∧ Forall (λ c, (0 < length c ≤ 2)%nat) (Batch.chunks 2 [1; 2; 3; 4; 5])
  ∧ length (Batch.chunks 2 [1; 2; 3; 4; 5]) = ((5 + 2 - 1) / 2)%nat.
Proof.
  apply (chunks_partition_the_work_list 2 [1; 2; 3; 4; 5]). lia.
Defined.

(** ** Batch runs and the provider's failures *)

Section BatchSettles.
Variable save_interval : Z.
Variable out_path : path.
Variable provider : list ident → Batch.batch_reply.
Variable payload : jobj → string → list (string * jval).
Variable I : world → Prop.
Hypothesis I_stable : stable I.
Hypothesis I_insert : insert_closed I.

Lemma I_add_event w e : I w → I (add_event e w).
Proof. apply I_stable; destruct w; reflexivity. Qed.

Lemma I_foldl_events w evs : I w → I (foldl (λ w' e, add_event e w') w evs).
Proof.
  revert w. induction evs as [|e evs IH]; intros w Hw; simpl; [exact Hw|].
  apply IH, I_add_event, Hw.
Qed.

(** Handling the entries ends, normally or with an exception, in a
    state that satisfies the invariant. *)
Lemma handle_entries_settle id_map ents w :
  I w →
  match for_each ents (Batch.handle_entry payload id_map) w with
  | Ret _ w' | Raise _ w' => I w'
  | Blocked _ => False
  end.
Proof.
  revert w. induction ents as [|ent ents IH]; intros w Hw; [exact Hw|].
  simpl for_each. unfold mbind, prog_bind.
  assert (Hent : match Batch.handle_entry payload id_map ent w with
                 | Ret _ w' | Raise _ w' => I w'
                 | Blocked _ => False
                 end).
  { unfold Batch.handle_entry. destruct (Batch.custom_id ent) as [z|]; [|exact Hw].
    destruct (Batch.ent_result ent) as [txt|err].
    - destruct (id_map !! Some z) as [itm|]; [|exact Hw].
      apply I_insert; [exact Hw | reflexivity].
    - apply I_add_event, I_insert; [exact Hw | reflexivity]. }
  destruct (Batch.handle_entry payload id_map ent w) as [[] w1|e w1|w1];
    [apply IH, Hent | exact Hent | exact Hent].
Qed.

(** Whatever the provider does with a submission, the [try] statement
    around it completes. *)
Lemma submission_completes id_map reqs w :
  I w →
  ∃ w', try_except
          (emit (EvBatchCreate (omap id reqs));;
           for_each (Batch.br_entries (provider reqs)) (Batch.handle_entry payload id_map);;
           match Batch.br_failure (provider reqs) with
           | Some e => raise e
           | None => mret tt
           end)
          (λ e, emit (EvBatchError e)) w = Ret tt w'
        ∧ I w'.
Proof.
  intros Hw. unfold try_except.
  unfold mbind at 1, prog_bind at 1, emit at 1, modify at 1.
  pose proof (handle_entries_settle id_map (Batch.br_entries (provider reqs))
                (add_event (EvBatchCreate (omap id reqs)) w) (I_add_event _ _ Hw)) as Hs.
  unfold mbind, prog_bind.
  destruct (for_each (Batch.br_entries (provider reqs)) (Batch.handle_entry payload id_map)
              (add_event (EvBatchCreate (omap id reqs)) w)) as [[] w1|e w1|w1];
    [|eexists; split; [reflexivity | apply I_add_event, Hs] | contradiction].
  destruct (Batch.br_failure (provider reqs)) as [e|];
    eexists; (split; [reflexivity|]); [apply I_add_event, Hs | exact Hs].
Qed.

(** A chunk ends where the loop body ends, or in its save. *)
Lemma process_chunk_settles i chunk w :
  save_interval ≠ 0 → I w →
  ∃ w1 (saves : bool),
    I w1
    ∧ Batch.process_chunk save_interval out_path provider payload i chunk w
      = if saves then Batch._save out_path w1 else Ret tt w1.
Proof.
  intros Hsi Hw. unfold Batch.process_chunk.
  unfold mbind at 1, prog_bind at 1, get_world at 1.
  destruct (Batch.prepare_requests chunk (w_results w) (w_fs w)) as [[evs reqs] id_map].
  erewrite bind_Ret by apply add_events_foldl.
  set (w0 := foldl (λ w' e, add_event e w') w evs).
  assert (Hw0 : I w0) by apply I_foldl_events, Hw.
  destruct reqs as [|id0 reqs'].
  { exists (add_event EvNoValidRequests w0), false.
    split; [apply I_add_event, Hw0 | reflexivity]. }
  destruct (submission_completes id_map (id0 :: reqs') w0 Hw0) as (w1 & Htry & Hw1).
  rewrite (bind_Ret _ _ _ _ _ Htry).
  rewrite bool_decide_eq_false_2 by exact Hsi.
  exists w1, (bool_decide ((Z.of_nat i + 1) `mod` save_interval = 0)).
  split; [exact Hw1|].
  destruct (bool_decide ((Z.of_nat i + 1) `mod` save_interval = 0)); reflexivity.
Qed.

(** The loop over the chunks ends normally, or in a save that does not. *)
Lemma process_chunks_settle i cs w :
  save_interval ≠ 0 → I w →
  ∃ w1 (stops : bool),
    I w1
    ∧ Batch.process_chunks save_interval out_path provider payload i cs w
      = (if stops then Batch._save out_path w1 else Ret tt w1)
    ∧ (stops = true → ∀ w', Batch._save out_path w1 ≠ Ret tt w').
Proof.
  intros Hsi. revert i w. induction cs as [|c cs IH]; intros i w Hw.
  - exists w, false. split; [exact Hw|]. split; [reflexivity | discriminate].
  - cbn [Batch.process_chunks].
    destruct (process_chunk_settles i c w Hsi Hw) as (w1 & saves & Hw1 & Hrun).
    unfold mbind, prog_bind. rewrite Hrun. destruct saves; [|apply IH, Hw1].
    pose proof (preserves_batch_save I out_path I_stable w1 Hw1) as Hsaved.
    destruct (Batch._save out_path w1) as [[] w2|e w2|w2] eqn:Hsave.
    + apply IH, Hsaved.
    + exists w1, true. split; [exact Hw1|]. rewrite Hsave.
      split; [reflexivity | discriminate].
    + exists w1, true. split; [exact Hw1|]. rewrite Hsave.
      split; [reflexivity | discriminate].
Qed.

End BatchSettles.





(** *** A record without identifier in the checkpoint of a batch stage *)

Lemma has_null_record_stable : stable has_null_record.
Proof. intros w w' Hres _ H. unfold has_null_record. rewrite Hres. exact H. Qed.

Lemma has_null_record_insert_closed : insert_closed has_null_record.
Proof.
  intros w z r [(rn & Hn & Hon) (z0 & Hz0)] Hid. destruct w as [res c lk fs lg].
  unfold has_null_record. cbn [w_results set_results] in *. split.
  - exists rn. rewrite lookup_insert_ne by discriminate. auto.
  - destruct (decide (z = z0)) as [->|Hne].
    + exists z0. rewrite lookup_insert_eq. eauto.
    + exists z0. rewrite lookup_insert_ne by congruence. exact Hz0.
Qed.

(** With such a record and another one, [_save] empties the file and
    raises. *)
Lemma batch_save_wipes out_path w :
  has_null_record w →
  ∃ e w', Batch._save out_path w = Raise e w'
          ∧ fs_files (w_fs w') !! out_path = Some EmptyFile.
Proof.
  intros [(rn & Hn & Hon) (z0 & r0 & Hz0)].
  destruct w as [res c lk fs lg]. cbn [w_results] in *.
  unfold Batch._save. prog_unfold. unfold mkdir_parent, write_empty. prog_unfold.
  cbn [w_results w_fs set_fs fs_dirs fs_files fs_images].
  assert (Hlen : (2 ≤ length (map_to_list res).*2)%nat).
  { rewrite length_fmap, length_map_to_list.
    assert (Hsub : ({[None; Some z0]} : gset ident) ⊆ dom res).
    { intros k Hk. apply elem_of_dom.
      apply elem_of_union in Hk as [Hk|Hk]; apply elem_of_singleton in Hk; subst k; eauto. }
    apply subseteq_size in Hsub. rewrite size_dom in Hsub.
    rewrite size_union in Hsub by set_solver. rewrite !size_singleton in Hsub. lia. }
  assert (Hsome : forallb (λ r, bool_decide (is_Some (oid r))) (map_to_list res).*2 = false).
  { destruct (forallb _ _) eqn:E; [|reflexivity]. exfalso.
    rewrite forallb_forall in E.
    assert (Hin : rn ∈ (map_to_list res).*2) by (apply elem_of_values; eauto).
    apply list_elem_of_In in Hin. specialize (E rn Hin).
    apply bool_decide_eq_true_1 in E. rewrite Hon in E. destruct E; discriminate. }
  rewrite bool_decide_eq_true_2 by exact Hlen. rewrite Hsome. cbn [negb andb].
  rewrite bool_decide_eq_true_2 by set_solver.
  eexists _, _. split; [reflexivity|].
  cbn [w_fs set_fs fs_files]. apply lookup_insert_eq.
Qed.

(** X13: the save of the batch stages does not filter the records
    without identifier, and sorting them together with others raises
    after the output file has been opened for writing.  So a checkpoint
    file that holds a record whose identifier is null next to a record
    with an identifier is lost in the next run that has work to do: the
    run ends with the exception and leaves the output file empty. *)
Theorem batch_run_empties_checkpoint_with_null_identifier
    (batch_size save_interval : Z) (out_path : path) (provider : list ident → Batch.batch_reply)
    (payload : jobj → string → list (string * jval)) (items : list jobj) (fs : filesys)
    (recs : list jobj) (rn r0 : jobj) :
  batch_size ≠ 0 → save_interval ≠ 0 →
  fs_files fs !! out_path = Some (JsonArray recs) →
  rn ∈ recs → oid rn = None → r0 ∈ recs → is_Some (oid r0) →
  (∃ itm, itm ∈ items ∧ ∀ r, r ∈ recs → oid r ≠ oid itm) →
  ∃ e w', Batch.process_batch batch_size save_interval out_path provider payload items
            (init_world fs) = Raise e w'
          ∧ fs_files (w_fs w') !! out_path = Some EmptyFile.
Proof.
  intros Hbs Hsi Hfile Hrn Hnone Hr0 [z0 Hz0] (itm & Hitm & Hnew).
  unfold Batch.process_batch. erewrite bind_Ret by apply batch_load_run.
  unfold mbind at 1, prog_bind at 1, get_world at 1.
  set (w1 := after_load false true out_path (init_world fs)).
  assert (Hres1 : w_results w1 = load_records false recs ∅).
  { unfold w1. rewrite after_load_results. cbn [w_fs init_world]. rewrite Hfile. reflexivity. }
  assert (Hkeyed : keyed (w_results w1)).
  { rewrite Hres1. apply keyed_load_records, keyed_empty. }
  assert (Hdom : ∀ r, r ∈ recs → oid r ∈ dom (load_records false recs ∅)).
  { intros r Hr. apply elem_of_dom. rewrite load_records_lookup. cbn [andb].
    unfold last_with_id.
    assert (Hlast : is_Some (last (filter (λ r', oid r' = oid r) recs))).
    { apply last_is_Some. intros Hnil.
      assert (Hin : r ∈ filter (λ r', oid r' = oid r) recs)
        by (apply list_elem_of_filter; split; [reflexivity | exact Hr]).
      rewrite Hnil in Hin. inversion Hin. }
    destruct Hlast as [r' ->]. eauto. }
  assert (Hw1 : has_null_record w1).
  { split.
    - pose proof (Hdom rn Hrn) as H. rewrite Hnone in H. rewrite <- Hres1 in H.
      apply elem_of_dom in H as [r Hr]. exists r. split; [exact Hr|]. apply Hkeyed, Hr.
    - exists z0. pose proof (Hdom r0 Hr0) as H. rewrite Hz0 in H. rewrite <- Hres1 in H.
      apply elem_of_dom in H. exact H. }
  assert (Htodo : itm ∈ Batch.todo_of items (w_results w1)).
  { unfold Batch.todo_of. apply list_elem_of_filter. split; [|exact Hitm].
    intros Hin. apply elem_of_dom in Hin as [r Hr].
    pose proof (Hkeyed _ _ Hr) as Hid.
    assert (Hrin : r ∈ recs).
    { rewrite Hres1, load_records_lookup in Hr. cbn [andb] in Hr. unfold last_with_id in Hr.
      destruct (last (filter (λ r', oid r' = oid itm) recs)) as [r'|] eqn:El;
        [|rewrite lookup_empty in Hr; discriminate].
      injection Hr as ->. apply last_Some in El as [l' El].
      assert (Hin : r ∈ filter (λ r', oid r' = oid itm) recs)
        by (rewrite El; apply elem_of_app; right; left).
      apply list_elem_of_filter in Hin. tauto. }
    exact (Hnew r Hrin Hid). }
  destruct (Batch.todo_of items (w_results w1)) as [|x todo] eqn:Etodo; [inversion Htodo|].
  rewrite bool_decide_eq_false_2 by exact Hbs.
  assert (Hloop :
    (∃ w2, (if bool_decide (batch_size < 0) then mret tt
            else Batch.process_chunks save_interval out_path provider payload 0
                   (Batch.chunks (Z.to_nat batch_size) (x :: todo))) w1 = Ret tt w2
           ∧ has_null_record w2)
    ∨ (∃ w2, has_null_record w2
             ∧ (if bool_decide (batch_size < 0) then mret tt
                else Batch.process_chunks save_interval out_path provider payload 0
                       (Batch.chunks (Z.to_nat batch_size) (x :: todo))) w1
               = Batch._save out_path w2)).
  { destruct (bool_decide (batch_size < 0)); [left; exists w1; split; [reflexivity | exact Hw1]|].
    destruct (process_chunks_settle save_interval out_path provider payload
                has_null_record has_null_record_stable has_null_record_insert_closed
                0 (Batch.chunks (Z.to_nat batch_size) (x :: todo)) w1 Hsi Hw1)
      as (w2 & stops & Hw2 & Hrun & _).
    destruct stops; [right | left]; exists w2; split; assumption. }
  destruct Hloop as [(w2 & Hloop & Hw2)|(w2 & Hw2 & Hloop)];
    destruct (batch_save_wipes out_path w2 Hw2) as (e & w' & Hsave & Hfile');
    exists e, w'; (split; [|exact Hfile']).
  - erewrite bind_Ret by exact Hloop. exact Hsave.
  - apply bind_Raise. rewrite Hloop. exact Hsave.
Qed.

Lemma batch_run_empties_checkpoint_with_null_identifier_witness :
  let out_path := Path "data/step1_filtered" "1.6_rules_raw" ".json" in
  let rn := JObj None [("error", JStr "x")] in
  let r0 := JObj (Some 1) [("error", JStr "y")] in
  let item2 := JObj (Some 2) [("image", JStr "images/image_2.png")] in
  let provider := λ ids : list ident,
    Batch.Reply (map (λ i, Batch.Entry i (Batch.Succeeded "ok")) ids) None in
  let fs := FS {["data/step1_filtered"]} {[out_path := JsonArray [rn; r0]]}
               {["images/image_2.png"]} in
  ∃ e w', Batch.process_batch 20 20 out_path provider Batch.classification_payload [item2]
            (init_world fs) = Raise e w'
          ∧ fs_files (w_fs w') !! out_path = Some EmptyFile.
Proof.
  intros out_path rn r0 item2 provider fs.
  apply (batch_run_empties_checkpoint_with_null_identifier 20 20 out_path provider
           Batch.classification_payload [item2] fs [rn; r0] rn r0);
    [lia | lia | reflexivity | set_solver | reflexivity | set_solver | eauto |].
  exists item2. split; [set_solver|].
  intros r Hr. apply elem_of_cons in Hr as [->|Hr]; [discriminate|].
  apply elem_of_cons in Hr as [->|Hr]; [discriminate | inversion Hr].
Defined.

(** ** Merging the translations (stage 1.3) *)

Lemma has_key_assoc k (o : jobj) : has_key k o = true ↔ is_Some (assoc k (ofields o)).
Proof.
  unfold has_key. rewrite bool_decide_eq_true.
  induction (ofields o) as [|[k' v] fields IH]; cbn [fmap list_fmap assoc fst].
  - split; [intros H; inversion H | intros [? ?]; discriminate].
  - rewrite elem_of_cons, IH. destruct (String.eqb_spec k k') as [->|Hne].
    + split; [eauto | auto].
    + split; [intros [?|?]; [contradiction | assumption] | auto].
Qed.

Lemma set_field_keys k v fields : (Merge.set_field k v fields).*1 = fields.*1.
Proof.
  induction fields as [|[k' v'] fields IH]; [reflexivity|]. simpl.
  destruct (String.eqb k k'); simpl; [reflexivity | f_equal; exact IH].
Qed.

Lemma assoc_set_field_ne k k' v fields :
  k' ≠ k → assoc k' (Merge.set_field k v fields) = assoc k' fields.
Proof.
  intros Hne. induction fields as [|[k0 v0] fields IH]; [reflexivity|]. simpl.
  destruct (String.eqb_spec k k0) as [->|Hk]; simpl.
  - destruct (String.eqb_spec k' k0); [contradiction | reflexivity].
  - destruct (String.eqb k' k0); [reflexivity | exact IH].
Qed.

Lemma assoc_set_field_eq k v fields :
  is_Some (assoc k fields) → assoc k (Merge.set_field k v fields) = Some v.
Proof.
  induction fields as [|[k0 v0] fields IH]; simpl; [intros [? ?]; discriminate|].
  destruct (String.eqb_spec k k0) as [->|Hk]; simpl.
  - rewrite String.eqb_refl. reflexivity.
  - destruct (String.eqb_spec k k0); [contradiction | exact IH].
Qed.

Lemma set_field_idemp k v fields :
  Merge.set_field k v (Merge.set_field k v fields) = Merge.set_field k v fields.
Proof.
  induction fields as [|[k0 v0] fields IH]; [reflexivity|]. simpl.
  destruct (String.eqb k k0) eqn:E; simpl; rewrite E; [reflexivity | f_equal; exact IH].
Qed.

Lemma translations_map_lookup translations_data k :
  Merge.translations_map translations_data !! k = last_translation k translations_data.
Proof.
  unfold Merge.translations_map, last_translation.
  induction translations_data as [|r l IH] using rev_ind; [reflexivity|].
  rewrite foldl_app, omap_app. cbn [foldl]. simpl omap.
  destruct (assoc "translation" (ofields r)) as [t|] eqn:Et.
  - destruct (decide (oid r = k)) as [Heq|Hne].
    + rewrite last_snoc. rewrite Heq. apply lookup_insert_eq.
    + rewrite app_nil_r. rewrite lookup_insert_ne by exact Hne. exact IH.
  - destruct (decide (oid r = k)); rewrite app_nil_r; exact IH.
Qed.

(** What one iteration does to the entries of an item. *)
Lemma replace_item_fields m item :
  oid (Merge.replace_item m item) = oid item
  ∧ (ofields (Merge.replace_item m item)).*1 = (ofields item).*1
  ∧ (∀ k, k ≠ "explanation" →
          assoc k (ofields (Merge.replace_item m item)) = assoc k (ofields item))
  ∧ assoc "explanation" (ofields (Merge.replace_item m item))
    = match m !! oid item with
      | Some t => if bool_decide (is_Some (oid item)) && has_key "explanation" item
                  then Some t else assoc "explanation" (ofields item)
      | None => assoc "explanation" (ofields item)
      end.
Proof.
  unfold Merge.replace_item. destruct (oid item) as [z|] eqn:Eid.
  - destruct (m !! Some z) as [t|]; [|rewrite Eid; auto].
    rewrite bool_decide_eq_true_2 by eauto. cbn [andb].
    destruct (has_key "explanation" item) eqn:Ekey; [|rewrite Eid; auto].
    cbn [oid ofields]. split; [reflexivity|]. split; [apply set_field_keys|].
    split; [intros k Hk; apply assoc_set_field_ne, Hk|].
    apply assoc_set_field_eq, has_key_assoc, Ekey.
  - rewrite Eid. repeat split; try reflexivity.
    destruct (m !! None); reflexivity.
Qed.

(** X14: the merge of stage 1.3 succeeds when both input files hold
    JSON arrays and the directory of the output exists.  The output then
    holds one item per original item, in the same order, with the same
    identifier and the same keys; only the explanation can differ: for
    an item that has an identifier and an explanation it is the
    translation of the last record of the translations file that carries
    the item's identifier and a translation, if there is one. *)
Theorem merge_takes_the_last_translation
    (original translations output : path) (fs : filesys)
    (original_data translations_data : list jobj) :
  Merge.read_json fs original = Some original_data →
  Merge.read_json fs translations = Some translations_data →
  pdir output ∈ fs_dirs fs →
  ∃ result,
    Merge.replace_explanations original translations output fs
    = (true, FS (fs_dirs fs) (<[output := JsonArray result]> (fs_files fs)) (fs_images fs))
    ∧ length result = length original_data
    ∧ ∀ i item, original_data !! i = Some item →
        ∃ o, result !! i = Some o
             ∧ oid o = oid item
             ∧ (ofields o).*1 = (ofields item).*1
             ∧ (∀ k, k ≠ "explanation" → assoc k (ofields o) = assoc k (ofields item))
             ∧ assoc "explanation" (ofields o)
               = match last_translation (oid item) translations_data with
                 | Some t => if bool_decide (is_Some (oid item)) && has_key "explanation" item
                             then Some t else assoc "explanation" (ofields item)
                 | None => assoc "explanation" (ofields item)
                 end.
Proof.
  intros Horig Htrans Hdir. unfold Merge.replace_explanations.
  rewrite Horig, Htrans. rewrite bool_decide_eq_true_2 by exact Hdir.
  eexists. split; [reflexivity|]. split; [apply length_map|].
  intros i item Hi. exists (Merge.replace_item (Merge.translations_map translations_data) item).
  split; [rewrite list_lookup_fmap, Hi; reflexivity|].
  rewrite <- translations_map_lookup. apply replace_item_fields.
Qed.

Lemma merge_takes_the_last_translation_witness :
  let original := Path "data/step1" "1.1_raw" ".json" in
  let translations := Path "data/step1" "1.2_claude_rewrite" ".json" in
  let output := Path "data/step1" "1.3_raw_english" ".json" in
  let item1 := JObj (Some 1) [("prompt", JStr "p"); ("explanation", JStr "zh1")] in
  let item2 := JObj (Some 2) [("prompt", JStr "q"); ("explanation", JStr "zh2")] in
  let fs := FS {["data/step1"]}
               {[original := JsonArray [item1; item2];
                 translations := JsonArray [JObj (Some 1) [("translation", JStr "en1")];
                                            JObj (Some 2) [("error", JStr "overloaded_error")]]]}
               ∅ in
  (Merge.replace_explanations original translations output fs).1 = true.
Proof.
  intros original translations output item1 item2 fs.
  destruct (merge_takes_the_last_translation original translations output fs
              [item1; item2]
              [JObj (Some 1) [("translation", JStr "en1")];
               JObj (Some 2) [("error", JStr "overloaded_error")]])
    as (result & Hrun & _); [reflexivity | reflexivity | set_solver |].
  rewrite Hrun. reflexivity.
Defined.

Lemma replace_item_idemp m item :
  Merge.replace_item m (Merge.replace_item m item) = Merge.replace_item m item.
Proof.
  unfold Merge.replace_item. destruct (oid item) as [z|] eqn:Eid; [|rewrite Eid; reflexivity].
  destruct (m !! Some z) as [t|] eqn:Et; [|rewrite Eid, Et; reflexivity].
  destruct (has_key "explanation" item) eqn:Ekey; [|rewrite Eid, Et, Ekey; reflexivity].
  cbn [oid]. rewrite Et.
  assert (Hk : has_key "explanation"
                 (JObj (Some z) (Merge.set_field "explanation" t (ofields item))) = true).
  { unfold has_key in *. cbn [ofields]. rewrite set_field_keys. exact Ekey. }
  rewrite Hk. cbn [ofields]. rewrite set_field_idemp. reflexivity.
Qed.

(** X15: merging again changes nothing: run on its own output with
    the same translations (kept in another file), the merge writes the
    file it read. *)
Theorem merge_is_idempotent (original translations output : path) (fs fs1 : filesys) :
  translations ≠ output →
  Merge.replace_explanations original translations output fs = (true, fs1) →
  Merge.replace_explanations output translations output fs1 = (true, fs1).
Proof.
  intros Hne. unfold Merge.replace_explanations at 1.
  destruct (Merge.read_json fs original) as [original_data|] eqn:Eo; [|discriminate].
  destruct (Merge.read_json fs translations) as [translations_data|] eqn:Et; [|discriminate].
  destruct (bool_decide (pdir output ∈ fs_dirs fs)) eqn:Ed; [|discriminate].
  intros [= <-]. unfold Merge.replace_explanations, Merge.read_json in *.
  cbn [fs_files fs_dirs fs_images]. rewrite lookup_insert_eq.
  rewrite lookup_insert_ne by (apply not_eq_sym, Hne).
  destruct (fs_files fs !! translations) as [[l| |]|]; try discriminate.
  injection Et as ->. rewrite Ed. f_equal. f_equal.
  rewrite insert_insert_eq. f_equal. f_equal.
  rewrite <- list_fmap_compose. apply list_fmap_ext. intros i x _. apply replace_item_idemp.
Qed.

Lemma merge_is_idempotent_witness :
  let original := Path "data/step1" "1.1_raw" ".json" in
  let translations := Path "data/step1" "1.2_claude_rewrite" ".json" in
  let output := Path "data/step1" "1.3_raw_english" ".json" in
  let item1 := JObj (Some 1) [("prompt", JStr "p"); ("explanation", JStr "zh1")] in
  let fs := FS {["data/step1"]}
               {[original := JsonArray [item1];
                 translations := JsonArray [JObj (Some 1) [("translation", JStr "en1")]]]}
               ∅ in
  let fs1 := (Merge.replace_explanations original translations output fs).2 in
  Merge.replace_explanations output translations output fs1 = (true, fs1).
Proof.
  intros original translations output item1 fs fs1.
  apply (merge_is_idempotent original translations output fs fs1).
  - discriminate.
  - vm_compute. reflexivity.
Defined.

(** ** From the rewrite stage to the merge *)

Lemma omap_cons_eq {A B} (f : A → option B) (x : A) (l : list A) :
  omap f (x :: l) = match f x with Some y => y :: omap f l | None => omap f l end.
Proof. reflexivity. Qed.

Lemma omap_unique_key {B} (f : jobj → option B) (l : list jobj) (r : jobj) :
  NoDup (oid <$> l) → r ∈ l →
  omap (λ r', if decide (oid r' = oid r) then f r' else None) l
  = match f r with Some y => [y] | None => [] end.
Proof.
  induction l as [|x l IH]; intros Hnd Hr; [inversion Hr|].
  simpl in Hnd. apply NoDup_cons in Hnd as [Hx Hnd]. rewrite omap_cons_eq.
  apply elem_of_cons in Hr as [->|Hr].
  - rewrite decide_True by reflexivity.
    assert (Hrest : omap (λ r', if decide (oid r' = oid x) then f r' else None) l = []).
    { clear IH Hnd. induction l as [|y l IH]; [reflexivity|]. rewrite omap_cons_eq.
      rewrite decide_False.
      - apply IH. intros Hin. apply Hx. right. exact Hin.
      - intros Heq. apply Hx. rewrite <- Heq. left. }
    rewrite Hrest. destruct (f x); reflexivity.
  - rewrite decide_False; [apply IH; assumption|].
    intros Heq. apply Hx. rewrite Heq. apply list_elem_of_fmap. eauto.
Qed.

Lemma omap_no_key {B} (f : jobj → option B) (l : list jobj) (k : ident) :
  k ∉ oid <$> l → omap (λ r', if decide (oid r' = k) then f r' else None) l = [].
Proof.
  induction l as [|y l IH]; intros Hk; [reflexivity|]. rewrite omap_cons_eq.
  rewrite decide_False by (intros Heq; apply Hk; rewrite <- Heq; left).
  apply IH. intros Hin. apply Hk. right. exact Hin.
Qed.

(** Read from a saved checkpoint, the map of translations is the
    CheckpointSet itself. *)
Lemma translations_of_snapshot (m : gmap ident jobj) (z : Z) :
  keyed m →
  Merge.translations_map (snapshot_sorted m) !! Some z
  = m !! Some z ≫= λ r, assoc "translation" (ofields r).
Proof.
  intros Hk. rewrite translations_map_lookup. unfold last_translation.
  assert (Hnd : NoDup (oid <$> snapshot_sorted m))
    by apply sorted_NoDup_oid, snapshot_sorted_strict, Hk.
  destruct (m !! Some z) as [r|] eqn:Er; cbn [mbind option_bind].
  - assert (Hid : oid r = Some z) by (apply Hk; exact Er).
    assert (Hin : r ∈ snapshot_sorted m).
    { apply elem_of_snapshot_sorted. split; [eauto | rewrite Hid; eauto]. }
    rewrite <- Hid. rewrite (omap_unique_key _ _ r Hnd Hin).
    destruct (assoc "translation" (ofields r)); reflexivity.
  - rewrite omap_no_key; [reflexivity|].
    intros Hin. apply list_elem_of_fmap in Hin as (r & Hid & Hr).
    apply elem_of_snapshot_sorted in Hr as [[k Hk'] _].
    rewrite <- (Hk k r Hk'), <- Hid in Hk'. congruence.
Qed.

(** A normal end of the rewrite stage leaves every record under its own
    identifier. *)
Lemma rewrite_main_keyed save_interval output remote schedule data fs w' :
  Rewrite.main save_interval output remote schedule data (init_world fs) = Ret tt w' →
  keyed (w_results w').
Proof.
  intros Hrun. rewrite main_unfold in Hrun. cbv zeta in Hrun.
  set (w1 := after_load true false (Rewrite.intermediate_output_file output) (init_world fs))
    in *.
  assert (Hl1 : w_lock w1 = false) by (unfold w1; rewrite after_load_lock; reflexivity).
  assert (Hk1 : keyed (w_results w1)) by (unfold w1; apply keyed_after_load, keyed_empty).
  apply bind_Ret_inv in Hrun as ([] & w2 & Hdisp & Hrun).
  apply bind_Ret_inv in Hrun as ([] & w3 & Hsave & Hfin).
  assert (Hk2 : keyed (w_results w2) ∧ w_lock w2 = false).
  { unfold dispatch in Hdisp.
    destruct (Rewrite.items_to_process data (w_results w1)).
    - injection Hdisp as <-. split; assumption.
    - destruct (pool_post save_interval output remote (w_results w1) _ _ _ Hl1
                  ltac:(intros k r Hk; left; exact Hk) Hdisp) as (Hl2 & Hfrom & _).
      split; [|exact Hl2]. intros k r Hr.
      destruct (Hfrom k r Hr) as [Hl|[Hid _]]; [apply Hk1, Hl | exact Hid]. }
  destruct Hk2 as [Hk2 Hl2].
  destruct (rewrite_save_results _ _ _ Hl2 Hsave) as [Hres3 _].
  apply rewrite_finalize_results in Hfin. rewrite Hfin, Hres3. exact Hk2.
Qed.

(** X16: the merge reads what the rewrite stage recorded.  After a
    normal end of the rewrite stage into an existing directory, merging
    its output file into the original items gives every item that has an
    identifier and an explanation the translation of its record; an
    item whose record is a failure record, or that has no record, keeps
    the explanation it had. *)
Theorem merge_after_rewrite
    (save_interval : Z) (rewritten original merged : path)
    (remote : jobj → nat → Backoff.attempt string) (schedule : list jobj → list jobj)
    (data original_data : list jobj) (fs : filesys) (w' : world) :
  pdir rewritten ∈ fs_dirs fs → pdir merged ∈ fs_dirs fs →
  Rewrite.main save_interval rewritten remote schedule data (init_world fs) = Ret tt w' →
  Merge.read_json (w_fs w') original = Some original_data →
  ∃ result,
    (Merge.replace_explanations original rewritten merged (w_fs w')).1 = true
    ∧ fs_files (Merge.replace_explanations original rewritten merged (w_fs w')).2 !! merged
      = Some (JsonArray result)
    ∧ ∀ i item z, original_data !! i = Some item → oid item = Some z →
        has_key "explanation" item = true →
        ∃ o, result !! i = Some o
             ∧ assoc "explanation" (ofields o)
               = match w_results w' !! Some z ≫= λ r, assoc "translation" (ofields r) with
                 | Some t => Some t
                 | None => assoc "explanation" (ofields item)
                 end.
Proof.
  intros Hdir1 Hdir2 Hrun Horig.
  destruct (rewrite_main_files _ _ _ _ _ _ _ Hdir1 Hrun) as [_ Hfile].
  pose proof (rewrite_main_keyed _ _ _ _ _ _ _ Hrun) as Hkeyed.
  assert (Hdirs : pdir merged ∈ fs_dirs (w_fs w')).
  { clear -Hrun Hdir2. rewrite main_unfold in Hrun. cbv zeta in Hrun.
    set (w1 := after_load true false (Rewrite.intermediate_output_file rewritten)
                 (init_world fs)) in *.
    assert (Hl1 : w_lock w1 = false) by (unfold w1; rewrite after_load_lock; reflexivity).
    assert (Hf1 : w_fs w1 = fs) by (unfold w1; rewrite after_load_fs; reflexivity).
    apply bind_Ret_inv in Hrun as ([] & w2 & Hdisp & Hrun).
    destruct (dispatch_post _ _ _ _ _ _ _ Hl1 Hdisp) as [Hl2 Hf2].
    unfold mbind, prog_bind in Hrun. rewrite rewrite_save_run in Hrun by exact Hl2.
    destruct (bool_decide (pdir rewritten ∈ fs_dirs (w_fs w2)));
      rewrite rewrite_finalize_run in Hrun; injection Hrun as <-;
      repeat match goal with
             | |- context [match ?x with _ => _ end] => destruct x
             end;
      cbn [w_fs fs_dirs set_fs set_counter add_event]; rewrite Hf2, Hf1; exact Hdir2. }
  assert (Htrans : Merge.read_json (w_fs w') rewritten = Some (snapshot_sorted (w_results w'))).
  { unfold Merge.read_json. rewrite Hfile. reflexivity. }
  unfold Merge.replace_explanations. rewrite Horig, Htrans.
  rewrite bool_decide_eq_true_2 by exact Hdirs. cbn [fst snd fs_files].
  eexists. split; [reflexivity|]. split; [apply lookup_insert_eq|].
  intros i item z Hi Hid Hkey.
  exists (Merge.replace_item (Merge.translations_map (snapshot_sorted (w_results w'))) item).
  split; [rewrite list_lookup_fmap, Hi; reflexivity|].
  destruct (replace_item_fields (Merge.translations_map (snapshot_sorted (w_results w'))) item)
    as (_ & _ & _ & Hexp).
  rewrite Hexp, Hid, translations_of_snapshot by exact Hkeyed.
  rewrite bool_decide_eq_true_2 by eauto. rewrite Hkey. reflexivity.
Qed.

Lemma merge_after_rewrite_witness :
  let rewritten := Path "data/step1" "1.2_claude_rewrite" ".json" in
  let original := Path "data/step1" "1.1_raw" ".json" in
  let merged := Path "data/step1" "1.3_raw_english" ".json" in
  let item1 := JObj (Some 1) [("explanation", JStr "zh1")] in
  let item2 := JObj (Some 2) [("explanation", JStr "zh2")] in
  let remote := λ (it : jobj) (_ : nat),
    if bool_decide (oid it = Some 2)
    then Backoff.Attempt (inr "overloaded_error") 1 0
    else Backoff.Attempt (inl "<translated_explanation>en1</translated_explanation>") 1 0 in
  let fs := FS {["data/step1"]} {[original := JsonArray [item1; item2]]} ∅ in
  let w' := final_world (Rewrite.main 100 rewritten remote id [item1; item2] (init_world fs)) in
  (Merge.replace_explanations original rewritten merged (w_fs w')).1 = true.
Proof.
  intros rewritten original merged item1 item2 remote fs w'.
  destruct (merge_after_rewrite 100 rewritten original merged remote id [item1; item2]
              [item1; item2] fs w') as (result & Hok & _).
  - vm_compute. set_solver.
  - vm_compute. set_solver.
  - vm_compute. reflexivity.
  - vm_compute. reflexivity.
  - exact Hok.
Defined.

(** ** Filtering the correctly answered puzzles (stage 1.5) *)

Section FilterFacts.
Variable basename : string → string.
Variable splitext_ext : string → string.
Variable repr_list : list string → string.

Local Abbreviation new_question_item := (Filter.new_question_item basename splitext_ext).
Local Abbreviation filter_loop := (Filter.filter_loop basename splitext_ext).

Lemma id_mapping_from_other (start : nat) (ids : list Z) (m : gmap Z nat) (z : Z) :
  z ∉ ids → Filter.id_mapping_from start ids m !! z = m !! z.
Proof.
  revert start m. induction ids as [|x ids IH]; intros start m Hz; [reflexivity|].
  cbn [Filter.id_mapping_from]. rewrite IH by (intros H; apply Hz; right; exact H).
  apply lookup_insert_ne. intros ->. apply Hz. left.
Qed.

Lemma id_mapping_from_index (start : nat) (ids : list Z) (m : gmap Z nat) (i : nat) (z : Z) :
  NoDup ids → ids !! i = Some z →
  Filter.id_mapping_from start ids m !! z = Some (start + i)%nat.
Proof.
  revert start m i. induction ids as [|x ids IH]; intros start m i Hnd Hi; [discriminate|].
  apply NoDup_cons in Hnd as [Hx Hnd]. cbn [Filter.id_mapping_from].
  destruct i as [|i].
  - injection Hi as ->. rewrite id_mapping_from_other by exact Hx.
    rewrite lookup_insert_eq. f_equal. lia.
  - cbn in Hi. rewrite (IH (S start) _ i Hnd Hi). f_equal. lia.
Qed.

Lemma new_question_item_fields (q : jobj) (n : nat) (o : jobj) :
  new_question_item q n = Some o →
  oid o = Some (Z.of_nat n)
  ∧ (ofields o).*1 = (ofields q).*1
  ∧ ∀ k, k ≠ "image" → assoc k (ofields o) = assoc k (ofields q).
Proof.
  unfold Filter.new_question_item.
  destruct (assoc "image" (ofields q)) as [[s|[|x l]]|]; try discriminate;
    try (intros [= <-]; cbn [oid ofields]; auto).
  destruct (bool_decide (s = "")); intros [= <-]; cbn [oid ofields]; [auto|].
  split; [reflexivity|]. split; [apply set_field_keys|].
  intros k Hk. apply assoc_set_field_ne, Hk.
Qed.

Lemma filter_loop_all_found (idmap : gmap Z nat) (qmap : gmap ident jobj)
    (rest : list Z) (filtered : list jobj) :
  (∀ z, z ∈ rest → is_Some (qmap !! Some z)) →
  filter_loop idmap qmap rest = Some filtered →
  length filtered = length rest
  ∧ ∀ i z, rest !! i = Some z →
      ∃ q o, qmap !! Some z = Some q ∧ filtered !! i = Some o
             ∧ new_question_item q (default 0%nat (idmap !! z)) = Some o.
Proof.
  revert filtered. induction rest as [|x rest IH]; intros filtered Hall.
  - intros [= <-]. split; [reflexivity|]. intros i z Hi. discriminate.
  - cbn [Filter.filter_loop]. destruct (Hall x ltac:(left)) as [q Hq]. rewrite Hq.
    destruct (new_question_item q (default 0%nat (idmap !! x))) as [o|] eqn:Ho; [|discriminate].
    destruct (filter_loop idmap qmap rest) as [f|] eqn:Hf; [|discriminate].
    intros [= <-]. destruct (IH f (λ z Hz, Hall z (list_elem_of_further _ _ _ Hz)) eq_refl)
      as [Hlen Hpt].
    split; [simpl; f_equal; exact Hlen|].
    intros [|i] z Hi.
    + injection Hi as <-. exists q, o. auto.
    + apply (Hpt i z Hi).
Qed.

Lemma id_to_question_map_lookup (questions : list jobj) (k : ident) :
  Filter.id_to_question_map questions !! k = last_with_id k questions.
Proof.
  change (Filter.id_to_question_map questions) with (load_records false questions ∅).
  rewrite load_records_lookup. cbn [andb]. rewrite lookup_empty.
  destruct (last_with_id k questions); reflexivity.
Qed.

(** X17: the filter of stage 1.5 renumbers from zero.  When the
    identifiers of the correctly answered puzzles are pairwise different
    and each has a question, the filtered questions carry the
    identifiers 0, 1, 2, ... in the order of the results file; the
    [i]-th is the last question of the questions file with the [i]-th
    correct identifier, with the same keys and, but for the image path,
    the same values. *)
Theorem filter_renumbers_from_zero (ids : list Z) (questions filtered : list jobj) :
  NoDup ids →
  (∀ z, z ∈ ids → is_Some (last_with_id (Some z) questions)) →
  Filter.filtered_questions basename splitext_ext ids questions = Some filtered →
  oid <$> filtered = (λ i : nat, Some (Z.of_nat i)) <$> seq 0 (length ids)
  ∧ ∀ i z, ids !! i = Some z →
      ∃ q o, last_with_id (Some z) questions = Some q
             ∧ filtered !! i = Some o
             ∧ (ofields o).*1 = (ofields q).*1
             ∧ ∀ k, k ≠ "image" → assoc k (ofields o) = assoc k (ofields q).
Proof.
  intros Hnd Hall. unfold Filter.filtered_questions. intros Hrun.
  destruct (filter_loop_all_found _ _ _ _
              ltac:(intros z Hz; rewrite id_to_question_map_lookup; apply Hall, Hz) Hrun)
    as [Hlen Hpt].
  assert (Hitem : ∀ i z, ids !! i = Some z →
            ∃ q o, last_with_id (Some z) questions = Some q ∧ filtered !! i = Some o
                   ∧ new_question_item q i = Some o).
  { intros i z Hi. destruct (Hpt i z Hi) as (q & o & Hq & Ho & Hnew).
    exists q, o. rewrite <- id_to_question_map_lookup. split; [exact Hq|]. split; [exact Ho|].
    unfold Filter.id_mapping in Hnew.
    rewrite (id_mapping_from_index 0 ids ∅ i z Hnd Hi) in Hnew. exact Hnew. }
  split.
  - apply list_eq. intros i. rewrite !list_lookup_fmap.
    destruct (ids !! i) as [z|] eqn:Hi.
    + destruct (Hitem i z Hi) as (q & o & _ & Ho & Hnew). rewrite Ho. cbn [fmap option_fmap option_map].
      apply new_question_item_fields in Hnew as [Hid _]. rewrite Hid.
      rewrite lookup_seq_lt by (apply lookup_lt_Some in Hi; exact Hi). reflexivity.
    + apply lookup_ge_None in Hi.
      rewrite (lookup_ge_None_2 filtered) by lia.
      rewrite lookup_seq_ge by lia. reflexivity.
  - intros i z Hi. destruct (Hitem i z Hi) as (q & o & Hq & Ho & Hnew).
    exists q, o. apply new_question_item_fields in Hnew as (_ & Hkeys & Hother). auto.
Qed.

End FilterFacts.

Lemma filter_renumbers_from_zero_witness :
  let q3 := JObj (Some 3) [("prompt", JStr "p3"); ("image", JStr "images/image_3.png")] in
  let q5 := JObj (Some 5) [("prompt", JStr "p5"); ("image", JStr "images/image_5.png")] in
  let q9 := JObj (Some 9) [("prompt", JStr "p9")] in
  let filtered :=
    [JObj (Some 0) [("prompt", JStr "p5"); ("image", JStr "images/image_0.png")];
     JObj (Some 1) [("prompt", JStr "p9")]] in
  oid <$> filtered = (λ i : nat, Some (Z.of_nat i)) <$> seq 0 2.
Proof.
  intros q3 q5 q9 filtered.
  apply (proj1 (filter_renumbers_from_zero id (λ _, ".png") [5; 9] [q3; q5; q9] filtered
                  ltac:(repeat constructor; set_solver)
                  ltac:(intros z Hz; apply elem_of_cons in Hz as [->|Hz];
                        [vm_compute; eauto|];
                        apply elem_of_cons in Hz as [->|Hz]; [vm_compute; eauto | inversion Hz])
                  ltac:(vm_compute; reflexivity))).
Defined.

(** X18: nothing to filter.  When no record of the results file has
    both an answer and a correct answer (every record is a failure
    record, say), the run with [--no-images] ends through [sys.exit(0)]
    after creating the output directory and writes no file: a question
    file left there by an earlier run stays as it is. *)
Theorem filter_without_answers_writes_nothing
    (basename splitext_ext : string → string) (repr_list : list string → string)
    (results questions : path) (output_dir : string) (fs : filesys)
    (puzzle_results merged_questions : list jobj) :
  Merge.read_json fs results = Some puzzle_results →
  Merge.read_json fs questions = Some merged_questions →
  (∀ r, r ∈ puzzle_results → has_key "answer" r = false ∨ has_key "correct_answer" r = false) →
  Filter.filter_correct_predictions basename splitext_ext repr_list results questions
    output_dir fs
  = (Filter.Exit 0, FS ({[output_dir]} ∪ fs_dirs fs) (fs_files fs) (fs_images fs)).
Proof.
  intros Hres Hq Hnone. unfold Filter.filter_correct_predictions.
  unfold Merge.read_json in *. cbn [fs_files]. 
  destruct (fs_files fs !! results) as [[l| |]|]; try discriminate. injection Hres as ->.
  destruct (fs_files fs !! questions) as [[l| |]|]; try discriminate. injection Hq as ->.
  assert (Hids : Filter.correct_ids repr_list puzzle_results = []).
  { unfold Filter.correct_ids. induction puzzle_results as [|r l IH]; [reflexivity|].
    rewrite omap_cons_eq.
    destruct (Hnone r ltac:(left)) as [H|H]; rewrite H, ?andb_false_r; cbn [andb];
      apply IH; intros r' Hr'; apply Hnone; right; exact Hr'. }
  rewrite Hids. reflexivity.
Qed.

Lemma filter_without_answers_writes_nothing_witness :
  let results := Path "data/step1" "1.4_verify" ".json" in
  let questions := Path "data/step1" "1.3_raw_english" ".json" in
  let old := Path "data/step1_filtered" "1.5_questions" ".json" in
  let fs := FS {["data/step1"]}
               {[results := JsonArray [JObj (Some 1) [("error", JStr "Image not found: x")]];
                 questions := JsonArray [JObj (Some 1) [("prompt", JStr "p")]];
                 old := JsonArray [JObj (Some 0) [("prompt", JStr "stale")]]]} ∅ in
  (Filter.filter_correct_predictions id id (λ _, "") results questions "data/step1_filtered" fs).1
  = Filter.Exit 0.
Proof.
  intros results questions old fs.
  rewrite (filter_without_answers_writes_nothing id id (λ _, "") results questions
             "data/step1_filtered" fs
             [JObj (Some 1) [("error", JStr "Image not found: x")]]
             [JObj (Some 1) [("prompt", JStr "p")]]).
  - reflexivity.
  - reflexivity.
  - reflexivity.
  - intros r Hr. apply elem_of_cons in Hr as [->|Hr]; [left; reflexivity | inversion Hr].
Defined.

(** ** Seeds: renaming the fields (stage 1.7) and merging the tags (stage 1.9) *)

Lemma get_set_eq k v (d : Seeds.pydict) : Seeds.get k (Seeds.set k v d) = Some v.
Proof.
  induction d as [|[k' v'] d IH]; simpl; [rewrite String.eqb_refl; reflexivity|].
  destruct (String.eqb k k') eqn:E; simpl; rewrite E; [reflexivity | exact IH].
Qed.

Lemma get_set_ne k k' v (d : Seeds.pydict) :
  k' ≠ k → Seeds.get k' (Seeds.set k v d) = Seeds.get k' d.
Proof.
  intros Hne. induction d as [|[k0 v0] d IH]; simpl.
  - destruct (String.eqb_spec k' k); [contradiction | reflexivity].
  - destruct (String.eqb_spec k k0) as [->|Hk]; simpl.
    + destruct (String.eqb_spec k' k0); [contradiction | reflexivity].
    + destruct (String.eqb k' k0); [reflexivity | exact IH].
Qed.

Lemma rename_item_snoc (mapping : list (string * string)) old new (item : Seeds.pydict) :
  Seeds.rename_item (mapping ++ [(old, new)]) item
  = match Seeds.get old item with
    | Some v => Seeds.set new v (Seeds.rename_item mapping item)
    | None => Seeds.rename_item mapping item
    end.
Proof. unfold Seeds.rename_item. rewrite foldl_app. reflexivity. Qed.

Lemma rename_item_other (mapping : list (string * string)) (item : Seeds.pydict) k :
  k ∉ mapping.*2 → Seeds.get k (Seeds.rename_item mapping item) = None.
Proof.
  induction mapping as [|[old new] mapping IH] using rev_ind; intros Hk; [reflexivity|].
  rewrite rename_item_snoc. rewrite fmap_app, not_elem_of_app in Hk. destruct Hk as [Hk Hnew].
  assert (k ≠ new) by (intros ->; apply Hnew; left).
  destruct (Seeds.get old item); [rewrite get_set_ne by assumption|]; apply IH, Hk.
Qed.

Lemma rename_item_lookup (mapping : list (string * string)) (item : Seeds.pydict) old new :
  NoDup mapping.*2 → (old, new) ∈ mapping →
  Seeds.get new (Seeds.rename_item mapping item) = Seeds.get old item.
Proof.
  induction mapping as [|[old' new'] mapping IH] using rev_ind; intros Hnd Hin;
    [inversion Hin|].
  rewrite rename_item_snoc. rewrite fmap_app in Hnd.
  apply NoDup_app in Hnd as (Hnd & Hdisj & _).
  apply elem_of_app in Hin as [Hin|Hin].
  - assert (Hne : new ≠ new').
    { intros ->. apply (Hdisj new'); [|left].
      apply list_elem_of_fmap. exists (old, new'). auto. }
    destruct (Seeds.get old' item); [rewrite get_set_ne by exact Hne|]; apply IH; assumption.
  - apply list_elem_of_singleton in Hin. injection Hin as -> ->.
    destruct (Seeds.get old' item) as [v|] eqn:E; [apply get_set_eq|].
    apply rename_item_other. intros Hin. apply (Hdisj new' Hin). left.
Qed.

(** X19: stage 1.7 keeps one object per input object, in order, and
    an object holds exactly the renamed entries: under pairwise
    different new names, the entry under a new name is the input's entry
    under the old name, absent when that is absent, and there is no
    entry under any other key. *)
Theorem rename_keeps_the_mapped_entries
    (field_mapping : list (string * string)) (data : list Seeds.pydict) :
  NoDup field_mapping.*2 →
  length (Seeds.extract_and_rename field_mapping data) = length data
  ∧ ∀ i item, data !! i = Some item →
      ∃ o, Seeds.extract_and_rename field_mapping data !! i = Some o
           ∧ (∀ old new, (old, new) ∈ field_mapping → Seeds.get new o = Seeds.get old item)
           ∧ (∀ k, k ∉ field_mapping.*2 → Seeds.get k o = None).
Proof.
  intros Hnd. unfold Seeds.extract_and_rename. split; [apply length_map|].
  intros i item Hi. exists (Seeds.rename_item field_mapping item).
  split; [rewrite list_lookup_fmap, Hi; reflexivity|]. split.
  - intros old new Hin. apply rename_item_lookup; assumption.
  - intros k Hk. apply rename_item_other, Hk.
Qed.

Lemma rename_keeps_the_mapped_entries_witness :
  let mapping := [("id", "seed_id"); ("key_points", "seed_rule")] in
  let ok := [("id", Seeds.PyInt 4); ("key_points", Seeds.PyList ["rule"]);
             ("raw_response", Seeds.PyStr "...")] in
  let failed := [("id", Seeds.PyInt 5); ("error", Seeds.PyStr "overloaded_error")] in
  length (Seeds.extract_and_rename mapping [ok; failed]) = 2%nat.
Proof.
  intros mapping ok failed.
  apply (proj1 (rename_keeps_the_mapped_entries mapping [ok; failed]
                  ltac:(repeat constructor; set_solver))).
Defined.

Lemma map_get_set (k k' : Seeds.pyval) (d : Seeds.pydict) (m : Seeds.pymap) :
  Seeds.map_get k' (Seeds.map_set k d m)
  = if decide (k' = k) then Some d else Seeds.map_get k' m.
Proof.
  induction m as [|[k0 d0] m IH]; simpl.
  - reflexivity.
  - destruct (decide (k = k0)) as [->|Hk]; simpl.
    + destruct (decide (k' = k0)); reflexivity.
    + destruct (decide (k' = k0)) as [->|Hk'].
      * destruct (decide (k0 = k)); [congruence | reflexivity].
      * exact IH.
Qed.

Lemma source_id_map_snoc (source_data : list Seeds.pydict) (item : Seeds.pydict) :
  Seeds.source_id_map (source_data ++ [item])
  = match Seeds.source_id_map source_data, Seeds.get "id" item with
    | Some m, Some k => if Seeds.hashable k then Some (Seeds.map_set k item m) else None
    | _, _ => None
    end.
Proof. unfold Seeds.source_id_map. rewrite foldl_app. reflexivity. Qed.

(** The map from identifier to source object gives the last source
    object with that identifier. *)
Lemma source_id_map_lookup (source_data : list Seeds.pydict) (m : Seeds.pymap) k :
  Seeds.source_id_map source_data = Some m →
  Seeds.map_get k m = last_source k source_data.
Proof.
  revert m. induction source_data as [|item l IH] using rev_ind; intros m.
  - intros [= <-]. reflexivity.
  - rewrite source_id_map_snoc.
    destruct (Seeds.source_id_map l) as [m0|]; [|discriminate].
    destruct (Seeds.get "id" item) as [k0|] eqn:Eid; [|discriminate].
    destruct (Seeds.hashable k0); [|discriminate].
    intros [= <-]. rewrite map_get_set. unfold last_source.
    rewrite filter_app, filter_cons, filter_nil.
    destruct (decide (k = k0)) as [->|Hne].
    + rewrite decide_True by exact Eid. apply eq_sym, last_snoc.
    + rewrite decide_False by congruence. rewrite app_nil_r. apply IH. reflexivity.
Qed.

Lemma source_id_map_total (source_data : list Seeds.pydict) :
  (∀ s, s ∈ source_data → ∃ k, Seeds.get "id" s = Some k ∧ Seeds.hashable k = true) →
  is_Some (Seeds.source_id_map source_data).
Proof.
  induction source_data as [|item l IH] using rev_ind; intros Hall; [eauto|].
  rewrite source_id_map_snoc.
  destruct IH as [m ->]; [intros s Hs; apply Hall, elem_of_app; left; exact Hs|].
  destruct (Hall item) as (k & -> & ->); [apply elem_of_app; right; left | eauto].
Qed.

Lemma merge_item_fields (m : Seeds.pymap) (ref_item o : Seeds.pydict) :
  Seeds.merge_item m ref_item = Some o →
  let tag t :=
    match Seeds.map_get (default Seeds.PyNone (Seeds.get "seed_id" ref_item)) m with
    | Some (e :: source_item) => default (Seeds.PyStr "") (Seeds.get t (e :: source_item))
    | _ => Seeds.PyStr ""
    end in
  Seeds.get "question_type" o = Some (tag "question_type")
  ∧ Seeds.get "knowledge_point" o = Some (tag "knowledge_point")
  ∧ ∀ k, k ≠ "question_type" → k ≠ "knowledge_point" → Seeds.get k o = Seeds.get k ref_item.
Proof.
  unfold Seeds.merge_item.
  destruct (Seeds.hashable (default Seeds.PyNone (Seeds.get "seed_id" ref_item)));
    [|discriminate].
  destruct (Seeds.map_get _ m) as [[|e source_item]|]; intros [= <-]; cbv zeta;
    (split; [rewrite get_set_ne by discriminate; apply get_set_eq|]);
    (split; [apply get_set_eq|]);
    intros k H1 H2; rewrite !get_set_ne by assumption; reflexivity.
Qed.

(** X20: stage 1.9 gives every reference object both tags and keeps
    everything else.  When every source object has a hashable ["id"]
    and every reference object a hashable ["seed_id"] (or none), the
    merge succeeds with one object per reference object, in order; each
    keeps all its other entries, and its two tags are those of the last
    source object whose ["id"] is its ["seed_id"], the empty string
    where that object has no such tag or where there is no such object. *)
Theorem merge_adds_the_tags_of_the_last_source
    (reference_data source_data : list Seeds.pydict) :
  (∀ s, s ∈ source_data → ∃ k, Seeds.get "id" s = Some k ∧ Seeds.hashable k = true) →
  (∀ r, r ∈ reference_data →
        Seeds.hashable (default Seeds.PyNone (Seeds.get "seed_id" r)) = true) →
  ∃ merged,
    Seeds.merge_json_data reference_data source_data = Some merged
    ∧ length merged = length reference_data
    ∧ ∀ i ref_item, reference_data !! i = Some ref_item →
        let tag t :=
          match last_source (default Seeds.PyNone (Seeds.get "seed_id" ref_item)) source_data with
          | Some source_item => default (Seeds.PyStr "") (Seeds.get t source_item)
          | None => Seeds.PyStr ""
          end in
        ∃ o, merged !! i = Some o
             ∧ Seeds.get "question_type" o = Some (tag "question_type")
             ∧ Seeds.get "knowledge_point" o = Some (tag "knowledge_point")
             ∧ ∀ k, k ≠ "question_type" → k ≠ "knowledge_point" →
                    Seeds.get k o = Seeds.get k ref_item.
Proof.
  intros Hsrc Href. unfold Seeds.merge_json_data.
  destruct (source_id_map_total source_data Hsrc) as [m Hm]. rewrite Hm.
  assert (Hall : ∀ r, r ∈ reference_data → is_Some (Seeds.merge_item m r)).
  { intros r Hr. unfold Seeds.merge_item. rewrite (Href r Hr).
    destruct (Seeds.map_get _ m) as [[|e s]|]; eauto. }
  assert (Hmap : is_Some (mapM (Seeds.merge_item m) reference_data)).
  { apply mapM_is_Some. apply Forall_forall. exact Hall. }
  destruct Hmap as [merged Hmerged]. exists merged. split; [exact Hmerged|].
  split; [symmetry; eapply length_mapM; exact Hmerged|].
  intros i ref_item Hi. cbv zeta.
  apply mapM_Some_1 in Hmerged.
  destruct (Forall2_lookup_l _ _ _ _ _ Hmerged Hi) as (o & Ho & Hitem).
  exists o. split; [exact Ho|].
  apply merge_item_fields in Hitem. cbv zeta in Hitem.
  rewrite (source_id_map_lookup source_data m _ Hm) in Hitem.
  assert (Hnonempty : ∀ k s, last_source k source_data = Some s → s ≠ []).
  { intros k s Hs ->. unfold last_source in Hs. apply last_Some in Hs as [l' Hl'].
    assert (Hin : [] ∈ filter (λ item, Seeds.get "id" item = Some k) source_data)
      by (rewrite Hl'; apply elem_of_app; right; left).
    apply list_elem_of_filter in Hin as [Hid _]. discriminate. }
  destruct (last_source _ source_data) as [[|e s]|] eqn:El.
  - exfalso. exact (Hnonempty _ _ El eq_refl).
  - exact Hitem.
  - exact Hitem.
Qed.

Lemma merge_adds_the_tags_of_the_last_source_witness :
  let seed := [("seed_id", Seeds.PyInt 4); ("seed_rule", Seeds.PyList ["rule"])] in
  let failed := [("id", Seeds.PyInt 4); ("error", Seeds.PyStr "overloaded_error")] in
  ∃ merged, Seeds.merge_json_data [seed] [failed] = Some merged
            ∧ length merged = 1%nat.
Proof.
  intros seed failed.
  destruct (merge_adds_the_tags_of_the_last_source [seed] [failed]) as (merged & H1 & H2 & _).
  - intros s Hs. apply list_elem_of_singleton in Hs as ->. exists (Seeds.PyInt 4). auto.
  - intros r Hr. apply list_elem_of_singleton in Hr as ->. reflexivity.
  - exists merged. auto.
Defined.

(** X21: one source object without ["id"] (or with an unhashable
    one) makes stage 1.9 give up: whatever the other objects are, the
    exception is raised while the map of the source objects is built,
    before the output is opened, and the handler only prints. *)
Theorem merge_gives_up_on_a_source_without_id
    (reference_data source_data : list Seeds.pydict) (s : Seeds.pydict) :
  s ∈ source_data →
  (Seeds.get "id" s = None ∨ ∃ l, Seeds.get "id" s = Some (Seeds.PyList l)) →
  Seeds.merge_json_data reference_data source_data = None.
Proof.
  intros Hs Hbad. unfold Seeds.merge_json_data.
  assert (Hnone : Seeds.source_id_map source_data = None).
  { induction source_data as [|item l IH] using rev_ind; [inversion Hs|].
    rewrite source_id_map_snoc. apply elem_of_app in Hs as [Hs|Hs].
    - rewrite (IH Hs). reflexivity.
    - apply list_elem_of_singleton in Hs as <-.
      destruct (Seeds.source_id_map l); [|reflexivity].
      destruct Hbad as [->|[l' ->]]; reflexivity. }
  rewrite Hnone. reflexivity.
Qed.

Lemma merge_gives_up_on_a_source_without_id_witness :
  let seed := [("seed_id", Seeds.PyInt 4)] in
  let good := [("id", Seeds.PyInt 4); ("question_type", Seeds.PyStr "Nine-square grid")] in
  let bad := [("question_type", Seeds.PyStr "Others")] in
  Seeds.merge_json_data [seed] [good; bad] = None.
Proof.
  intros seed good bad.
  apply (merge_gives_up_on_a_source_without_id [seed] [good; bad] bad).
  - set_solver.
  - left. reflexivity.
Defined.

(** ** The split markers of the templates *)

Lemma split_fuel_nonempty fuel sep s : Content.split_fuel fuel sep s ≠ [].
Proof.
  destruct fuel; cbn [Content.split_fuel]; [discriminate|].
  destruct (Text.cut sep s) as [[? ?]|]; discriminate.
Qed.

(** The fuel of [split] is enough: more of it changes nothing. *)
Lemma split_fuel_enough fuel sep s :
  sep ≠ "" → (String.length s ≤ fuel)%nat →
  Content.split_fuel fuel sep s = Content.split sep s.
Proof.
  intros Hsep. unfold Content.split.
  assert (H : ∀ n s fuel, (String.length s ≤ n)%nat → (n ≤ fuel)%nat →
            Content.split_fuel fuel sep s = Content.split_fuel n sep s).
  { clear s fuel. induction n as [|n IH]; intros s fuel Hs Hf.
    - destruct s; [|simpl in Hs; lia]. destruct fuel; [reflexivity|].
      cbn [Content.split_fuel]. destruct (Text.cut sep "") as [[a b]|] eqn:E; [|reflexivity].
      apply TextFacts.cut_Some in E. apply (f_equal String.length) in E.
      rewrite !string_length_append in E. destruct sep; [congruence | simpl in E; lia].
    - destruct fuel as [|fuel]; [lia|]. cbn [Content.split_fuel].
      destruct (Text.cut sep s) as [[a b]|] eqn:E; [|reflexivity]. f_equal.
      apply IH; [|lia]. apply TextFacts.cut_Some in E. apply (f_equal String.length) in E.
      rewrite !string_length_append in E. destruct sep; [congruence | simpl in E; lia]. }
  intros Hlen. apply H; [reflexivity | exact Hlen].
Qed.

Lemma unpack2_split_inv sep s a b :
  Content.unpack2 (Content.split sep s) = Some (a, b) →
  Text.cut sep s = Some (a, b) ∧ s = String.append a (String.append sep b).
Proof.
  unfold Content.split. destruct (String.length s) as [|n] eqn:En.
  - discriminate.
  - cbn [Content.split_fuel]. destruct (Text.cut sep s) as [[x rest]|] eqn:Ecut; [|discriminate].
    destruct n as [|n]; cbn [Content.split_fuel Content.unpack2].
    + intros [= <- <-]. split; [reflexivity|]. apply TextFacts.cut_Some, Ecut.
    + destruct (Text.cut sep rest) as [[y rest']|].
      * pose proof (split_fuel_nonempty n sep rest') as Hne.
        destruct (Content.split_fuel n sep rest'); [contradiction | discriminate].
      * cbn [Content.unpack2]. intros [= <- <-]. split; [reflexivity|].
        apply TextFacts.cut_Some, Ecut.
Qed.

Lemma split_without_marker sep s :
  Text.contains sep s = false → Content.unpack2 (Content.split sep s) = None.
Proof.
  unfold Text.contains, Content.split. intros H.
  destruct (String.length s); cbn [Content.split_fuel]; [reflexivity|].
  destruct (Text.cut sep s) as [[? ?]|]; [discriminate | reflexivity].
Qed.

(** X22: the three builders of the request content cut the rendered
    template at its split markers and lose nothing: when they succeed,
    the text blocks, put back together with the markers where the images
    are, give the rendered template.  A template without the marker
    makes them fail (the [ValueError] of the unpacking). *)
Theorem content_keeps_the_template (md b64 mime example_b64 example_mime : string)
    (blocks : list Content.block) :
  (Content._build_prompt md b64 mime = Some blocks →
   content_text ["<!--SPLIT-->"] blocks = md)
  ∧ (Content._build_content_abstraction md example_b64 example_mime b64 mime = Some blocks →
     content_text ["<!--EXAMPLE_SPLIT-->"; "<!--PUZZLE_SPLIT-->"] blocks = md)
  ∧ (Content._build_content_classification md b64 mime = Some blocks →
     content_text ["<!--PUZZLE_SPLIT-->"] blocks = md)
  ∧ (Text.contains "<!--SPLIT-->" md = false → Content._build_prompt md b64 mime = None)
  ∧ (Text.contains "<!--EXAMPLE_SPLIT-->" md = false →
     Content._build_content_abstraction md example_b64 example_mime b64 mime = None)
  ∧ (Text.contains "<!--PUZZLE_SPLIT-->" md = false →
     Content._build_content_classification md b64 mime = None).
Proof.
  assert (Hnil : ∀ s : string, String.append s "" = s).
  { induction s as [|c s IH]; [reflexivity|]. rewrite TextFacts.append_cons, IH. reflexivity. }
  repeat apply conj.
  - unfold Content._build_prompt.
    destruct (Content.unpack2 _) as [[a b]|] eqn:E; [|discriminate].
    intros [= <-]. apply unpack2_split_inv in E as [_ ->].
    cbn [content_text head tail default]. rewrite Hnil. reflexivity.
  - unfold Content._build_content_abstraction.
    destruct (Content.unpack2 _) as [[a rest]|] eqn:E; [|discriminate].
    destruct (Content.unpack2 (Content.split "<!--PUZZLE_SPLIT-->" rest)) as [[b c]|] eqn:E2;
      [|discriminate].
    intros [= <-]. apply unpack2_split_inv in E as [_ ->].
    apply unpack2_split_inv in E2 as [_ ->].
    cbn [content_text head tail default]. rewrite Hnil. reflexivity.
  - unfold Content._build_content_classification.
    destruct (Content.unpack2 _) as [[a b]|] eqn:E; [|discriminate].
    intros [= <-]. apply unpack2_split_inv in E as [_ ->].
    cbn [content_text head tail default]. rewrite Hnil. reflexivity.
  - intros H. unfold Content._build_prompt. rewrite split_without_marker by exact H. reflexivity.
  - intros H. unfold Content._build_content_abstraction.
    rewrite split_without_marker by exact H. reflexivity.
  - intros H. unfold Content._build_content_classification.
    rewrite split_without_marker by exact H. reflexivity.
Qed.

Lemma content_keeps_the_template_witness :
  let md := "Look at <!--PUZZLE_SPLIT--> and classify." in
  content_text ["<!--PUZZLE_SPLIT-->"]
    [Content.TextBlock "Look at "; Content.ImageBlock "image/png" "aGk=";
     Content.TextBlock " and classify."] = md.
Proof.
  intros md.
  apply (proj1 (proj2 (proj2 (content_keeps_the_template md "aGk=" "image/png" "" "" _)))).
  vm_compute. reflexivity.
Defined.
